(** * laps2onepassword: the reconciliation core of [main.go]

    A shallow embedding of the functions of [main.go] that decide how LAPS
    records read from the directory are reconciled with the items of a
    1Password vault:

    - [GetAndCheckEnvironment]        (required environment variables),
    - [getTimeFromFiletime]           (FILETIME ticks to [time.Time]),
    - [GetLapsEntries]                (directory read path),
    - [GetOnePassEntries]             (vault read path),
    - [CompareLapsToOnepass]          (the reconcile-and-apply pass),
    - [CreateOnPassEntryFromLapsEntry] and [UpdateOnPassEntry],
    - [main]                          (the order of the steps and the exit).

    Go's [int64] arithmetic is written over [Z] with its wrap-around spelled
    out.  The field objects of an item are reached through pointers
    ([Fields []*ItemField]), so they live in an explicit heap that is threaded
    through the pass; the 1Password Connect client is an interface, modelled
    by a type class over an abstract world. *)

From Stdlib Require Import ZArith Lia Ascii String Sorted.
From stdpp Require Import base option list gmap.
From Equations Require Import Equations.

Local Open Scope Z_scope.

(** ** Go's [int64] and the part of package [time] the program uses *)

Module GoTime.

Definition MaxInt64 : Z := 9223372036854775807.
Definition MinInt64 : Z := -9223372036854775808.

(** Two's-complement wrap-around of an [int64] result. *)
Definition wrap64 (z : Z) : Z := (z + 2 ^ 63) mod 2 ^ 64 - 2 ^ 63.

Definition in_int64 (z : Z) : Prop := MinInt64 <= z <= MaxInt64.

(** [time.Duration] is an [int64] count of nanoseconds. *)
Definition Duration := Z.
Definition Nanosecond : Duration := 1.

(** [func (d Duration) Truncate(m Duration) Duration]:
    [if m <= 0 { return d }; return d - d%m]. *)
Definition Duration_Truncate (d m : Duration) : Duration :=
  if m <=? 0 then d else d - Z.rem d m.

(** A [time.Time] without monotonic reading, as [time.Date] builds it: the
    nanosecond within the second (the low bits of [wall]) and [ext], the
    seconds elapsed since January 1, year 1. *)
Record Time : Type := mkTime { nsec : Z; ext : Z }.

(** [func (t *Time) addSec(d int64)]: the sum saturates on overflow. *)
Definition addSec (t : Time) (d : Z) : Time :=
  let sum := wrap64 (ext t + d) in
  if Bool.eqb (sum >? ext t) (d >? 0) then mkTime (nsec t) sum
  else if d >? 0 then mkTime (nsec t) MaxInt64
  else mkTime (nsec t) (- MaxInt64).

(** [func (t Time) Add(d Duration) Time]; Go's [/] and [%] truncate
    towards zero. *)
Definition Add (t : Time) (d : Duration) : Time :=
  let dsec := Z.quot d 1000000000 in
  let ns := nsec t + Z.rem d 1000000000 in
  if ns >=? 1000000000 then addSec (mkTime (ns - 1000000000) (ext t)) (dsec + 1)
  else if ns <? 0 then addSec (mkTime (ns + 1000000000) (ext t)) (dsec - 1)
  else addSec (mkTime ns (ext t)) dsec.

Definition isLeap (year : Z) : bool :=
  (year mod 4 =? 0) && (negb (year mod 100 =? 0) || (year mod 400 =? 0)).

(** Days of a non-leap year before the first of each month. *)
Definition daysBefore (month : Z) : Z :=
  match month with
  | 1 => 0 | 2 => 31 | 3 => 59 | 4 => 90 | 5 => 120 | 6 => 151 | 7 => 181
  | 8 => 212 | 9 => 243 | 10 => 273 | 11 => 304 | _ => 334
  end.

(** [time.Date(year, month, day, hour, min, sec, nsec, time.UTC)] for
    arguments that are already in range (no normalisation needed): the
    days since January 1, year 1 of the proleptic Gregorian calendar. *)
Definition Date (year month day hour min sec ns : Z) : Time :=
  let y := year - 1 in
  let d := 365 * y + y / 4 - y / 100 + y / 400
           + daysBefore month
           + (if isLeap year && (3 <=? month) then 1 else 0)
           + (day - 1) in
  mkTime ns (d * 86400 + hour * 3600 + min * 60 + sec).

(** [t.Before(u)] for times without monotonic reading. *)
Definition Before (t u : Time) : bool :=
  (ext t <? ext u) || ((ext t =? ext u) && (nsec t <? nsec u)).

(** The instant as an unbounded count of nanoseconds since year 1: the
    arbitrary-precision reference the decoder is compared with. *)
Definition instant_ns (t : Time) : Z := ext t * 1000000000 + nsec t.

Definition normalized (t : Time) : Prop := 0 <= nsec t < 1000000000.

End GoTime.

Import GoTime.

(** ** [getTimeFromFiletime] *)

Definition maxd : Duration := Duration_Truncate MaxInt64 (100 * Nanosecond).
Definition maxdUnits : Z := Z.quot maxd 100.

(** [for input > maxdUnits { t = t.Add(maxd); input -= maxdUnits }]: the
    state of the loop is the pair of [t] and the remaining [input]. *)
Equations? chunk_loop (t : Time) (input : Z) : Time * Z
  by wf (Z.to_nat input) lt :=
  chunk_loop t input with Z_gt_dec input maxdUnits := {
    | left _ => chunk_loop (Add t maxd) (wrap64 (input - maxdUnits))
    | right _ => (t, input) }.
Proof.
  (* [input > maxdUnits > 0], and the wrapped difference is below [input]. *)
  change maxdUnits with 92233720368547758 in *.
  unfold wrap64.
  pose proof (Z.mod_pos_bound (input - 92233720368547758 + 2 ^ 63) (2 ^ 64)).
  destruct (Z_le_gt_dec input 9223372036854775807).
  - rewrite Z.mod_small by lia. lia.
  - lia.
Qed.

Definition epoch1601 : Time := Date 1601 1 1 0 0 0 0.

Definition getTimeFromFiletime (input : Z) : Time :=
  let '(t, input) := chunk_loop epoch1601 input in
  if input =? 0 then t else Add t (wrap64 (input * 100)).

(** The reference the decoder is compared with, following the words of the
    specification: the epoch instant plus [n] times 100 nanoseconds,
    computed over unbounded integers and split into seconds and
    nanoseconds. *)
Definition reference_decode (n : Z) : Time :=
  let total := instant_ns epoch1601 + n * 100 in
  mkTime (total mod 1000000000) (total / 1000000000).

(** ** Data: LAPS records and 1Password items *)

Local Close Scope Z_scope.
Local Open Scope string_scope.
Local Open Scope list_scope.

(** [type LapsEntry struct] of [main.go]. *)
Record LapsEntry : Type := mkLapsEntry {
  name : string;
  dnshostname : string;
  password : string;
  expiration : Time }.

(** [onepassword.ItemField], the members the program reads or writes. *)
Record ItemField : Type := mkItemField {
  Field_ID : string;
  Field_Type : string;
  Field_Purpose : string;
  Field_Label : string;
  Field_Value : string }.

(** A [*ItemField]: the address of a field object.  Address [0] is the nil
    pointer; it is never allocated. *)
Definition loc : Type := nat.
Definition nil_loc : loc := 0%nat.

(** [onepassword.Item]: [Fields []*ItemField] holds pointers, so a copy of
    an item still shares its field objects with the original. *)
Record Item : Type := mkItem {
  Item_ID : string;
  Item_Title : string;
  Item_Category : string;
  Item_Vault_ID : string;
  Item_Fields : list loc }.

(** An item as it travels to and from the Connect server: the field
    objects by value ([None] for a nil pointer, a JSON [null]). *)
Record ItemData : Type := mkItemData {
  Data_ID : string;
  Data_Title : string;
  Data_Category : string;
  Data_Vault_ID : string;
  Data_Fields : list (option ItemField) }.

(** [onepassword.Vault]. *)
Record Vault : Type := mkVault { Vault_ID : string; Vault_Name : string }.

(** The field object [f] after [f.Value = v]. *)
Definition set_Value (f : ItemField) (v : string) : ItemField :=
  {| Field_ID := Field_ID f; Field_Type := Field_Type f;
     Field_Purpose := Field_Purpose f; Field_Label := Field_Label f;
     Field_Value := v |}.

(** Go's [error]: [None] is [nil]. *)
Definition error : Type := option string.

(** ** The environment: process environment, clock, UUIDs and the Connect
    server behind [connect.Client] *)

Class Connect (W : Type) : Type := {
  (** [os.Getenv] *)
  Getenv : string -> W -> string;
  (** [connect.NewClientFromEnvironment]: reads the environment only. *)
  NewClientFromEnvironment : W -> error;
  GetVaultsByTitle : string -> W -> (list Vault * error) * W;
  GetItems : string -> W -> (list ItemData * error) * W;
  GetItem : string -> string -> W -> (ItemData * error) * W;
  (** [CreateItem] and [UpdateItem] also return the stored item, which the
      program only logs or drops. *)
  CreateItem : ItemData -> string -> W -> error * W;
  UpdateItem : ItemData -> string -> W -> error * W;
  (** [uuid.New().String()] and [time.Now().String()] *)
  uuid_New : W -> string * W;
  time_Now : W -> string * W }.

(** What the program does that the claims observe: the calls of
    [CompareLapsToOnepass] to its two appliers, by record index [i] and
    entry index [j], and the requests sent to the server (the vault lookup
    and the writes together with the server's answer). *)
Inductive Event : Type :=
| CallCreate (i : nat)
| CallUpdate (j i : nat)
| ReqGetVaultsByTitle (title : string) (vaults : list Vault) (err : error)
| ReqGetItems (vault : string)
| ReqGetItem (id vault : string)
| ReqCreateItem (item : ItemData) (vault : string) (err : error)
| ReqUpdateItem (item : ItemData) (vault : string) (err : error).

(** How a Go call can abort instead of returning. *)
Inductive PanicKind : Type :=
| IndexOutOfRange (index len : nat)
| NilDereference
| LogPanic (msg : string).

Inductive Outcome (A : Type) : Type :=
| Return (a : A)
| Panic (p : PanicKind).
Arguments Return {A} a.
Arguments Panic {A} p.

(** The mutable state: the heap of field objects and the outside world. *)
Record State (W : Type) : Type := mkState {
  heap : gmap loc ItemField;
  world : W }.
Arguments mkState {W} heap world.
Arguments heap {W} s.
Arguments world {W} s.

(** A computation returns or panics, leaves a state (also when it panics)
    and a trace of events. *)
Definition M (W A : Type) : Type := State W -> Outcome A * State W * list Event.

Definition ret {W A} (a : A) : M W A := fun s => (Return a, s, []).

Definition bind {W A B} (m : M W A) (k : A -> M W B) : M W B :=
  fun s =>
    match m s with
    | (Return a, s1, tr1) =>
        match k a s1 with
        | (o, s2, tr2) => (o, s2, tr1 ++ tr2)
        end
    | (Panic p, s1, tr1) => (Panic p, s1, tr1)
    end.

Definition panic {W A} (p : PanicKind) : M W A := fun s => (Panic p, s, []).

Definition emit {W} (e : Event) : M W unit := fun s => (Return tt, s, [e]).

Declare Scope go_scope.
Delimit Scope go_scope with go.
Notation "x <- m ;; k" := (bind m (fun x => k))
  (at level 100, m at next level, right associativity) : go_scope.
Notation "m ;;; k" := (bind m (fun _ => k))
  (at level 100, right associativity) : go_scope.

Definition outcome_of {W A} (r : Outcome A * State W * list Event) : Outcome A := r.1.1.
Definition state_of {W A} (r : Outcome A * State W * list Event) : State W := r.1.2.
Definition trace_of {W A} (r : Outcome A * State W * list Event) : list Event := r.2.

Local Open Scope go_scope.

Section Program.

Context {W : Type} `{Connect W}.

(** *** Primitive steps *)

(** A call into the outside world that answers with a value. *)
Definition ask {A} (f : W -> A * W) : M W A :=
  fun s => let '(a, w) := f (world s) in (Return a, mkState (heap s) w, []).

(** A read of the process environment. *)
Definition peek {A} (f : W -> A) : M W A :=
  fun s => (Return (f (world s)), s, []).

(** [l[i]] on a slice: a run-time panic when [i] is out of range. *)
Definition index {A} (l : list A) (i : nat) : M W A :=
  match l !! i with
  | Some a => ret a
  | None => panic (IndexOutOfRange i (length l))
  end.

(** [*p]: a run-time panic on the nil pointer. *)
Definition load (p : loc) : M W ItemField :=
  fun s =>
    match heap s !! p with
    | Some f => (Return f, s, [])
    | None => (Panic NilDereference, s, [])
    end.

(** [p.Value = v] *)
Definition store_Value (p : loc) (v : string) : M W unit :=
  fun s =>
    match heap s !! p with
    | Some f => (Return tt, mkState (<[p := set_Value f v]> (heap s)) (world s), [])
    | None => (Panic NilDereference, s, [])
    end.

(** The value of an item as JSON encoding sees it. *)
Definition snapshot (h : gmap loc ItemField) (it : Item) : ItemData :=
  {| Data_ID := Item_ID it; Data_Title := Item_Title it;
     Data_Category := Item_Category it; Data_Vault_ID := Item_Vault_ID it;
     Data_Fields := (fun p => h !! p) <$> Item_Fields it |}.

(** *** [onepassword.Item.GetValue] of the Connect SDK

    Library code the program calls: for a name without a section qualifier
    (no dot, as in ["password"]) it returns the [Value] of the first field
    whose [Label] equals the name, and the empty string when there is
    none. *)
Fixpoint GetValue_fields (h : gmap loc ItemField) (fs : list loc)
    (fieldLabel : string) : Outcome string :=
  match fs with
  | [] => Return EmptyString
  | p :: fs' =>
      match h !! p with
      | None => Panic NilDereference
      | Some f =>
          if String.eqb fieldLabel (Field_Label f) then Return (Field_Value f)
          else GetValue_fields h fs' fieldLabel
      end
  end.

Definition GetValue (it : Item) (field : string) : M W string :=
  fun s => (GetValue_fields (heap s) (Item_Fields it) field, s, []).

(** *** [CreateOnPassEntryFromLapsEntry] *)

(** The [onepassword.Item] literal of the create path, with the values the
    environment supplied: the three UUIDs, [LAPS_USERNAME] and the time. *)
Definition new_item (lapsEntry : LapsEntry) (vaultID id id0 username id1 now : string)
    : ItemData :=
  {| Data_ID := id;
     Data_Category := "LOGIN";
     Data_Title := dnshostname lapsEntry;
     Data_Vault_ID := vaultID;
     Data_Fields :=
       [ Some {| Field_ID := id0; Field_Type := "STRING";
                 Field_Purpose := "USERNAME"; Field_Label := "Username";
                 Field_Value := username |};
         Some {| Field_ID := id1; Field_Type := "STRING";
                 Field_Purpose := "PASSWORD"; Field_Label := "Password";
                 Field_Value := password lapsEntry |};
         Some {| Field_ID := "notesPlain"; Field_Type := "STRING";
                 Field_Purpose := "NOTES"; Field_Label := "notesPlain";
                 Field_Value :=
                   String.append "Created by laps2onepassword on " now |} ] |}.

Definition CreateOnPassEntryFromLapsEntry (lapsEntry : LapsEntry) : M W error :=
  err <- peek NewClientFromEnvironment ;;
  match err with
  | Some _ => ret err
  | None =>
      title <- peek (Getenv "OP_VAULT_TITLE") ;;
      r <- ask (GetVaultsByTitle title) ;;
      let '(vaults, err) := r in
      emit (ReqGetVaultsByTitle title vaults err) ;;;
      match err with
      | Some _ => ret err
      | None =>
          if Nat.eqb (length vaults) 0 then ret err
          else if Nat.ltb 1 (length vaults) then ret err
          else
            vault <- index vaults 0 ;;
            id <- ask uuid_New ;;
            id0 <- ask uuid_New ;;
            username <- peek (Getenv "LAPS_USERNAME") ;;
            id1 <- ask uuid_New ;;
            now <- ask time_Now ;;
            let opitem := new_item lapsEntry (Vault_ID vault) id id0 username id1 now in
            err <- ask (CreateItem opitem (Vault_ID vault)) ;;
            emit (ReqCreateItem opitem (Vault_ID vault) err) ;;;
            match err with
            | Some _ => ret err
            | None => ret None
            end
      end
  end.

(** *** [UpdateOnPassEntry]

    [onepassentry] is passed by value, but its [Fields] still point to the
    field objects of the caller's entry: the two assignments write through
    to them.  The result of [client.UpdateItem] is dropped; the [err] that
    is tested afterwards is the one [NewClientFromEnvironment] returned. *)

Definition UpdateOnPassEntry (onepassentry : Item) (lapsEntry : LapsEntry) : M W error :=
  err <- peek NewClientFromEnvironment ;;
  match err with
  | Some _ => ret err
  | None =>
      p1 <- index (Item_Fields onepassentry) 1 ;;
      f1 <- load p1 ;;
      (if String.eqb (Field_Purpose f1) "PASSWORD"
       then store_Value p1 (password lapsEntry)
       else panic (LogPanic (String.append
              "UpdateOnPassEntry: Fields[1] purpose is not PASSWORD on "
              (Item_Title onepassentry)))) ;;;
      p2 <- index (Item_Fields onepassentry) 2 ;;
      f2 <- load p2 ;;
      (if String.eqb (Field_Purpose f2) "NOTES"
       then now <- ask time_Now ;;
            store_Value p2 (String.append "Updated by laps2onepassword on " now)
       else panic (LogPanic (String.append
              "UpdateOnPassEntry: Fields[2] purpose is not NOTES on "
              (Item_Title onepassentry)))) ;;;
      sent <- (fun s => (Return (snapshot (heap s) onepassentry), s, [])) ;;
      dropped <- ask (UpdateItem sent (Item_Vault_ID onepassentry)) ;;
      emit (ReqUpdateItem sent (Item_Vault_ID onepassentry) dropped) ;;;
      match err with
      | Some _ => ret err
      | None => ret None
      end
  end.

(** *** [CompareLapsToOnepass] *)

(** The inner loop: the index of the first entry whose [Title] equals the
    host name ([lapsentry_found] with [cur_op_idx] at the [break]), or
    [None] when the loop runs to its end; [j] is the index of the head of
    [entries]. *)
Fixpoint find_title (host : string) (entries : list Item) (j : nat) : option nat :=
  match entries with
  | [] => None
  | e :: rest =>
      if String.eqb host (Item_Title e) then Some j
      else find_title host rest (S j)
  end.

(** The body of the outer loop for the record at index [i]; the result is
    the error the pass returns with, if any.  The counters
    [_created_total] and [_updated_total] are only logged and are left
    out. *)
Definition compare_body (onepassentries : list Item) (i : nat)
    (lapsentry : LapsEntry) : M W error :=
  match find_title (dnshostname lapsentry) onepassentries 0 with
  | Some cur_op_idx =>
      entry <- index onepassentries cur_op_idx ;;
      stored <- GetValue entry "password" ;;
      if negb (String.eqb (password lapsentry) stored) then
        emit (CallUpdate cur_op_idx i) ;;;
        UpdateOnPassEntry entry lapsentry
      else ret None
  | None =>
      emit (CallCreate i) ;;;
      CreateOnPassEntryFromLapsEntry lapsentry
  end.

(** The outer loop over [lapsentries], from index [i] on. *)
Fixpoint compare_loop (onepassentries : list Item) (lapsentries : list LapsEntry)
    (i : nat) : M W error :=
  match lapsentries with
  | [] => ret None
  | lapsentry :: rest =>
      err <- compare_body onepassentries i lapsentry ;;
      match err with
      | Some _ => ret err
      | None => compare_loop onepassentries rest (S i)
      end
  end.

Definition CompareLapsToOnepass (lapsentries : list LapsEntry)
    (onepassentries : list Item) : M W error :=
  compare_loop onepassentries lapsentries 0.

(** *** [GetOnePassEntries] *)

(** JSON decoding of the fields of an item: every object gets a fresh
    address, a [null] becomes the nil pointer. *)
Fixpoint decode_fields (fs : list (option ItemField)) : M W (list loc) :=
  match fs with
  | [] => ret []
  | None :: rest =>
      ps <- decode_fields rest ;;
      ret (nil_loc :: ps)
  | Some f :: rest =>
      p <- (fun s =>
              let p := fresh ({[nil_loc]} ∪ dom (heap s)) in
              (Return p, mkState (<[p := f]> (heap s)) (world s), [])) ;;
      ps <- decode_fields rest ;;
      ret (p :: ps)
  end.

Definition decode_item (d : ItemData) : M W Item :=
  ps <- decode_fields (Data_Fields d) ;;
  ret {| Item_ID := Data_ID d; Item_Title := Data_Title d;
         Item_Category := Data_Category d; Item_Vault_ID := Data_Vault_ID d;
         Item_Fields := ps |}.

(** [for index, opListItem := range opListItems], with [opFullItems] as
    accumulator. *)
Fixpoint get_full_items (opListItems : list ItemData) (opFullItems : list Item)
    : M W (list Item * error) :=
  match opListItems with
  | [] => ret (opFullItems, None)
  | opListItem :: rest =>
      emit (ReqGetItem (Data_ID opListItem) (Data_Vault_ID opListItem)) ;;;
      r <- ask (GetItem (Data_ID opListItem) (Data_Vault_ID opListItem)) ;;
      let '(opFullItem, err) := r in
      match err with
      | Some _ => ret ([], err)
      | None =>
          it <- decode_item opFullItem ;;
          get_full_items rest (opFullItems ++ [it])
      end
  end.

Definition GetOnePassEntries : M W (list Item * error) :=
  err <- peek NewClientFromEnvironment ;;
  match err with
  | Some _ => ret ([], err)
  | None =>
      title <- peek (Getenv "OP_VAULT_TITLE") ;;
      r <- ask (GetVaultsByTitle title) ;;
      let '(vaults, err) := r in
      emit (ReqGetVaultsByTitle title vaults err) ;;;
      match err with
      | Some _ => ret ([], err)
      | None =>
          if Nat.eqb (length vaults) 0 then
            title <- peek (Getenv "OP_VAULT_TITLE") ;;
            ret ([], Some (String.append "vault " (String.append title " not found")))
          else if Nat.ltb 1 (length vaults) then
            title <- peek (Getenv "OP_VAULT_TITLE") ;;
            ret ([], Some (String.append "fault "
                             (String.append title " found more than once")))
          else
            vault <- index vaults 0 ;;
            emit (ReqGetItems (Vault_ID vault)) ;;;
            r <- ask (GetItems (Vault_ID vault)) ;;
            let '(opListItems, err) := r in
            match err with
            | Some _ => ret ([], err)
            | None => get_full_items opListItems []
            end
      end
  end.

End Program.

(** ** Reading a trace *)

(** The record index an applier call is for. *)
Definition action_record (e : Event) : option nat :=
  match e with
  | CallCreate i => Some i
  | CallUpdate _ i => Some i
  | _ => None
  end.

(** The create and update actions of a trace, in order. *)
Definition actions (tr : list Event) : list Event :=
  filter (fun e => is_Some (action_record e)) tr.

(** The actions performed for the record at index [i]. *)
Definition actions_for (i : nat) (tr : list Event) : list Event :=
  filter (fun e => action_record e = Some i) tr.

(** The record indices of the actions, in the order of the trace. *)
Definition action_indices (tr : list Event) : list nat :=
  omap action_record tr.

Definition is_write (e : Event) : bool :=
  match e with
  | ReqCreateItem _ _ _ | ReqUpdateItem _ _ _ => true
  | _ => false
  end.

(** The write requests sent to the server. *)
Definition writes (tr : list Event) : list Event := filter (fun e => is_write e = true) tr.

(** ** Reading the heap *)

(** Two field objects that differ at most in their [Value]. *)
Definition same_but_Value (f f' : ItemField) : Prop :=
  Field_ID f' = Field_ID f /\ Field_Type f' = Field_Type f
  /\ Field_Purpose f' = Field_Purpose f /\ Field_Label f' = Field_Label f.

(** From [h] to [h'] no field object appears or disappears, the objects
    at the addresses in [L] change at most their [Value], and every other
    object is the same. *)
Definition changed_only (L : loc -> Prop) (h h' : gmap loc ItemField) : Prop :=
  forall p,
    h' !! p = h !! p
    \/ (L p /\ exists f f', h !! p = Some f /\ h' !! p = Some f'
                            /\ same_but_Value f f').

(** The addresses an update action of the trace writes to: the fields at
    index 1 and 2 of the entry the action is for. *)
Definition touched (entries : list Item) (tr : list Event) (p : loc) : Prop :=
  exists j i entry,
    CallUpdate j i ∈ tr /\ entries !! j = Some entry
    /\ (Item_Fields entry !! 1 = Some p \/ Item_Fields entry !! 2 = Some p).

(** The items the server stored during a run: the create requests it
    answered without error. *)
Definition created (tr : list Event) : list ItemData :=
  omap (fun e => match e with
                 | ReqCreateItem item _ None => Some item
                 | _ => None
                 end) tr.

(** The vault after a pass over [entries] that left the heap [h'] and the
    trace [tr]: the entries with the values their field objects hold now
    (an updated entry carries the new password), followed by the items
    created, with the fields the create path gave them. *)
Definition vault_after (entries : list Item) (h' : gmap loc ItemField)
    (tr : list Event) : list ItemData :=
  (snapshot h' <$> entries) ++ created tr.

(** A vault lookup that found exactly one vault. *)
Definition lookup_found_one (e : Event) : Prop :=
  match e with
  | ReqGetVaultsByTitle _ vaults _ => length vaults = 1
  | _ => True
  end.

(** The layout under which the value [GetValue("password")] reads is the
    one [UpdateOnPassEntry] writes: the field at index 1 is the first
    field labelled ["password"]. *)
Definition password_at_1 (h : gmap loc ItemField) (entry : Item) : Prop :=
  exists p0 f0 p1 f1,
    Item_Fields entry !! 0 = Some p0 /\ h !! p0 = Some f0
    /\ Field_Label f0 <> "password"
    /\ Item_Fields entry !! 1 = Some p1 /\ h !! p1 = Some f1
    /\ Field_Label f1 = "password".

(** ** A scripted environment for concrete runs

    A Connect server with the items of one vault: it answers the vault
    lookup with [sw_vaults], and item creation and item update with the
    next error of its script ([nil] once the script is used up); a write
    it accepts changes [sw_items].  UUIDs come from a supply. *)
Record ScriptedWorld : Type := mkScripted {
  sw_client : error;
  sw_vaults : list Vault * error;
  sw_items : list ItemData;
  sw_create : list error;
  sw_update : list error;
  sw_uuids : list string }.

Definition pop_answer (script : list error) : error * list error :=
  match script with
  | [] => (None, [])
  | a :: rest => (a, rest)
  end.

#[global] Instance ScriptedConnect : Connect ScriptedWorld := {|
  Getenv := fun key w =>
    if String.eqb key "OP_VAULT_TITLE" then "LAPS"
    else if String.eqb key "LAPS_USERNAME" then "Administrator"
    else EmptyString;
  NewClientFromEnvironment := sw_client;
  GetVaultsByTitle := fun title w => (sw_vaults w, w);
  GetItems := fun vault w => ((sw_items w, None), w);
  GetItem := fun id vault w =>
    match filter (fun d => Data_ID d = id) (sw_items w) with
    | d :: _ => ((d, None), w)
    | [] => ((mkItemData id EmptyString EmptyString vault [], Some "404 item not found"), w)
    end;
  CreateItem := fun item vault w =>
    let '(a, rest) := pop_answer (sw_create w) in
    (a, mkScripted (sw_client w) (sw_vaults w)
          (match a with None => sw_items w ++ [item] | Some _ => sw_items w end)
          rest (sw_update w) (sw_uuids w));
  UpdateItem := fun item vault w =>
    let '(a, rest) := pop_answer (sw_update w) in
    (a, mkScripted (sw_client w) (sw_vaults w)
          (match a with
           | None => (fun d => if String.eqb (Data_ID d) (Data_ID item)
                               then item else d) <$> sw_items w
           | Some _ => sw_items w
           end)
          (sw_create w) rest (sw_uuids w));
  uuid_New := fun w =>
    match sw_uuids w with
    | [] => ("6ba7b810-9dad-41d1-80b4-00c04fd430c8", w)
    | u :: rest =>
        (u, mkScripted (sw_client w) (sw_vaults w) (sw_items w) (sw_create w)
              (sw_update w) rest)
    end;
  time_Now := fun w => ("2024-05-01 10:00:00 +0000 UTC", w) |}.

(** One vault with the configured title, and a server that accepts every
    write. *)
Definition one_vault : list Vault * error := ([mkVault "v1" "LAPS"], None).

Definition healthy : ScriptedWorld :=
  mkScripted None one_vault [] [] [] [].

(** A field object by purpose, label and value. *)
Definition field (purpose label value : string) : ItemField :=
  {| Field_ID := label; Field_Type := "STRING"; Field_Purpose := purpose;
     Field_Label := label; Field_Value := value |}.

(** A record with the given host name and password. *)
Definition laps (host pw : string) : LapsEntry :=
  {| name := host; dnshostname := host; password := pw;
     expiration := epoch1601 |}.

Definition pc01 : LapsEntry := laps "PC01.domain" "abc".
Definition pc02 : LapsEntry := laps "PC02.domain" "def".

(** A vault item for a host with its three field objects at the addresses
    [p], [p + 1] and [p + 2]. *)
Definition login_item (host : string) (p : loc) : Item :=
  {| Item_ID := String.append "item-" host; Item_Title := host;
     Item_Category := "LOGIN"; Item_Vault_ID := "v1";
     Item_Fields := [p; S p; S (S p)] |}.

(** The field objects of a login item as the 1Password applications lay
    them out, with the stored password [pw]. *)
Definition login_fields (p : loc) (pw : string) (h : gmap loc ItemField)
    : gmap loc ItemField :=
  <[p := field "USERNAME" "username" "Administrator"]>
    (<[S p := field "PASSWORD" "password" pw]>
       (<[S (S p) := field "NOTES" "notesPlain" EmptyString]> h)).

(** A server that refuses the first item creation, one that refuses the
    first item update, and two whose vault lookup finds no vault or two. *)
Definition create_fails : ScriptedWorld :=
  mkScripted None one_vault [] [Some "503 Service Unavailable"] [] [].
Definition update_fails : ScriptedWorld :=
  mkScripted None one_vault [] [] [Some "503 Service Unavailable"] [].
Definition no_vault : ScriptedWorld :=
  mkScripted None ([], None) [] [] [] [].
Definition two_vaults : ScriptedWorld :=
  mkScripted None ([mkVault "v1" "LAPS"; mkVault "v2" "LAPS"], None) [] [] [] [].

(** A login item as the vault holds it, with the field labels of the
    1Password applications and the stored password [pw]. *)
Definition login_data (host pw : string) : ItemData :=
  {| Data_ID := String.append "item-" host; Data_Title := host;
     Data_Category := "LOGIN"; Data_Vault_ID := "v1";
     Data_Fields := [ Some (field "USERNAME" "username" "Administrator");
                      Some (field "PASSWORD" "password" pw);
                      Some (field "NOTES" "notesPlain" EmptyString) ] |}.

(** A server with the given items in its vault and a supply of UUIDs. *)
Definition vault_with (items : list ItemData) : ScriptedWorld :=
  mkScripted None one_vault items [] []
    [ "0b0ea5a4-0001-4c6a-9a51-3f1d6e1f0a01"; "0b0ea5a4-0002-4c6a-9a51-3f1d6e1f0a02";
      "0b0ea5a4-0003-4c6a-9a51-3f1d6e1f0a03"; "0b0ea5a4-0004-4c6a-9a51-3f1d6e1f0a04";
      "0b0ea5a4-0005-4c6a-9a51-3f1d6e1f0a05"; "0b0ea5a4-0006-4c6a-9a51-3f1d6e1f0a06" ].

(** A run of the program from the vault read on, in a fresh process: the
    entries [GetOnePassEntries] returns and the state it leaves, and the
    pass over them. *)
Definition read_vault (w : ScriptedWorld)
    : Outcome (list Item * error) * State ScriptedWorld * list Event :=
  GetOnePassEntries (mkState ∅ w).

Definition entries_read (w : ScriptedWorld) : list Item :=
  match outcome_of (read_vault w) with
  | Return (items, _) => items
  | Panic _ => []
  end.

Definition pass_on (records : list LapsEntry) (w : ScriptedWorld)
    : Outcome error * State ScriptedWorld * list Event :=
  CompareLapsToOnepass records (entries_read w) (state_of (read_vault w)).

(** Two hosts, one with an item in the vault and another password now,
    one without an item; and one host twice, with two passwords. *)
Definition two_hosts : list LapsEntry := [laps "PC01.domain" "new"; pc02].
Definition one_item : ScriptedWorld := vault_with [login_data "PC01.domain" "old"].
Definition same_host_twice : list LapsEntry :=
  [laps "PC01.domain" "abc"; laps "PC01.domain" "xyz"].

(** A vault with an item for PC02.domain and two items titled
    PC01.domain, each with its own field objects, and two records: the
    password of PC02.domain is the stored one, that of PC01.domain is
    new. *)
Definition three_entries : list Item :=
  [login_item "PC02.domain" 1; login_item "PC01.domain" 4; login_item "PC01.domain" 7].
Definition three_entries_heap : gmap loc ItemField :=
  login_fields 1 "def" (login_fields 4 "old" (login_fields 7 "older" ∅)).
Definition settled_then_new : list LapsEntry := [pc02; laps "PC01.domain" "new"].

(** The server as a run of the pass leaves it. *)
Definition vault_left (records : list LapsEntry) (w : ScriptedWorld) : ScriptedWorld :=
  world (state_of (pass_on records w)).

(** The answer of the server to a write request. *)
Definition write_answer (e : Event) : option error :=
  match e with
  | ReqCreateItem _ _ err | ReqUpdateItem _ _ err => Some err
  | _ => None
  end.

(** ** The rest of the process: environment check, directory read, [main] *)

(** *** [strconv.ParseInt(s, 10, 64)] of the Go standard library

    Library code the program calls: an optional sign, then decimal digits
    read by [ParseUint] into a [uint64]; anything else is a syntax error,
    a value outside [int64] a range error. *)
Inductive NumError : Type := ErrSyntax | ErrRange.

Definition maxUint64 : Z := (2 ^ 64 - 1)%Z.

(** [c - '0'] for ['0' <= c <= '9']. *)
Definition digit_of (c : Ascii.ascii) : option Z :=
  let n := Ascii.nat_of_ascii c in
  if Nat.leb 48 n && Nat.leb n 57 then Some (Z.of_nat (n - 48)) else None.

(** The loop of [ParseUint] over the bytes of [s], with [n] so far. *)
Fixpoint ParseUint_loop (s : string) (n : Z) : Z * option NumError :=
  match s with
  | EmptyString => (n, None)
  | String c rest =>
      match digit_of c with
      | None => (0%Z, Some ErrSyntax)
      | Some d =>
          if (maxUint64 / 10 + 1 <=? n)%Z then (maxUint64, Some ErrRange)
          else
            let n := (n * 10)%Z in
            let n1 := ((n + d) mod 2 ^ 64)%Z in
            if (n1 <? n)%Z || (maxUint64 <? n1)%Z then (maxUint64, Some ErrRange)
            else ParseUint_loop rest n1
      end
  end.

Definition ParseUint (s : string) : Z * option NumError :=
  match s with
  | EmptyString => (0%Z, Some ErrSyntax)
  | _ => ParseUint_loop s 0%Z
  end.

Definition ParseInt (s : string) : Z * option NumError :=
  match s with
  | EmptyString => (0%Z, Some ErrSyntax)
  | String c rest =>
      let '(neg, s) :=
        if Ascii.eqb c "+"%char then (false, rest)
        else if Ascii.eqb c "-"%char then (true, rest)
        else (false, s) in
      let '(un, err) := ParseUint s in
      match err with
      | Some ErrSyntax => (0%Z, err)
      | _ =>
          let cutoff := (2 ^ 63)%Z in
          if negb neg && (cutoff <=? un)%Z then ((cutoff - 1)%Z, Some ErrRange)
          else if neg && (cutoff <? un)%Z then ((- cutoff)%Z, Some ErrRange)
          else
            let n := wrap64 un in
            let n := if neg then wrap64 (- n) else n in
            (n, None)
      end
  end.

(** *** The [.env] file, [os.LookupEnv] and the directory server behind
    [ldap.Conn] *)

(** [ldap.SearchRequest], as [ldap.NewSearchRequest] fills it; the list of
    controls is always empty. *)
Record SearchRequest : Type := mkSearchRequest {
  BaseDN : string;
  Scope : nat;
  DerefAliases : nat;
  SizeLimit : nat;
  TimeLimit : nat;
  TypesOnly : bool;
  Filter : string;
  Attributes : list string }.

Definition ScopeWholeSubtree : nat := 2.

Class Directory (W : Type) : Type := {
  (** [godotenv.Load] *)
  godotenv_Load : W -> error * W;
  (** [os.LookupEnv] *)
  LookupEnv : string -> W -> option string;
  (** [*ldap.Conn] and [*ldap.Entry] *)
  ldap_Conn : Type;
  ldap_Entry : Type;
  ldap_DialURL : string -> W -> (ldap_Conn * error) * W;
  ldap_Bind : ldap_Conn -> string -> string -> W -> error * W;
  ldap_Search : ldap_Conn -> SearchRequest -> W -> (list ldap_Entry * error) * W;
  ldap_Close : ldap_Conn -> W -> W;
  (** [entry.GetAttributeValue(attribute)] *)
  GetAttributeValue : ldap_Entry -> string -> string }.

(** How [GetAndCheckEnvironment] ends: it returns, or the slice expression
    [op_connect_token[0:9]] panics with "slice bounds out of range". *)
Inductive Checked : Type :=
| CheckReturn (err : error)
| CheckSliceBounds (high len : nat).

(** How the process ends: [os.Exit(code)], a panic of [log.Panic] or of
    the reconciliation, or the slice panic of the environment check. *)
Inductive Ending : Type :=
| Exited (code : nat)
| Panicked (p : PanicKind)
| SliceBounds (high len : nat).

Section Process.

Context {W : Type} `{Connect W} `{Directory W}.

(** *** [GetAndCheckEnvironment]

    The log calls are left out, but not the evaluation of their
    arguments: [op_connect_token[0:9]] is computed whenever the token is
    set and not empty. *)
Definition GetAndCheckEnvironment (w : W) : Checked * W :=
  let errorcount := 0 in
  let '(err, w) := godotenv_Load w in
  match err with
  | Some _ => (CheckReturn err, w)
  | None =>
      let op_connect_host := LookupEnv "OP_CONNECT_HOST" w in
      let op_connect_token := LookupEnv "OP_CONNECT_TOKEN" w in
      let op_vault_title := LookupEnv "OP_VAULT_TITLE" w in
      let errorcount :=
        match op_connect_host with
        | None => S errorcount
        | Some v => if String.eqb v EmptyString then S errorcount else errorcount
        end in
      let sliced :=
        match op_connect_token with
        | None => Some (S errorcount)
        | Some v =>
            if String.eqb v EmptyString then Some (S errorcount)
            else if Nat.leb 9 (String.length v) then Some errorcount
            else None
        end in
      match sliced with
      | None =>
          (CheckSliceBounds 9 (String.length (default EmptyString op_connect_token)), w)
      | Some errorcount =>
          let errorcount :=
            match op_vault_title with
            | None => S errorcount
            | Some v => if String.eqb v EmptyString then S errorcount else errorcount
            end in
          if Nat.eqb errorcount 0 then (CheckReturn None, w)
          else
            (CheckReturn
               (Some "GetAndCheckEnvironment: Missing required environment variables, see previous errors"),
             w)
      end
  end.

(** *** [GetLapsEntries] *)

(** The [LapsEntry] literal the loop appends for [entry]. *)
Definition laps_of_entry (entry : ldap_Entry) : LapsEntry :=
  let s := GetAttributeValue entry "ms-Mcs-AdmPwdExpirationTime" in
  let '(expirationtime, err) := ParseInt s in
  let expirationtime :=
    match err with
    | Some _ => 0%Z
    | None => expirationtime
    end in
  {| name := GetAttributeValue entry "name";
     dnshostname := GetAttributeValue entry "dNSHostName";
     password := GetAttributeValue entry "ms-Mcs-AdmPwd";
     expiration := getTimeFromFiletime expirationtime |}.

(** [for index, entry := range result.Entries], with [lapsentries] as
    accumulator. *)
Fixpoint collect_entries (entries : list ldap_Entry) (lapsentries : list LapsEntry)
    : list LapsEntry :=
  match entries with
  | [] => lapsentries
  | entry :: rest => collect_entries rest (lapsentries ++ [laps_of_entry entry])
  end.

(** [defer ldapCON.Close()] runs at every return after the dial. *)
Definition close (ldapCON : ldap_Conn) : M W unit :=
  fun s => (Return tt, mkState (heap s) (ldap_Close ldapCON (world s)), []).

Definition GetLapsEntries : M W (list LapsEntry * error) :=
  let lapsentries := [] in
  ldapURL <- peek (Getenv "LDAP_URL") ;;
  r <- ask (ldap_DialURL ldapURL) ;;
  let '(ldapCON, err) := r in
  match err with
  | Some _ => ret (lapsentries, err)
  | None =>
      cn <- peek (Getenv "LDAP_AUTH_CN") ;;
      pw <- peek (Getenv "LDAP_AUTH_PW") ;;
      err <- ask (ldap_Bind ldapCON cn pw) ;;
      match err with
      | Some _ => close ldapCON ;;; ret (lapsentries, err)
      | None =>
          basedn <- peek (Getenv "LDAP_SEARCH_BASEDN") ;;
          filter <- peek (Getenv "LDAP_SEARCH_FILTER") ;;
          let searchReq :=
            {| BaseDN := basedn; Scope := ScopeWholeSubtree; DerefAliases := 0;
               SizeLimit := 0; TimeLimit := 0; TypesOnly := false;
               Filter := filter;
               Attributes := ["name"; "ms-Mcs-AdmPwd";
                              "ms-Mcs-AdmPwdExpirationTime"; "dNSHostName"] |} in
          r <- ask (ldap_Search ldapCON searchReq) ;;
          let '(result, err) := r in
          match err with
          | Some _ => close ldapCON ;;; ret (lapsentries, err)
          | None =>
              let lapsentries := collect_entries result lapsentries in
              close ldapCON ;;; ret (lapsentries, err)
          end
      end
  end.

(** *** [main]

    The process starts with an empty heap.  [log.Panic(err)] panics with
    the text of the error. *)
Definition main (w : W) : Ending * State W * list Event :=
  match GetAndCheckEnvironment w with
  | (CheckSliceBounds high len, w) => (SliceBounds high len, mkState ∅ w, [])
  | (CheckReturn (Some e), w) => (Panicked (LogPanic e), mkState ∅ w, [])
  | (CheckReturn None, w) =>
      match GetLapsEntries (mkState ∅ w) with
      | (Panic p, s, tr) => (Panicked p, s, tr)
      | (Return (lapsentries, Some e), s, tr) => (Panicked (LogPanic e), s, tr)
      | (Return (lapsentries, None), s, tr) =>
          if Nat.ltb (length lapsentries) 1 then
            (Panicked (LogPanic "No entries returned from ldap"), s, tr)
          else
            match GetOnePassEntries s with
            | (Panic p, s1, tr1) => (Panicked p, s1, tr ++ tr1)
            | (Return (onepassentries, Some e), s1, tr1) =>
                (Panicked (LogPanic e), s1, tr ++ tr1)
            | (Return (onepassentries, None), s1, tr1) =>
                match CompareLapsToOnepass lapsentries onepassentries s1 with
                | (Panic p, s2, tr2) => (Panicked p, s2, tr ++ tr1 ++ tr2)
                | (Return (Some _), s2, tr2) => (Exited 1, s2, tr ++ tr1 ++ tr2)
                | (Return None, s2, tr2) => (Exited 0, s2, tr ++ tr1 ++ tr2)
                end
            end
      end
  end.

End Process.

(** ** A scripted site for concrete runs of the whole process

    The environment as a list of variables, the answers of the [.env]
    loader and of the directory server, and the Connect server of
    [ScriptedWorld]; a directory entry is its list of attributes. *)
Record Site : Type := mkSite {
  site_dotenv : error;
  site_env : list (string * string);
  site_dial : error;
  site_bind : error;
  site_search : list (list (string * string)) * error;
  site_closed : nat;
  site_vault : ScriptedWorld }.

Fixpoint assoc (key : string) (l : list (string * string)) : option string :=
  match l with
  | [] => None
  | (k, v) :: rest => if String.eqb k key then Some v else assoc key rest
  end.

Definition with_vault (w : Site) (v : ScriptedWorld) : Site :=
  mkSite (site_dotenv w) (site_env w) (site_dial w) (site_bind w) (site_search w)
    (site_closed w) v.

#[global] Instance SiteConnect : Connect Site := {|
  Getenv := fun key w => default EmptyString (assoc key (site_env w));
  NewClientFromEnvironment := fun w => NewClientFromEnvironment (site_vault w);
  GetVaultsByTitle := fun title w =>
    let '(a, v) := GetVaultsByTitle title (site_vault w) in (a, with_vault w v);
  GetItems := fun vault w =>
    let '(a, v) := GetItems vault (site_vault w) in (a, with_vault w v);
  GetItem := fun id vault w =>
    let '(a, v) := GetItem id vault (site_vault w) in (a, with_vault w v);
  CreateItem := fun item vault w =>
    let '(a, v) := CreateItem item vault (site_vault w) in (a, with_vault w v);
  UpdateItem := fun item vault w =>
    let '(a, v) := UpdateItem item vault (site_vault w) in (a, with_vault w v);
  uuid_New := fun w =>
    let '(a, v) := uuid_New (site_vault w) in (a, with_vault w v);
  time_Now := fun w =>
    let '(a, v) := time_Now (site_vault w) in (a, with_vault w v) |}.

#[global] Instance SiteDirectory : Directory Site := {|
  godotenv_Load := fun w => (site_dotenv w, w);
  LookupEnv := fun key w => assoc key (site_env w);
  ldap_Conn := unit;
  ldap_Entry := list (string * string);
  ldap_DialURL := fun url w => ((tt, site_dial w), w);
  ldap_Bind := fun conn cn pw w => (site_bind w, w);
  ldap_Search := fun conn req w => (site_search w, w);
  ldap_Close := fun conn w =>
    mkSite (site_dotenv w) (site_env w) (site_dial w) (site_bind w) (site_search w)
      (S (site_closed w)) (site_vault w);
  GetAttributeValue := fun entry attribute =>
    default EmptyString (assoc attribute entry) |}.

(** A directory entry of a computer with its LAPS attributes. *)
Definition computer (host pw expires : string) : list (string * string) :=
  [("name", host); ("dNSHostName", host); ("ms-Mcs-AdmPwd", pw);
   ("ms-Mcs-AdmPwdExpirationTime", expires)].

(** A complete environment, and a site where every server answers. *)
Definition full_env : list (string * string) :=
  [("OP_CONNECT_HOST", "http://localhost:8080");
   ("OP_CONNECT_TOKEN", "eyJhbGciOiJFUzI1NiIsImtpZCI6");
   ("OP_VAULT_TITLE", "LAPS"); ("LAPS_USERNAME", "Administrator");
   ("LDAP_URL", "ldaps://dc01.domain:636")].

Definition site (env : list (string * string))
    (entries : list (list (string * string))) (v : ScriptedWorld) : Site :=
  mkSite None env None None (entries, None) 0 v.

(** ** Further readers of runs, heaps and records *)

(** The field objects behind a list of pointers: all pointers but nil. *)
Definition objects (ps : list loc) : list loc :=
  filter (fun p => p <> nil_loc) ps.

(** The pointer [p] stands for the field [o] of the data. *)
Definition points_to (h : gmap loc ItemField) (p : loc) (o : option ItemField) : Prop :=
  match o with
  | None => p = nil_loc
  | Some f => p <> nil_loc /\ h !! p = Some f
  end.

(** The item [it] holds the data [d] on the heap [h]. *)
Definition holds (h : gmap loc ItemField) (it : Item) (d : ItemData) : Prop :=
  Item_ID it = Data_ID d /\ Item_Title it = Data_Title d
  /\ Item_Category it = Data_Category d /\ Item_Vault_ID it = Data_Vault_ID d
  /\ Forall2 (points_to h) (Item_Fields it) (Data_Fields d).

(** The request for the full item of a list item. *)
Definition request_for (opListItem : ItemData) : Event :=
  ReqGetItem (Data_ID opListItem) (Data_Vault_ID opListItem).

(** An item that holds record [r] the way the create path lays it out. *)
Definition item_for (r : LapsEntry) (item : ItemData) : Prop :=
  Data_Title item = dnshostname r /\ Data_Category item = "LOGIN"
  /\ length (Data_Fields item) = 3
  /\ exists f, Data_Fields item !! 1 = Some (Some f)
               /\ Field_Purpose f = "PASSWORD" /\ Field_Value f = password r.

(** A request that was not refused: a vault lookup or an item creation
    answered without error. *)
Definition not_failed (e : Event) : Prop :=
  match e with
  | ReqGetVaultsByTitle _ _ err | ReqCreateItem _ _ err => err = None
  | _ => True
  end.

(** The string of the decimal digits [ds], most significant first, and
    the number it denotes. *)
Definition digit_char (d : Z) : ascii := ascii_of_nat (48 + Z.to_nat d).

Fixpoint decimal (ds : list Z) : string :=
  match ds with
  | [] => EmptyString
  | d :: rest => String (digit_char d) (decimal rest)
  end.

Definition value_from (n : Z) (ds : list Z) : Z :=
  fold_left (fun a d => (a * 10 + d)%Z) ds n.

Definition is_digit (d : Z) : Prop := (0 <= d <= 9)%Z.

Section Readers.

Context {W : Type} `{Connect W} `{Directory W}.

(** Where an error of one iteration comes from. *)
Definition error_origin (e : string) (s' : State W) (tr : list Event) : Prop :=
  NewClientFromEnvironment (world s') = Some e
  \/ (exists title vaults, last tr = Some (ReqGetVaultsByTitle title vaults (Some e)))
  \/ (exists item vault, last tr = Some (ReqCreateItem item vault (Some e))).

(** The full items the server answers the requests of the loop with, up
    to its first error. *)
Fixpoint fetched (opListItems : list ItemData) (w : W) : list ItemData :=
  match opListItems with
  | [] => []
  | opListItem :: rest =>
      let '((opFullItem, err), w1) :=
        GetItem (Data_ID opListItem) (Data_Vault_ID opListItem) w in
      match err with
      | Some _ => []
      | None => opFullItem :: fetched rest w1
      end
  end.

(** The record the loop builds for a directory entry. *)
Definition record_of (entry : ldap_Entry) (r : LapsEntry) : Prop :=
  name r = GetAttributeValue entry "name"
  /\ dnshostname r = GetAttributeValue entry "dNSHostName"
  /\ password r = GetAttributeValue entry "ms-Mcs-AdmPwd"
  /\ (exists n, in_int64 n /\ expiration r = getTimeFromFiletime n)
  /\ (GetAttributeValue entry "ms-Mcs-AdmPwdExpirationTime" = EmptyString ->
      expiration r = epoch1601).

End Readers.

(** A process whose environment gives no Connect client, and the record of
    [pc01] under another name and with another expiration time. *)
Definition no_client : ScriptedWorld :=
  mkScripted (Some "OP_CONNECT_HOST, OP_CONNECT_TOKEN must be set") one_vault [] [] [] [].

Definition pc01_renamed : LapsEntry :=
  {| name := "PC01"; dnshostname := "PC01.domain"; password := "abc";
     expiration := mkTime 0 0 |}.

(** Reading a vault with two items. *)
Definition two_items : ScriptedWorld :=
  vault_with [login_data "PC01.domain" "old"; login_data "PC02.domain" "def"].

(** A directory with one computer, and the whole process on it. *)
Definition pc01_entry : @ldap_Entry Site SiteDirectory :=
  computer "PC01.domain" "abc" "133604713540000000".

Definition one_computer : Site := site full_env [pc01_entry] (vault_with []).

(** * Properties of [getTimeFromFiletime] *)

Section Filetime.

Local Open Scope Z_scope.

Lemma maxd_val : maxd = 9223372036854775800.
Proof. reflexivity. Qed.

Lemma maxdUnits_val : maxdUnits = 92233720368547758.
Proof. reflexivity. Qed.

Lemma epoch1601_val : epoch1601 = mkTime 0 50491123200.
Proof. reflexivity. Qed.

Lemma wrap64_small (z : Z) : in_int64 z -> wrap64 z = z.
Proof.
  unfold in_int64, MinInt64, MaxInt64, wrap64. intros Hz.
  rewrite Z.mod_small; lia.
Qed.

Lemma wrap64_range (z : Z) : in_int64 (wrap64 z).
Proof.
  unfold in_int64, MinInt64, MaxInt64, wrap64.
  pose proof (Z.mod_pos_bound (z + 2 ^ 63) (2 ^ 64)). lia.
Qed.

(** Each iteration of the chunking loop strictly decreases the remaining
    input, and leaves it positive. *)
Lemma chunk_step_decreases (input : Z) :
  in_int64 input -> input > maxdUnits ->
  0 < wrap64 (input - maxdUnits) < input.
Proof.
  rewrite maxdUnits_val. unfold in_int64, MinInt64, MaxInt64. intros Hr Hgt.
  rewrite wrap64_small; [lia |].
  unfold in_int64, MinInt64, MaxInt64. lia.
Qed.

Lemma addSec_exact (t : Time) (d : Z) :
  in_int64 (ext t + d) -> addSec t d = mkTime (nsec t) (ext t + d).
Proof.
  intros Hr. unfold addSec. rewrite (wrap64_small _ Hr).
  destruct (Z.gtb_spec (ext t + d) (ext t)), (Z.gtb_spec d 0);
    simpl; try reflexivity; lia.
Qed.

(** Away from the ends of the [int64] range of seconds, [Add] is exact. *)
Lemma Add_exact (t : Time) (d : Duration) :
  normalized t -> in_int64 d -> - 2 ^ 62 <= ext t <= 2 ^ 62 ->
  instant_ns (Add t d) = instant_ns t + d /\ normalized (Add t d).
Proof.
  unfold normalized, in_int64, MinInt64, MaxInt64, instant_ns.
  intros Hn Hd He.
  pose proof (Z.quot_rem' d 1000000000) as Hqr.
  assert (Hrem : - 1000000000 < Z.rem d 1000000000 < 1000000000).
  { destruct (Z_le_gt_dec 0 d).
    - pose proof (Z.rem_bound_pos d 1000000000). lia.
    - pose proof (Z.rem_bound_pos_neg d 1000000000). lia. }
  assert (Hq : - 9223372037 <= Z.quot d 1000000000 <= 9223372037) by lia.
  unfold Add.
  destruct (Z.geb_spec (nsec t + Z.rem d 1000000000) 1000000000);
    [| destruct (Z.ltb_spec (nsec t + Z.rem d 1000000000) 0)];
    (rewrite addSec_exact;
     [simpl; lia | unfold in_int64, MinInt64, MaxInt64; simpl; lia]).
Qed.

(** The loop does not run for an input that is at most one chunk. *)
Lemma chunk_loop_skip (t : Time) (input : Z) :
  input <= maxdUnits -> chunk_loop t input = (t, input).
Proof.
  intros Hle. rewrite chunk_loop_equation_1.
  destruct (Z_gt_dec input maxdUnits) as [Hgt | Hngt]; simpl; [lia | reflexivity].
Qed.

Lemma chunk_loop_step (t : Time) (input : Z) :
  input > maxdUnits ->
  chunk_loop t input = chunk_loop (Add t maxd) (wrap64 (input - maxdUnits)).
Proof.
  intros Hgt. rewrite chunk_loop_equation_1.
  destruct (Z_gt_dec input maxdUnits) as [Hgt' | Hngt]; simpl; [reflexivity | lia].
Qed.

(** The invariant of the chunking loop: the instant plus the remaining
    ticks is preserved, whatever the number of chunks. *)
Lemma chunk_loop_exact (n : Z) :
  0 <= n ->
  forall (t : Time) (input : Z),
    input = n -> 0 <= input <= MaxInt64 ->
    normalized t -> 0 <= ext t ->
    instant_ns t + input * 100 <= 2 ^ 61 * 1000000000 ->
    let '(t', r) := chunk_loop t input in
    instant_ns t' + r * 100 = instant_ns t + input * 100
    /\ normalized t' /\ 0 <= r <= maxdUnits /\ 0 <= ext t'.
Proof.
  intros Hn. pattern n. apply Z_lt_induction; [| exact Hn].
  clear n Hn. intros n IH t input Heq Hmax Ht Hext Hbound. subst n.
  destruct (Z_gt_dec input maxdUnits) as [Hgt | Hle].
  - rewrite chunk_loop_step by exact Hgt.
    assert (Hin : in_int64 input)
      by (unfold in_int64, MinInt64; rewrite maxdUnits_val in Hgt; lia).
    pose proof (chunk_step_decreases input Hin Hgt) as Hdec.
    assert (Hw : wrap64 (input - maxdUnits) = input - maxdUnits).
    { apply wrap64_small. unfold in_int64, MinInt64, MaxInt64 in *.
      rewrite maxdUnits_val in *. lia. }
    rewrite Hw in *.
    destruct (Add_exact t maxd Ht) as [Hns Hnorm].
    { rewrite maxd_val. unfold in_int64, MinInt64, MaxInt64. lia. }
    { unfold instant_ns, normalized in *. lia. }
    pose proof maxd_val as Hmaxd.
    assert (Hconv : instant_ns (Add t maxd) + (input - maxdUnits) * 100
                    = instant_ns t + input * 100)
      by (rewrite Hns, maxdUnits_val; lia).
    assert (Hext' : 0 <= ext (Add t maxd))
      by (unfold instant_ns, normalized in *; lia).
    specialize (IH (input - maxdUnits) ltac:(lia) (Add t maxd) (input - maxdUnits)
                   eq_refl ltac:(lia) Hnorm Hext' ltac:(lia)).
    destruct (chunk_loop (Add t maxd) (input - maxdUnits)) as [t' r].
    destruct IH as (Hinv & Hn' & Hr & He).
    unfold normalized in *. lia.
  - rewrite chunk_loop_skip by lia.
    unfold normalized in *. rewrite maxdUnits_val in *. lia.
Qed.

Lemma instant_ns_inj (t u : Time) :
  normalized t -> normalized u -> instant_ns t = instant_ns u -> t = u.
Proof.
  destruct t as [tn te], u as [un ue]. unfold normalized, instant_ns. simpl.
  intros Ht Hu Heq. assert (te = ue) by lia. f_equal; lia.
Qed.

Lemma Before_lt (t u : Time) :
  normalized t -> normalized u ->
  Before t u = true <-> instant_ns t < instant_ns u.
Proof.
  unfold normalized, instant_ns, Before. intros Ht Hu.
  rewrite orb_true_iff, andb_true_iff, !Z.ltb_lt, Z.eqb_eq. lia.
Qed.

Lemma reference_decode_spec (n : Z) :
  instant_ns (reference_decode n) = instant_ns epoch1601 + n * 100
  /\ normalized (reference_decode n).
Proof.
  unfold reference_decode, instant_ns at 1, normalized. simpl nsec. simpl ext.
  set (total := instant_ns epoch1601 + n * 100).
  pose proof (Z.div_mod total 1000000000 ltac:(lia)).
  pose proof (Z.mod_pos_bound total 1000000000 ltac:(lia)). lia.
Qed.

(** The decoder on a tick count of at most one chunk in absolute value:
    one exact [Add], or none for zero. *)
Lemma getTimeFromFiletime_one_chunk (n : Z) :
  - maxdUnits <= n <= maxdUnits ->
  instant_ns (getTimeFromFiletime n) = instant_ns epoch1601 + n * 100
  /\ normalized (getTimeFromFiletime n).
Proof.
  rewrite maxdUnits_val. intros Hn. unfold getTimeFromFiletime.
  rewrite chunk_loop_skip by (rewrite maxdUnits_val; lia).
  assert (Hnorm : normalized epoch1601) by (rewrite epoch1601_val; split; simpl; lia).
  destruct (Z.eqb_spec n 0) as [-> | Hne].
  - split; [lia | exact Hnorm].
  - rewrite wrap64_small by (unfold in_int64, MinInt64, MaxInt64; lia).
    apply Add_exact; [exact Hnorm | | rewrite epoch1601_val; simpl; lia].
    unfold in_int64, MinInt64, MaxInt64; lia.
Qed.

Lemma getTimeFromFiletime_ns (n : Z) :
  0 <= n <= MaxInt64 ->
  instant_ns (getTimeFromFiletime n) = instant_ns epoch1601 + n * 100
  /\ normalized (getTimeFromFiletime n).
Proof.
  intros Hn. unfold getTimeFromFiletime.
  assert (Hnorm : normalized epoch1601) by (rewrite epoch1601_val; split; simpl; lia).
  pose proof (chunk_loop_exact n ltac:(lia) epoch1601 n eq_refl Hn Hnorm) as Hloop.
  rewrite epoch1601_val in *. unfold instant_ns at 1 in Hloop. simpl in Hloop.
  specialize (Hloop ltac:(lia) ltac:(unfold MaxInt64 in Hn; lia)).
  destruct (chunk_loop {| nsec := 0; ext := 50491123200 |} n) as [t r].
  destruct Hloop as (Hinv & Hnt & Hr & He).
  rewrite maxdUnits_val in Hr.
  destruct (Z.eqb_spec r 0) as [-> | Hne].
  - split; [lia | exact Hnt].
  - rewrite wrap64_small by (unfold in_int64, MinInt64, MaxInt64; lia).
    destruct (Add_exact t (r * 100) Hnt) as [Hadd Hnorm'].
    + unfold in_int64, MinInt64, MaxInt64; lia.
    + unfold instant_ns, normalized, MaxInt64 in *. simpl in *. lia.
    + split; [lia | exact Hnorm'].
Qed.

Lemma chunk_loop_iterations_nonneg (n : Z) :
  0 <= n ->
  forall (t : Time) (input : Z),
    input = n -> 0 <= input <= MaxInt64 ->
    exists k : nat,
      chunk_loop t input
      = (Nat.iter k (fun t => Add t maxd) t, input - Z.of_nat k * maxdUnits)
      /\ (k = 0%nat \/ Z.of_nat k * maxdUnits < input).
Proof.
  intros Hn. pattern n. apply Z_lt_induction; [| exact Hn].
  clear n Hn. intros n IH t input Heq Hin. subst n.
  destruct (Z_gt_dec input maxdUnits) as [Hgt | Hle].
  - assert (Hin64 : in_int64 input) by (unfold in_int64, MinInt64; lia).
    pose proof (chunk_step_decreases input Hin64 Hgt) as Hdec.
    assert (Hw : wrap64 (input - maxdUnits) = input - maxdUnits).
    { apply wrap64_small. unfold in_int64, MinInt64, MaxInt64 in *.
      rewrite maxdUnits_val in *. lia. }
    rewrite chunk_loop_step, Hw by exact Hgt. rewrite Hw in Hdec.
    destruct (IH (input - maxdUnits) ltac:(lia) (Add t maxd) (input - maxdUnits)
                 eq_refl ltac:(lia)) as (k & Hk & Hle).
    exists (S k). rewrite Nat.iter_succ_r, Hk. split; [f_equal; lia | lia].
  - exists 0%nat. rewrite chunk_loop_skip by lia. simpl.
    split; [f_equal; lia | left; reflexivity].
Qed.

(** The number of chunks the loop adds before it stops: at most 100 for
    an [int64] input, none for an input of at most one chunk. *)
Lemma chunk_loop_iterations (t : Time) (input : Z) :
  in_int64 input ->
  exists k : nat,
    chunk_loop t input
    = (Nat.iter k (fun t => Add t maxd) t, input - Z.of_nat k * maxdUnits)
    /\ (k <= 100)%nat /\ (input <= maxdUnits -> k = 0%nat).
Proof.
  intros Hin. destruct (Z_le_gt_dec 0 input) as [Hpos | Hneg].
  - destruct (chunk_loop_iterations_nonneg input Hpos t input eq_refl)
      as (k & Hk & Hle); [unfold in_int64 in Hin; lia |].
    exists k. split; [exact Hk |].
    rewrite maxdUnits_val in *. unfold in_int64, MaxInt64 in Hin. lia.
  - exists 0%nat. rewrite chunk_loop_skip by (rewrite maxdUnits_val; lia).
    simpl. split; [f_equal; lia | split; [lia | reflexivity]].
Qed.

(** C3. For every tick count [n >= 0] representable as [int64],
    [getTimeFromFiletime n] is the instant 1601-01-01T00:00:00 UTC plus
    exactly [n] times 100 nanoseconds as computed over unbounded integers,
    however many duration chunks the loop adds; [getTimeFromFiletime 0] is
    the 1601 epoch instant; and the function is monotonically
    non-decreasing: for [n <= m] the result at [m] is not before the result
    at [n]. *)
Theorem getTimeFromFiletime_exact_monotone (n m : Z) :
  0 <= n -> n <= m -> m <= MaxInt64 ->
  getTimeFromFiletime n = reference_decode n
  /\ getTimeFromFiletime 0 = Date 1601 1 1 0 0 0 0
  /\ Before (getTimeFromFiletime m) (getTimeFromFiletime n) = false.
Proof.
  intros Hn Hnm Hm.
  destruct (getTimeFromFiletime_ns n ltac:(lia)) as [Hns Hnorm].
  destruct (getTimeFromFiletime_ns m ltac:(lia)) as [Hms Hmorm].
  destruct (reference_decode_spec n) as [Hrs Hrnorm].
  split; [| split].
  - apply instant_ns_inj; [exact Hnorm | exact Hrnorm | lia].
  - unfold getTimeFromFiletime. rewrite chunk_loop_skip; [reflexivity |].
    rewrite maxdUnits_val. lia.
  - destruct (Before (getTimeFromFiletime m) (getTimeFromFiletime n)) eqn:Hb;
      [| reflexivity].
    apply Before_lt in Hb; [lia | exact Hmorm | exact Hnorm].
Qed.

(** The instance of C3 at a tick count of more than two chunks and at the
    largest [int64]. *)
Lemma getTimeFromFiletime_exact_monotone_witness :
  getTimeFromFiletime 200000000000000000 = reference_decode 200000000000000000
  /\ getTimeFromFiletime 0 = Date 1601 1 1 0 0 0 0
  /\ Before (getTimeFromFiletime MaxInt64) (getTimeFromFiletime 200000000000000000)
     = false.
Proof.
  apply (getTimeFromFiletime_exact_monotone 200000000000000000 MaxInt64);
    unfold MaxInt64; lia.
Defined.

(** C10 as the code has it.  [getTimeFromFiletime] is a total function;
    for every [int64] input the chunking loop stops after at most 100
    iterations, each of which strictly decreases the remaining input while
    it exceeds the per-chunk tick count; for every input [n <= 0] the loop
    body never executes; and for a negative [n] of at most one chunk in
    absolute value ([- maxdUnits <= n < 0]) the result is the instant
    [n] times 100 nanoseconds away from the epoch, strictly before it.
    (Below [- maxdUnits] the product [input * 100] wraps around.) *)
Theorem getTimeFromFiletime_total (t : Time) (n : Z) :
  in_int64 n ->
  (exists k : nat,
     chunk_loop t n = (Nat.iter k (fun t => Add t maxd) t, n - Z.of_nat k * maxdUnits)
     /\ (k <= 100)%nat)
  /\ (n > maxdUnits -> 0 < wrap64 (n - maxdUnits) < n)
  /\ (n <= 0 -> chunk_loop t n = (t, n))
  /\ (- maxdUnits <= n < 0 ->
      getTimeFromFiletime n = reference_decode n
      /\ Before (getTimeFromFiletime n) epoch1601 = true).
Proof.
  intros Hin. split; [| split; [| split]].
  - destruct (chunk_loop_iterations t n Hin) as (k & Hk & Hle & _).
    exists k. split; assumption.
  - intros Hgt. apply chunk_step_decreases; assumption.
  - intros Hle. apply chunk_loop_skip. rewrite maxdUnits_val. lia.
  - intros Hn.
    destruct (getTimeFromFiletime_one_chunk n ltac:(lia)) as [Hns Hnorm].
    destruct (reference_decode_spec n) as [Hrs Hrnorm].
    split.
    + apply instant_ns_inj; [exact Hnorm | exact Hrnorm | lia].
    + apply Before_lt; [exact Hnorm | rewrite epoch1601_val; split; simpl; lia | lia].
Qed.

(** The instance of the amended C10 at the tick count [-1]. *)
Lemma getTimeFromFiletime_total_witness :
  (exists k : nat,
     chunk_loop epoch1601 (-1)
     = (Nat.iter k (fun t => Add t maxd) epoch1601, -1 - Z.of_nat k * maxdUnits)
     /\ (k <= 100)%nat)
  /\ chunk_loop epoch1601 (-1) = (epoch1601, -1)
  /\ getTimeFromFiletime (-1) = reference_decode (-1)
  /\ Before (getTimeFromFiletime (-1)) epoch1601 = true.
Proof.
  assert (Hin : in_int64 (-1)) by (unfold in_int64, MinInt64, MaxInt64; lia).
  destruct (getTimeFromFiletime_total epoch1601 (-1) Hin) as (Hk & _ & Hskip & Hneg).
  split; [exact Hk | split; [apply Hskip; lia |]].
  apply Hneg. rewrite maxdUnits_val. lia.
Defined.

(** C10 as stated fails: the negative tick count just below [- maxdUnits]
    makes [input * 100] wrap around to a positive duration, and the result
    lies after the epoch. *)
Lemma getTimeFromFiletime_negative_wraps :
  in_int64 (-92233720368547759)
  /\ -92233720368547759 < 0
  /\ Before (getTimeFromFiletime (-92233720368547759)) epoch1601 = false
  /\ Before epoch1601 (getTimeFromFiletime (-92233720368547759)) = true.
Proof.
  unfold getTimeFromFiletime.
  rewrite chunk_loop_skip by (rewrite maxdUnits_val; lia).
  unfold in_int64, MinInt64, MaxInt64.
  repeat split; try lia; vm_compute; reflexivity.
Qed.

End Filetime.

(** * Properties of the reconciliation pass *)

Section Reconcile.

Context {W : Type} `{Connect W}.

Implicit Types (s : State W) (tr : list Event).

(** *** Reasoning rules of the monad *)

(** A property of every event a computation leaves in its trace. *)
Definition emits_only {A} (P : Event -> Prop) (m : M W A) : Prop :=
  forall s, Forall P (trace_of (m s)).

Section Rules.

Context {A B : Type} (P : Event -> Prop).

Lemma emits_only_bind (m : M W A) (k : A -> M W B) :
  emits_only P m -> (forall a, emits_only P (k a)) -> emits_only P (bind m k).
Proof.
  intros Hm Hk s. specialize (Hm s). unfold bind.
  destruct (m s) as [[[a | p] s1] tr1]; [| exact Hm].
  specialize (Hk a s1). destruct (k a s1) as [[o s2] tr2].
  apply Forall_app. split; assumption.
Qed.

Lemma emits_only_ret (a : A) : emits_only P (ret (W := W) a).
Proof. intros s. apply Forall_nil. exact I. Qed.

Lemma emits_only_panic (p : PanicKind) : emits_only P (panic (W := W) (A := A) p).
Proof. intros s. apply Forall_nil. exact I. Qed.

Lemma emits_only_ask (f : W -> A * W) : emits_only P (ask f).
Proof. intros s. unfold ask. destruct (f (world s)). apply Forall_nil. exact I. Qed.

Lemma emits_only_peek (f : W -> A) : emits_only P (peek f).
Proof. intros s. apply Forall_nil. exact I. Qed.

Lemma emits_only_index (l : list A) (i : nat) : emits_only P (index (W := W) l i).
Proof. intros s. unfold index. destruct (l !! i); apply Forall_nil; exact I. Qed.

Lemma emits_only_silent (m : M W A) :
  (forall s, trace_of (m s) = []) -> emits_only P m.
Proof. intros Hm s. rewrite Hm. apply Forall_nil. exact I. Qed.

End Rules.

Lemma emits_only_emit (P : Event -> Prop) (e : Event) :
  P e -> emits_only P (emit (W := W) e).
Proof. intros He s. apply Forall_cons. split; [exact He | apply Forall_nil; exact I]. Qed.

Lemma load_silent (p : loc) s : trace_of (load p s) = [].
Proof. unfold load. destruct (heap s !! p); reflexivity. Qed.

Lemma store_Value_silent (p : loc) (v : string) s : trace_of (store_Value p v s) = [].
Proof. unfold store_Value. destruct (heap s !! p); reflexivity. Qed.

(** Splits a goal about a computation along its binds and tests. *)
Ltac go_emits :=
  repeat first
    [ apply emits_only_ret | apply emits_only_panic | apply emits_only_peek
    | apply emits_only_ask | apply emits_only_index
    | apply emits_only_emit; done
    | apply emits_only_silent; first [apply load_silent | apply store_Value_silent | done]
    | apply emits_only_bind; [| intros ?]
    | case_match ].

Definition quiet (tr : list Event) : Prop :=
  Forall (fun e => action_record e = None) tr.

Lemma quiet_actions_for (i : nat) (tr : list Event) :
  quiet tr -> actions_for i tr = [].
Proof.
  unfold quiet, actions_for. induction 1 as [| e tr He Htr IH]; [done |].
  rewrite filter_cons_False; [exact IH | congruence].
Qed.

Lemma quiet_action_indices (tr : list Event) :
  quiet tr -> action_indices tr = [].
Proof.
  unfold quiet, action_indices. induction 1 as [| e tr He Htr IH]; [done |].
  simpl. rewrite He. exact IH.
Qed.

(** The two appliers talk to the server only; they leave no action marker
    of their own. *)
Lemma Create_quiet (lapsEntry : LapsEntry) s :
  quiet (trace_of (CreateOnPassEntryFromLapsEntry lapsEntry s)).
Proof.
  revert s. change (emits_only (fun e => action_record e = None)
                      (CreateOnPassEntryFromLapsEntry lapsEntry)).
  unfold CreateOnPassEntryFromLapsEntry. go_emits.
Qed.

Lemma Update_quiet (onepassentry : Item) (lapsEntry : LapsEntry) s :
  quiet (trace_of (UpdateOnPassEntry onepassentry lapsEntry s)).
Proof.
  revert s. change (emits_only (fun e => action_record e = None)
                      (UpdateOnPassEntry onepassentry lapsEntry)).
  unfold UpdateOnPassEntry. go_emits.
Qed.

(** *** The inner loop resolves the first entry with the title *)

Lemma find_title_None (host : string) (entries : list Item) (j : nat) :
  find_title host entries j = None <->
  forall e, e ∈ entries -> Item_Title e <> host.
Proof.
  revert j. induction entries as [| e0 rest IH]; intros j; simpl.
  - split; [intros _ e He; inversion He | done].
  - destruct (String.eqb_spec host (Item_Title e0)) as [Heq | Hne].
    + split; [done |]. intros Hall. exfalso.
      apply (Hall e0); [left | done].
    + rewrite IH. split.
      * intros Hall e He. apply elem_of_cons in He as [-> | He]; [congruence | auto].
      * intros Hall e He. apply Hall. by right.
Qed.

Lemma find_title_Some (host : string) (entries : list Item) (k j : nat) :
  find_title host entries k = Some j <->
  exists e, k <= j /\ entries !! (j - k) = Some e /\ Item_Title e = host
            /\ forall j' e', j' < j - k -> entries !! j' = Some e' ->
                             Item_Title e' <> host.
Proof.
  revert k. induction entries as [| e0 rest IH]; intros k; simpl.
  - split; [done |]. intros (e & _ & He & _). done.
  - destruct (String.eqb_spec host (Item_Title e0)) as [Heq | Hne].
    + split.
      * intros [= <-]. exists e0. rewrite Nat.sub_diag. simpl.
        repeat split; [lia | done |]. intros j' e' Hj'. lia.
      * intros (e & Hk & He & Ht & Hfirst).
        destruct (j - k) as [| d] eqn:Hd; [f_equal; lia |].
        exfalso. apply (Hfirst 0 e0); [lia | done | done].
    + rewrite IH. split.
      * intros (e & Hk & He & Ht & Hfirst). exists e.
        replace (j - k) with (S (j - S k)) by lia. simpl.
        repeat split; [lia | done | done |].
        intros [| j'] e' Hj' He'; simpl in He'; [congruence |].
        apply (Hfirst j' e'); [lia | done].
      * intros (e & Hk & He & Ht & Hfirst).
        destruct (j - k) as [| d] eqn:Hd; simpl in He; [congruence |].
        exists e. replace (j - S k) with d by lia.
        repeat split; [lia | done | done |].
        intros j' e' Hj' He'. apply (Hfirst (S j') e'); [lia | done].
Qed.

(** *** One iteration of the outer loop *)

Lemma compare_body_unmatched (entries : list Item) (i : nat) (r : LapsEntry) s :
  find_title (dnshostname r) entries 0 = None ->
  compare_body entries i r s
  = (outcome_of (CreateOnPassEntryFromLapsEntry r s),
     state_of (CreateOnPassEntryFromLapsEntry r s),
     CallCreate i :: trace_of (CreateOnPassEntryFromLapsEntry r s)).
Proof.
  intros Hfind. unfold compare_body. rewrite Hfind.
  unfold bind, emit, outcome_of, state_of, trace_of.
  destruct (CreateOnPassEntryFromLapsEntry r s) as [[o s'] tr]. reflexivity.
Qed.

Lemma compare_body_matched (entries : list Item) (i j : nat) (r : LapsEntry)
    (entry : Item) s :
  find_title (dnshostname r) entries 0 = Some j ->
  entries !! j = Some entry ->
  compare_body entries i r s
  = match GetValue_fields (heap s) (Item_Fields entry) "password" with
    | Panic p => (Panic p, s, [])
    | Return stored =>
        if negb (String.eqb (password r) stored) then
          (outcome_of (UpdateOnPassEntry entry r s),
           state_of (UpdateOnPassEntry entry r s),
           CallUpdate j i :: trace_of (UpdateOnPassEntry entry r s))
        else (Return None, s, [])
    end.
Proof.
  intros Hfind Hentry. unfold compare_body. rewrite Hfind.
  unfold bind, index, GetValue, ret, emit, outcome_of, state_of, trace_of.
  rewrite Hentry. simpl.
  destruct (GetValue_fields (heap s) (Item_Fields entry) "password")
    as [stored | p]; [| reflexivity].
  destruct (negb (String.eqb (password r) stored)); [| reflexivity].
  destruct (UpdateOnPassEntry entry r s) as [[o s'] tr]. reflexivity.
Qed.

Lemma find_title_lookup (host : string) (entries : list Item) (j : nat) :
  find_title host entries 0 = Some j -> exists e, entries !! j = Some e.
Proof.
  intros Hfind. apply find_title_Some in Hfind as (e & _ & He & _).
  rewrite Nat.sub_0_r in He. eauto.
Qed.

(** An iteration leaves at most one action in the trace, and it is for
    the record of the iteration. *)
Lemma compare_body_indices (entries : list Item) (i : nat) (r : LapsEntry) s :
  action_indices (trace_of (compare_body entries i r s)) = []
  \/ action_indices (trace_of (compare_body entries i r s)) = [i].
Proof.
  destruct (find_title (dnshostname r) entries 0) as [j |] eqn:Hfind.
  - destruct (find_title_lookup _ _ _ Hfind) as [entry Hentry].
    rewrite (compare_body_matched _ _ _ _ _ _ Hfind Hentry).
    destruct (GetValue_fields _ _ _) as [stored | p]; [| by left].
    destruct (negb _); [| by left].
    right. unfold trace_of at 1. simpl.
    by rewrite (quiet_action_indices _ (Update_quiet entry r s)).
  - rewrite (compare_body_unmatched _ _ _ _ Hfind).
    right. unfold trace_of at 1. simpl.
    by rewrite (quiet_action_indices _ (Create_quiet r s)).
Qed.

(** *** The outer loop *)

Lemma compare_loop_cons (entries : list Item) (r : LapsEntry)
    (l : list LapsEntry) (k : nat) s :
  compare_loop entries (r :: l) k s
  = match compare_body entries k r s with
    | (Return None, s1, tr1) =>
        (outcome_of (compare_loop entries l (S k) s1),
         state_of (compare_loop entries l (S k) s1),
         tr1 ++ trace_of (compare_loop entries l (S k) s1))
    | (Return (Some e), s1, tr1) => (Return (Some e), s1, tr1)
    | (Panic p, s1, tr1) => (Panic p, s1, tr1)
    end.
Proof.
  simpl. unfold bind, outcome_of, state_of, trace_of.
  destruct (compare_body entries k r s) as [[[[e |] | p] s1] tr1]; simpl.
  - by rewrite app_nil_r.
  - by destruct (compare_loop entries l (S k) s1) as [[o s2] tr2].
  - reflexivity.
Qed.

(** The pass over [l1 ++ l2] is the pass over [l1] followed, when that one
    returns nil, by the pass over [l2]. *)
Lemma compare_loop_app (entries : list Item) (l1 l2 : list LapsEntry) (k : nat) s :
  compare_loop entries (l1 ++ l2) k s
  = match outcome_of (compare_loop entries l1 k s) with
    | Return None =>
        (outcome_of (compare_loop entries l2 (k + length l1)
                       (state_of (compare_loop entries l1 k s))),
         state_of (compare_loop entries l2 (k + length l1)
                     (state_of (compare_loop entries l1 k s))),
         trace_of (compare_loop entries l1 k s)
         ++ trace_of (compare_loop entries l2 (k + length l1)
                        (state_of (compare_loop entries l1 k s))))
    | _ => compare_loop entries l1 k s
    end.
Proof.
  revert k s. induction l1 as [| r l1 IH]; intros k s.
  - rewrite Nat.add_0_r. simpl.
    change (state_of (ret None s)) with s.
    by destruct (compare_loop entries l2 k s) as [[o s'] tr].
  - rewrite <- app_comm_cons, !compare_loop_cons.
    destruct (compare_body entries k r s) as [[[[e |] | p] s1] tr1];
      [reflexivity | | reflexivity].
    rewrite IH. replace (k + length (r :: l1)) with (S k + length l1) by (simpl; lia).
    destruct (compare_loop entries l1 (S k) s1) as [[[[e |] | p] s2] tr2];
      unfold outcome_of, state_of, trace_of; simpl; try reflexivity.
    by rewrite app_assoc.
Qed.

(** Records are processed in input order: the record indices of the
    actions increase strictly along the trace. *)
Lemma compare_loop_indices (entries : list Item) (l : list LapsEntry) (k : nat) s :
  StronglySorted lt (action_indices (trace_of (compare_loop entries l k s)))
  /\ Forall (fun i => k <= i < k + length l)
            (action_indices (trace_of (compare_loop entries l k s))).
Proof.
  revert k s. induction l as [| r l IH]; intros k s.
  - simpl. split; constructor.
  - rewrite compare_loop_cons.
    pose proof (compare_body_indices entries k r s) as Hbody.
    destruct (compare_body entries k r s) as [[[[e |] | p] s1] tr1];
      unfold trace_of in *; simpl in *.
    + destruct Hbody as [-> | ->]; split; repeat constructor; lia.
    + specialize (IH (S k) s1).
      destruct (compare_loop entries l (S k) s1) as [[o s2] tr2]. simpl in *.
      destruct IH as [Hsorted Hrange].
      unfold action_indices in *. rewrite omap_app.
      assert (Hrange' : Forall (fun i => k <= i < k + S (length l))
                               (omap action_record tr2))
        by (eapply Forall_impl; [exact Hrange | simpl; intros; lia]).
      destruct Hbody as [-> | ->]; simpl; split; try done.
      * constructor; [done |].
        eapply Forall_impl; [exact Hrange | simpl; intros; lia].
      * constructor; [lia | done].
    + destruct Hbody as [-> | ->]; split; repeat constructor; lia.
Qed.

(** A pass that returns nil has returned nil on every prefix of the
    records: it has reached every record. *)
Lemma compare_loop_prefix_nil (entries : list Item) (l1 l2 : list LapsEntry)
    (k : nat) s :
  outcome_of (compare_loop entries (l1 ++ l2) k s) = Return None ->
  outcome_of (compare_loop entries l1 k s) = Return None.
Proof.
  rewrite compare_loop_app.
  by destruct (outcome_of (compare_loop entries l1 k s)) as [[e |] | p] eqn:Hout;
    [rewrite Hout | | rewrite Hout].
Qed.

Lemma pass_nil_reaches (records : list LapsEntry) (entries : list Item) s (i : nat) :
  outcome_of (CompareLapsToOnepass records entries s) = Return None ->
  outcome_of (CompareLapsToOnepass (take i records) entries s) = Return None.
Proof.
  unfold CompareLapsToOnepass. rewrite <- (take_drop i records) at 1.
  apply compare_loop_prefix_nil.
Qed.

Lemma actions_for_app (i : nat) (tr1 tr2 : list Event) :
  actions_for i (tr1 ++ tr2) = actions_for i tr1 ++ actions_for i tr2.
Proof. unfold actions_for. apply filter_app. Qed.

Lemma actions_for_other (i : nat) (P : nat -> Prop) (tr : list Event) :
  Forall P (action_indices tr) -> ~ P i -> actions_for i tr = [].
Proof.
  unfold actions_for, action_indices. intros Hall Hi.
  induction tr as [| ev tr IH]; [done |]. simpl in Hall.
  destruct (action_record ev) as [k |] eqn:Hev.
  - apply Forall_cons in Hall as [Hk Hall].
    rewrite filter_cons_False; [auto |]. rewrite Hev. intros [= ->]. done.
  - rewrite filter_cons_False; [auto |]. rewrite Hev. done.
Qed.

(** The actions for the record at index [i] are those of its own
    iteration, which runs in the state the pass over the records before it
    leaves, provided that pass returns nil. *)
Lemma pass_actions_for (records : list LapsEntry) (entries : list Item) s
    (i : nat) (r : LapsEntry) :
  records !! i = Some r ->
  actions_for i (trace_of (CompareLapsToOnepass records entries s))
  = match outcome_of (CompareLapsToOnepass (take i records) entries s) with
    | Return None =>
        actions_for i
          (trace_of (compare_body entries i r
             (state_of (CompareLapsToOnepass (take i records) entries s))))
    | _ => []
    end.
Proof.
  intros Hr. unfold CompareLapsToOnepass.
  rewrite <- (take_drop_middle records i r Hr) at 1.
  pose proof (lookup_lt_Some _ _ _ Hr) as Hlen.
  rewrite compare_loop_app, length_take, Nat.min_l by lia.
  change (0 + i) with i.
  destruct (compare_loop_indices entries (take i records) 0 s) as [_ Hbefore].
  rewrite length_take, Nat.min_l in Hbefore by lia.
  assert (Hnone : actions_for i (trace_of (compare_loop entries (take i records) 0 s)) = [])
    by (eapply actions_for_other; [exact Hbefore | simpl; lia]).
  destruct (outcome_of (compare_loop entries (take i records) 0 s))
    as [[e |] | p]; [exact Hnone | | exact Hnone].
  unfold trace_of at 1. cbn [snd]. rewrite actions_for_app, Hnone.
  cbn [app]. rewrite compare_loop_cons.
  set (s1 := state_of (compare_loop entries (take i records) 0 s)).
  destruct (compare_body entries i r s1) as [[[[e |] | p] s2] tr1];
    [reflexivity | | reflexivity].
  change (trace_of (Return None, s2, tr1)) with tr1.
  unfold trace_of at 1. cbn [snd]. rewrite actions_for_app.
  destruct (compare_loop_indices entries (drop (S i) records) (S i) s2) as [_ Hafter].
  rewrite (actions_for_other i _ _ Hafter) by lia.
  by rewrite app_nil_r.
Qed.

(** C1 as the code has it.  The pass is fail-fast: a record is reached
    only when the pass over the records before it returned nil.  For
    every record whose [dnshostname] equals no [Title] of the vault
    entries and that is reached, the pass performs exactly one create
    action for it and no update action; when it is not reached, no action
    at all; and the actions of the pass follow the order of the records. *)
Theorem unmatched_record_created (records : list LapsEntry) (entries : list Item)
    s (i : nat) (r : LapsEntry) :
  records !! i = Some r ->
  (forall e, e ∈ entries -> Item_Title e <> dnshostname r) ->
  (outcome_of (CompareLapsToOnepass (take i records) entries s) = Return None ->
   actions_for i (trace_of (CompareLapsToOnepass records entries s)) = [CallCreate i])
  /\ (outcome_of (CompareLapsToOnepass (take i records) entries s) <> Return None ->
      actions_for i (trace_of (CompareLapsToOnepass records entries s)) = [])
  /\ StronglySorted lt
       (action_indices (trace_of (CompareLapsToOnepass records entries s))).
Proof.
  intros Hr Hnomatch. apply find_title_None with (j := 0) in Hnomatch.
  rewrite (pass_actions_for _ _ _ _ _ Hr).
  split; [| split].
  - intros ->. rewrite (compare_body_unmatched _ _ _ _ Hnomatch).
    unfold trace_of at 1, actions_for. simpl.
    rewrite filter_cons_True by done.
    f_equal. apply quiet_actions_for, Create_quiet.
  - intros Hne. by destruct (outcome_of _) as [[e |] | p].
  - apply compare_loop_indices.
Qed.

(** The action for a record that is reached and whose first match is the
    entry at [j], by the value the comparison reads when the record is
    processed. *)
Lemma matched_record_action (records : list LapsEntry) (entries : list Item)
    s (i j : nat) (r : LapsEntry) (entry : Item) (stored : string) :
  records !! i = Some r ->
  entries !! j = Some entry ->
  Item_Title entry = dnshostname r ->
  (forall j' e', j' < j -> entries !! j' = Some e' ->
                 Item_Title e' <> dnshostname r) ->
  outcome_of (CompareLapsToOnepass (take i records) entries s) = Return None ->
  GetValue_fields
    (heap (state_of (CompareLapsToOnepass (take i records) entries s)))
    (Item_Fields entry) "password" = Return stored ->
  (password r <> stored ->
   actions_for i (trace_of (CompareLapsToOnepass records entries s))
   = [CallUpdate j i])
  /\ (password r = stored ->
      actions_for i (trace_of (CompareLapsToOnepass records entries s)) = []).
Proof.
  intros Hr Hentry Htitle Hfirst Hbefore Hstored.
  assert (Hfind : find_title (dnshostname r) entries 0 = Some j).
  { apply find_title_Some. exists entry. rewrite Nat.sub_0_r.
    repeat split; [lia | done | done | done]. }
  rewrite (pass_actions_for _ _ _ _ _ Hr), Hbefore.
  rewrite (compare_body_matched _ _ _ _ _ _ Hfind Hentry), Hstored.
  split.
  - intros Hne. apply String.eqb_neq in Hne. rewrite Hne. simpl.
    unfold trace_of at 1, actions_for. simpl.
    rewrite filter_cons_True by done.
    f_equal. apply quiet_actions_for, Update_quiet.
  - intros Heq. apply String.eqb_eq in Heq. rewrite Heq. reflexivity.
Qed.

(** *** The appliers, step by step *)

(** [UpdateOnPassEntry] in one piece: which test sends it where, what it
    has written to the field objects by then, and what it sends. *)
Lemma UpdateOnPassEntry_run (entry : Item) (r : LapsEntry) s :
  UpdateOnPassEntry entry r s
  = match NewClientFromEnvironment (world s) with
    | Some e => (Return (Some e), s, [])
    | None =>
      match Item_Fields entry !! 1 with
      | None => (Panic (IndexOutOfRange 1 (length (Item_Fields entry))), s, [])
      | Some p1 =>
        match heap s !! p1 with
        | None => (Panic NilDereference, s, [])
        | Some f1 =>
          if String.eqb (Field_Purpose f1) "PASSWORD" then
            let h1 := <[p1 := set_Value f1 (password r)]> (heap s) in
            match Item_Fields entry !! 2 with
            | None => (Panic (IndexOutOfRange 2 (length (Item_Fields entry))),
                       mkState h1 (world s), [])
            | Some p2 =>
              match h1 !! p2 with
              | None => (Panic NilDereference, mkState h1 (world s), [])
              | Some f2 =>
                if String.eqb (Field_Purpose f2) "NOTES" then
                  let h2 := <[p2 := set_Value f2
                                (String.append "Updated by laps2onepassword on "
                                   (time_Now (world s)).1)]> h1 in
                  let sent := snapshot h2 entry in
                  let answer := UpdateItem sent (Item_Vault_ID entry)
                                  (time_Now (world s)).2 in
                  (Return None, mkState h2 answer.2,
                   [ReqUpdateItem sent (Item_Vault_ID entry) answer.1])
                else
                  (Panic (LogPanic (String.append
                     "UpdateOnPassEntry: Fields[2] purpose is not NOTES on "
                     (Item_Title entry))), mkState h1 (world s), [])
              end
            end
          else
            (Panic (LogPanic (String.append
               "UpdateOnPassEntry: Fields[1] purpose is not PASSWORD on "
               (Item_Title entry))), s, [])
        end
      end
    end.
Proof.
  unfold UpdateOnPassEntry, bind, peek, index, load, store_Value, ask, emit,
    ret, panic.
  destruct (NewClientFromEnvironment (world s)) as [e |]; [reflexivity |].
  destruct (Item_Fields entry !! 1) as [p1 |]; [| reflexivity]. cbn [heap world].
  destruct (heap s !! p1) as [f1 |] eqn:Hf1; [| reflexivity].
  destruct (String.eqb (Field_Purpose f1) "PASSWORD"); [| reflexivity].
  rewrite Hf1. cbn [heap world].
  destruct (Item_Fields entry !! 2) as [p2 |]; [| reflexivity]. cbn [heap world].
  destruct (<[p1 := set_Value f1 (password r)]> (heap s) !! p2) as [f2 |] eqn:Hf2;
    [| reflexivity].
  destruct (String.eqb (Field_Purpose f2) "NOTES"); [| reflexivity].
  cbn [heap world]. destruct (time_Now (world s)) as [now w1]. cbn [heap world].
  rewrite Hf2. cbn [heap world fst snd].
  destruct (UpdateItem _ (Item_Vault_ID entry) w1) as [dropped w2]. reflexivity.
Qed.

(** [CreateOnPassEntryFromLapsEntry] in one piece.  With a vault list of
    any length other than one the function returns the [err] of the vault
    lookup, which is nil at that point. *)
Lemma CreateOnPassEntryFromLapsEntry_run (r : LapsEntry) s :
  CreateOnPassEntryFromLapsEntry r s
  = match NewClientFromEnvironment (world s) with
    | Some e => (Return (Some e), s, [])
    | None =>
      let title := Getenv "OP_VAULT_TITLE" (world s) in
      let lookup := GetVaultsByTitle title (world s) in
      let looked := ReqGetVaultsByTitle title lookup.1.1 lookup.1.2 in
      match lookup.1.2 with
      | Some e => (Return (Some e), mkState (heap s) lookup.2, [looked])
      | None =>
        match lookup.1.1 with
        | [vault] =>
            let u := uuid_New lookup.2 in
            let u0 := uuid_New u.2 in
            let username := Getenv "LAPS_USERNAME" u0.2 in
            let u1 := uuid_New u0.2 in
            let now := time_Now u1.2 in
            let opitem := new_item r (Vault_ID vault) u.1 u0.1 username u1.1 now.1 in
            let answer := CreateItem opitem (Vault_ID vault) now.2 in
            (Return answer.1, mkState (heap s) answer.2,
             [looked; ReqCreateItem opitem (Vault_ID vault) answer.1])
        | _ => (Return None, mkState (heap s) lookup.2, [looked])
        end
      end
    end.
Proof.
  unfold CreateOnPassEntryFromLapsEntry, bind, peek, index, ask, emit, ret, panic.
  destruct (NewClientFromEnvironment (world s)) as [e |]; [reflexivity |].
  cbn [heap world].
  destruct (GetVaultsByTitle _ (world s)) as [[vaults err] w1]. cbn [fst snd].
  destruct err as [e |]; [reflexivity |].
  destruct vaults as [| vault [| vault' vaults]]; [reflexivity | | reflexivity].
  cbn [length Nat.eqb Nat.ltb Nat.leb lookup list_lookup heap world].
  destruct (uuid_New w1) as [id w2]. cbn [heap world fst snd].
  destruct (uuid_New w2) as [id0 w3]. cbn [heap world fst snd].
  destruct (uuid_New w3) as [id1 w4]. cbn [heap world fst snd].
  destruct (time_Now w4) as [now w5]. cbn [heap world fst snd].
  destruct (CreateItem _ (Vault_ID vault) w5) as [[e |] w6]; reflexivity.
Qed.

(** The read path treats a vault list of any length other than one as an
    error, before any item is listed. *)
Lemma GetOnePassEntries_vault_count s (vaults : list Vault) (w1 : W) :
  NewClientFromEnvironment (world s) = None ->
  GetVaultsByTitle (Getenv "OP_VAULT_TITLE" (world s)) (world s)
  = ((vaults, None), w1) ->
  length vaults <> 1 ->
  (exists msg, outcome_of (GetOnePassEntries s) = Return ([], Some msg))
  /\ trace_of (GetOnePassEntries s)
     = [ReqGetVaultsByTitle (Getenv "OP_VAULT_TITLE" (world s)) vaults None].
Proof.
  intros Hclient Hlookup Hlen.
  unfold GetOnePassEntries, bind, peek, index, ask, emit, ret, panic,
    outcome_of, trace_of.
  rewrite Hclient. cbn [heap world]. rewrite Hlookup. cbn [fst snd].
  destruct vaults as [| vault [| vault' vaults]]; [| done |];
    cbn [length Nat.eqb Nat.ltb Nat.leb]; split; eauto.
Qed.

(** The create path on a vault list of any length other than one: no
    item is created, and the result is nil. *)
Lemma CreateOnPassEntryFromLapsEntry_vault_count (r : LapsEntry) s
    (vaults : list Vault) (w1 : W) :
  NewClientFromEnvironment (world s) = None ->
  GetVaultsByTitle (Getenv "OP_VAULT_TITLE" (world s)) (world s)
  = ((vaults, None), w1) ->
  length vaults <> 1 ->
  CreateOnPassEntryFromLapsEntry r s
  = (Return None, mkState (heap s) w1,
     [ReqGetVaultsByTitle (Getenv "OP_VAULT_TITLE" (world s)) vaults None]).
Proof.
  intros Hclient Hlookup Hlen.
  rewrite CreateOnPassEntryFromLapsEntry_run, Hclient. cbn zeta.
  rewrite Hlookup. cbn [fst snd].
  by destruct vaults as [| vault [| vault' vaults]].
Qed.

(** An update that aborts has sent nothing. *)
Lemma UpdateOnPassEntry_panic_silent (entry : Item) (r : LapsEntry) s (p : PanicKind) :
  outcome_of (UpdateOnPassEntry entry r s) = Panic p ->
  trace_of (UpdateOnPassEntry entry r s) = [].
Proof.
  rewrite UpdateOnPassEntry_run.
  destruct (NewClientFromEnvironment (world s)); [done |].
  destruct (Item_Fields entry !! 1) as [p1 |]; [| done].
  destruct (heap s !! p1) as [f1 |]; [| done].
  destruct (String.eqb (Field_Purpose f1) "PASSWORD"); [| done]. cbn zeta.
  destruct (Item_Fields entry !! 2) as [p2 |]; [| done].
  destruct (_ !! p2) as [f2 |]; [| done].
  by destruct (String.eqb (Field_Purpose f2) "NOTES").
Qed.

(** When the field at index 1 is not the password, the update aborts
    before it has written anything. *)
Lemma UpdateOnPassEntry_rejects_field1 (entry : Item) (r : LapsEntry) s
    (p1 : loc) (f1 : ItemField) :
  NewClientFromEnvironment (world s) = None ->
  Item_Fields entry !! 1 = Some p1 -> heap s !! p1 = Some f1 ->
  Field_Purpose f1 <> "PASSWORD" ->
  UpdateOnPassEntry entry r s
  = (Panic (LogPanic (String.append
       "UpdateOnPassEntry: Fields[1] purpose is not PASSWORD on "
       (Item_Title entry))), s, []).
Proof.
  intros Hclient Hp1 Hf1 Hpurpose.
  rewrite UpdateOnPassEntry_run, Hclient, Hp1, Hf1.
  apply String.eqb_neq in Hpurpose. by rewrite Hpurpose.
Qed.

(** The only error [UpdateOnPassEntry] returns is the one of
    [NewClientFromEnvironment]: the answer of [UpdateItem] never reaches
    the caller. *)
Lemma UpdateOnPassEntry_drops_answer (entry : Item) (r : LapsEntry) s (e : string) :
  outcome_of (UpdateOnPassEntry entry r s) = Return (Some e) ->
  NewClientFromEnvironment (world s) = Some e.
Proof.
  rewrite UpdateOnPassEntry_run.
  destruct (NewClientFromEnvironment (world s)) as [e' |]; [by intros [= ->] |].
  destruct (Item_Fields entry !! 1) as [p1 |]; [| done].
  destruct (heap s !! p1) as [f1 |]; [| done].
  destruct (String.eqb (Field_Purpose f1) "PASSWORD"); [| done]. cbn zeta.
  destruct (Item_Fields entry !! 2) as [p2 |]; [| done].
  destruct (_ !! p2) as [f2 |]; [| done].
  by destruct (String.eqb (Field_Purpose f2) "NOTES").
Qed.

(** The pass is fail-fast: an iteration that returns an error ends it,
    with that error and nothing after it in the trace. *)
Lemma compare_loop_fail_fast (entries : list Item) (r : LapsEntry)
    (l : list LapsEntry) (k : nat) s (e : string) :
  outcome_of (compare_body entries k r s) = Return (Some e) ->
  compare_loop entries (r :: l) k s = compare_body entries k r s.
Proof.
  intros Hout. rewrite compare_loop_cons.
  by destruct (compare_body entries k r s) as [[[[e' |] | p] s1] tr1].
Qed.

(** C9 as the code has it.  Once the client is obtained,
    [UpdateOnPassEntry] reads [Fields[1]] and, only if its purpose is
    ["PASSWORD"], [Fields[2]].  With fewer than two fields the first access
    is out of range; with exactly two fields the access to [Fields[2]] is
    out of range when [Fields[1]] has purpose ["PASSWORD"], and otherwise
    the explicit [log.Panicf] path is taken before index 2 is read; with
    at least three fields no access is out of range. *)
Theorem UpdateOnPassEntry_bounds (entry : Item) (r : LapsEntry) s :
  NewClientFromEnvironment (world s) = None ->
  (forall p, p ∈ Item_Fields entry -> is_Some (heap s !! p)) ->
  (length (Item_Fields entry) < 2 ->
   outcome_of (UpdateOnPassEntry entry r s)
   = Panic (IndexOutOfRange 1 (length (Item_Fields entry))))
  /\ (length (Item_Fields entry) = 2 ->
      forall p1 f1,
        Item_Fields entry !! 1 = Some p1 -> heap s !! p1 = Some f1 ->
        (Field_Purpose f1 = "PASSWORD" ->
         outcome_of (UpdateOnPassEntry entry r s) = Panic (IndexOutOfRange 2 2))
        /\ (Field_Purpose f1 <> "PASSWORD" ->
            outcome_of (UpdateOnPassEntry entry r s)
            = Panic (LogPanic (String.append
                "UpdateOnPassEntry: Fields[1] purpose is not PASSWORD on "
                (Item_Title entry)))))
  /\ (3 <= length (Item_Fields entry) ->
      forall k n, outcome_of (UpdateOnPassEntry entry r s)
                  <> Panic (IndexOutOfRange k n)).
Proof.
  intros Hclient Halloc. rewrite UpdateOnPassEntry_run, Hclient.
  split; [| split].
  - intros Hlen. by rewrite lookup_ge_None_2 by lia.
  - intros Hlen p1 f1 Hp1 Hf1. rewrite Hp1, Hf1. split.
    + intros Hpurpose. apply String.eqb_eq in Hpurpose. rewrite Hpurpose.
      cbn zeta. rewrite lookup_ge_None_2 by lia. by rewrite Hlen.
    + intros Hpurpose. apply String.eqb_neq in Hpurpose. by rewrite Hpurpose.
  - intros Hlen k n.
    destruct (lookup_lt_is_Some_2 (Item_Fields entry) 1 ltac:(lia)) as [p1 Hp1].
    destruct (lookup_lt_is_Some_2 (Item_Fields entry) 2 ltac:(lia)) as [p2 Hp2].
    rewrite Hp1, Hp2.
    destruct (heap s !! p1) as [f1 |]; [| done].
    destruct (String.eqb (Field_Purpose f1) "PASSWORD"); [| done].
    cbn zeta. destruct (_ !! p2) as [f2 |]; [| done].
    by destruct (String.eqb (Field_Purpose f2) "NOTES").
Qed.

(** *** What the pass writes to the field objects *)

Lemma same_but_Value_refl (f : ItemField) : same_but_Value f f.
Proof. by repeat split. Qed.

Lemma same_but_Value_set (f f' : ItemField) (v : string) :
  same_but_Value f f' -> same_but_Value f (set_Value f' v).
Proof. intros (Hi & Ht & Hp & Hl). by repeat split. Qed.

Lemma changed_only_refl (L : loc -> Prop) (h : gmap loc ItemField) :
  changed_only L h h.
Proof. intros p. by left. Qed.

Lemma changed_only_mono (L L' : loc -> Prop) (h h' : gmap loc ItemField) :
  (forall p, L p -> L' p) -> changed_only L h h' -> changed_only L' h h'.
Proof.
  intros Hsub Hch p. destruct (Hch p) as [Heq | (Hp & Hrest)]; [by left | right].
  split; [by apply Hsub | done].
Qed.

Lemma changed_only_trans (L : loc -> Prop) (h1 h2 h3 : gmap loc ItemField) :
  changed_only L h1 h2 -> changed_only L h2 h3 -> changed_only L h1 h3.
Proof.
  intros H12 H23 p.
  destruct (H12 p) as [Heq12 | (Hp & f & f' & Hf & Hf' & Hsame)];
    destruct (H23 p) as [Heq23 | (Hp' & g & g' & Hg & Hg' & Hsame')].
  - left. congruence.
  - right. split; [done |]. exists g, g'.
    split; [congruence | split; [done | done]].
  - right. split; [done |]. exists f, f'.
    split; [done | split; [congruence | done]].
  - right. split; [done |]. exists f, g'.
    assert (g = f') as -> by congruence.
    split; [done | split; [done |]].
    destruct Hsame as (? & ? & ? & ?), Hsame' as (? & ? & ? & ?).
    repeat split; congruence.
Qed.

(** One assignment [p.Value = v]. *)
Lemma changed_only_insert (L : loc -> Prop) (h : gmap loc ItemField)
    (p : loc) (f : ItemField) (v : string) :
  L p -> h !! p = Some f -> changed_only L h (<[p := set_Value f v]> h).
Proof.
  intros HL Hf q. destruct (decide (p = q)) as [<- | Hne].
  - right. split; [done |]. exists f, (set_Value f v).
    rewrite lookup_insert_eq. repeat split; done.
  - left. by rewrite lookup_insert_ne.
Qed.

(** [UpdateOnPassEntry] writes to the field objects at index 1 and 2 of
    its entry, and only to their [Value]. *)
Lemma UpdateOnPassEntry_frame (entry : Item) (r : LapsEntry) s :
  changed_only
    (fun p => Item_Fields entry !! 1 = Some p \/ Item_Fields entry !! 2 = Some p)
    (heap s) (heap (state_of (UpdateOnPassEntry entry r s))).
Proof.
  rewrite UpdateOnPassEntry_run.
  destruct (NewClientFromEnvironment (world s)); [apply changed_only_refl |].
  destruct (Item_Fields entry !! 1) as [p1 |] eqn:Hp1; [| apply changed_only_refl].
  destruct (heap s !! p1) as [f1 |] eqn:Hf1; [| apply changed_only_refl].
  destruct (String.eqb (Field_Purpose f1) "PASSWORD"); [| apply changed_only_refl].
  cbn zeta.
  assert (H1 : changed_only
                 (fun p => Some p1 = Some p \/ Item_Fields entry !! 2 = Some p)
                 (heap s) (<[p1 := set_Value f1 (password r)]> (heap s)))
    by (apply changed_only_insert; [by left | done]).
  destruct (Item_Fields entry !! 2) as [p2 |] eqn:Hp2; [| exact H1].
  destruct (_ !! p2) as [f2 |] eqn:Hf2; [| exact H1].
  destruct (String.eqb (Field_Purpose f2) "NOTES"); [| exact H1].
  unfold state_of. cbn [fst snd heap].
  eapply changed_only_trans; [exact H1 |].
  apply changed_only_insert; [by right | done].
Qed.

Lemma touched_app_l (entries : list Item) (tr1 tr2 : list Event) (p : loc) :
  touched entries tr1 p -> touched entries (tr1 ++ tr2) p.
Proof.
  intros (j & i & entry & Hin & Hrest). exists j, i, entry.
  split; [apply elem_of_app; by left | done].
Qed.

Lemma touched_app_r (entries : list Item) (tr1 tr2 : list Event) (p : loc) :
  touched entries tr2 p -> touched entries (tr1 ++ tr2) p.
Proof.
  intros (j & i & entry & Hin & Hrest). exists j, i, entry.
  split; [apply elem_of_app; by right | done].
Qed.

Lemma compare_body_frame (entries : list Item) (i : nat) (r : LapsEntry) s :
  changed_only (touched entries (trace_of (compare_body entries i r s)))
    (heap s) (heap (state_of (compare_body entries i r s))).
Proof.
  destruct (find_title (dnshostname r) entries 0) as [j |] eqn:Hfind.
  - destruct (find_title_lookup _ _ _ Hfind) as [entry Hentry].
    rewrite (compare_body_matched _ _ _ _ _ _ Hfind Hentry).
    destruct (GetValue_fields _ _ _) as [stored | p]; [| apply changed_only_refl].
    destruct (negb _); [| apply changed_only_refl].
    unfold state_of at 1, trace_of at 1. cbn [fst snd].
    eapply changed_only_mono; [| apply UpdateOnPassEntry_frame].
    intros p Hp. exists j, i, entry. split; [by left | done].
  - rewrite (compare_body_unmatched _ _ _ _ Hfind).
    unfold state_of at 1. cbn [fst snd].
    rewrite CreateOnPassEntryFromLapsEntry_run.
    destruct (NewClientFromEnvironment (world s)); [apply changed_only_refl |].
    cbn zeta. destruct (_.1.2); [apply changed_only_refl |].
    destruct (_.1.1) as [| vault [| vault' vaults]]; apply changed_only_refl.
Qed.

(** C7 as the code has it.  The records and the item structures are
    values the pass only reads, but the field objects are shared with the
    entries: an update action writes the [Value] of the fields at index 1
    and 2 of its entry.  After the pass, however it ends, every field
    object is still there, the objects other than those at index 1 and 2
    of an entry with an update action in the trace hold the values they
    held on entry, and those objects differ at most in their [Value]. *)
Theorem pass_writes_only_updated_fields (records : list LapsEntry)
    (entries : list Item) s :
  changed_only
    (touched entries (trace_of (CompareLapsToOnepass records entries s)))
    (heap s) (heap (state_of (CompareLapsToOnepass records entries s))).
Proof.
  unfold CompareLapsToOnepass. generalize 0 as k. revert s.
  induction records as [| r l IH]; intros s k; [apply changed_only_refl |].
  rewrite compare_loop_cons.
  pose proof (compare_body_frame entries k r s) as Hbody.
  destruct (compare_body entries k r s) as [[[[e |] | p] s1] tr1];
    [exact Hbody | | exact Hbody].
  unfold state_of at 1 in Hbody. unfold trace_of at 1 in Hbody. cbn [fst snd] in Hbody.
  unfold state_of at 1, trace_of at 1. cbn [fst snd].
  eapply changed_only_trans.
  - eapply changed_only_mono; [| exact Hbody]. intros p. apply touched_app_l.
  - eapply changed_only_mono; [| apply IH]. intros p. apply touched_app_r.
Qed.

(** *** Running the pass a second time *)

(** What [GetValue] reads depends on the field objects of the item only. *)
Lemma GetValue_fields_ext (h h' : gmap loc ItemField) (fs fs' : list loc)
    (label : string) :
  (fun p => h !! p) <$> fs = (fun p => h' !! p) <$> fs' ->
  GetValue_fields h fs label = GetValue_fields h' fs' label.
Proof.
  revert fs'. induction fs as [| p fs IH]; intros [| p' fs'] Heq;
    simpl in Heq; try discriminate; [done |].
  injection Heq as Hp Hrest. simpl. rewrite Hp.
  destruct (h' !! p') as [f |]; [| done].
  destruct (String.eqb label (Field_Label f)); [done | by apply IH].
Qed.

Lemma GetValue_fields_same (h h' : gmap loc ItemField) (fs : list loc)
    (label : string) :
  (forall p, p ∈ fs -> h' !! p = h !! p) ->
  GetValue_fields h' fs label = GetValue_fields h fs label.
Proof.
  intros Hsame. apply GetValue_fields_ext.
  apply list_fmap_ext. intros k p Hk. apply Hsame. by eapply list_elem_of_lookup_2.
Qed.

(** Field pointers that are pairwise distinct ([NoDup] over all entries,
    as JSON decoding allocates them) belong to one entry only. *)
Lemma field_owner (entries : list Item) (j j' : nat) (e e' : Item) (p : loc) :
  NoDup (concat (Item_Fields <$> entries)) ->
  entries !! j = Some e -> entries !! j' = Some e' ->
  p ∈ Item_Fields e -> p ∈ Item_Fields e' -> j = j'.
Proof.
  revert j j'. induction entries as [| e0 rest IH]; intros j j' Hnd Hj Hj' Hp Hp';
    [done |].
  simpl in Hnd. apply NoDup_app in Hnd as (Hhead & Hdisj & Hrest).
  assert (Hin : forall k ek, rest !! k = Some ek -> p ∈ Item_Fields ek ->
                             p ∈ concat (Item_Fields <$> rest)).
  { clear. induction rest as [| e1 rest IHr]; intros k ek Hk Hpk;
      [by rewrite lookup_nil in Hk |].
    simpl. apply elem_of_app. destruct k as [| k]; simpl in Hk.
    - left. by injection Hk as ->.
    - right. by eapply IHr. }
  destruct j as [| j], j' as [| j']; simpl in Hj, Hj'.
  - done.
  - injection Hj as <-. exfalso. eapply Hdisj; [exact Hp | by eapply Hin].
  - injection Hj' as <-. exfalso. eapply Hdisj; [exact Hp' | by eapply Hin].
  - f_equal. by eapply IH.
Qed.

Lemma fields_NoDup (entries : list Item) (j : nat) (e : Item) :
  NoDup (concat (Item_Fields <$> entries)) ->
  entries !! j = Some e -> NoDup (Item_Fields e).
Proof.
  revert j. induction entries as [| e0 rest IH]; intros j Hnd Hj; [done |].
  simpl in Hnd. apply NoDup_app in Hnd as (Hhead & _ & Hrest).
  destruct j as [| j]; simpl in Hj; [by injection Hj as <- | by eapply IH].
Qed.

(** The actions in a trace are the decisions of the inner loop. *)
Lemma quiet_no_action (tr : list Event) (ev : Event) :
  quiet tr -> ev ∈ tr -> action_record ev = None.
Proof. unfold quiet. rewrite Forall_forall. auto. Qed.

Lemma compare_body_update_event (entries : list Item) (k : nat) (r : LapsEntry) s
    (j i : nat) :
  CallUpdate j i ∈ trace_of (compare_body entries k r s) ->
  i = k /\ find_title (dnshostname r) entries 0 = Some j.
Proof.
  destruct (find_title (dnshostname r) entries 0) as [j0 |] eqn:Hfind.
  - destruct (find_title_lookup _ _ _ Hfind) as [entry Hentry].
    rewrite (compare_body_matched _ _ _ _ _ _ Hfind Hentry).
    destruct (GetValue_fields _ _ _) as [stored | p]; [| by intros Hin; inversion Hin].
    destruct (negb _); [| by intros Hin; inversion Hin].
    unfold trace_of at 1. cbn [snd]. intros Hin.
    apply elem_of_cons in Hin as [Heq | Hin]; [by injection Heq as -> -> |].
    by apply (quiet_no_action _ _ (Update_quiet entry r s)) in Hin.
  - rewrite (compare_body_unmatched _ _ _ _ Hfind).
    unfold trace_of at 1. cbn [snd]. intros Hin.
    apply elem_of_cons in Hin as [Heq | Hin]; [done |].
    by apply (quiet_no_action _ _ (Create_quiet r s)) in Hin.
Qed.

Lemma compare_body_create_event (entries : list Item) (k : nat) (r : LapsEntry) s
    (i : nat) :
  CallCreate i ∈ trace_of (compare_body entries k r s) ->
  i = k /\ find_title (dnshostname r) entries 0 = None.
Proof.
  destruct (find_title (dnshostname r) entries 0) as [j0 |] eqn:Hfind.
  - destruct (find_title_lookup _ _ _ Hfind) as [entry Hentry].
    rewrite (compare_body_matched _ _ _ _ _ _ Hfind Hentry).
    destruct (GetValue_fields _ _ _) as [stored | p]; [| by intros Hin; inversion Hin].
    destruct (negb _); [| by intros Hin; inversion Hin].
    unfold trace_of at 1. cbn [snd]. intros Hin.
    apply elem_of_cons in Hin as [Heq | Hin]; [done |].
    by apply (quiet_no_action _ _ (Update_quiet entry r s)) in Hin.
  - rewrite (compare_body_unmatched _ _ _ _ Hfind).
    unfold trace_of at 1. cbn [snd]. intros Hin.
    apply elem_of_cons in Hin as [Heq | Hin]; [by injection Heq as -> |].
    by apply (quiet_no_action _ _ (Create_quiet r s)) in Hin.
Qed.

(** The trace of the loop is the trace of its first iteration followed,
    when it goes on, by the trace of the rest. *)
Lemma compare_loop_event (entries : list Item) (r : LapsEntry)
    (l : list LapsEntry) (k : nat) s (ev : Event) :
  ev ∈ trace_of (compare_loop entries (r :: l) k s) ->
  ev ∈ trace_of (compare_body entries k r s)
  \/ (outcome_of (compare_body entries k r s) = Return None
      /\ ev ∈ trace_of (compare_loop entries l (S k)
                          (state_of (compare_body entries k r s)))).
Proof.
  rewrite compare_loop_cons.
  destruct (compare_body entries k r s) as [[[[e |] | p] s1] tr1];
    unfold trace_of at 1 2, outcome_of, state_of; cbn [fst snd]; [by left | | by left].
  intros Hin. apply elem_of_app in Hin as [Hin | Hin]; [by left | by right].
Qed.

Lemma compare_loop_update_event (entries : list Item) (l : list LapsEntry)
    (k : nat) s (j i : nat) :
  CallUpdate j i ∈ trace_of (compare_loop entries l k s) ->
  exists r, k <= i /\ l !! (i - k) = Some r
            /\ find_title (dnshostname r) entries 0 = Some j.
Proof.
  revert k s. induction l as [| r l IH]; intros k s Hin; [by inversion Hin |].
  apply compare_loop_event in Hin as [Hin | [_ Hin]].
  - apply compare_body_update_event in Hin as [-> Hfind].
    exists r. by rewrite Nat.sub_diag.
  - apply IH in Hin as (r' & Hk & Hr' & Hfind). exists r'.
    replace (i - k) with (S (i - S k)) by lia. repeat split; [lia | done | done].
Qed.

Lemma compare_loop_create_event (entries : list Item) (l : list LapsEntry)
    (k : nat) s (i : nat) :
  CallCreate i ∈ trace_of (compare_loop entries l k s) ->
  exists r, k <= i /\ l !! (i - k) = Some r
            /\ find_title (dnshostname r) entries 0 = None.
Proof.
  revert k s. induction l as [| r l IH]; intros k s Hin; [by inversion Hin |].
  apply compare_loop_event in Hin as [Hin | [_ Hin]].
  - apply compare_body_create_event in Hin as [-> Hfind].
    exists r. by rewrite Nat.sub_diag.
  - apply IH in Hin as (r' & Hk & Hr' & Hfind). exists r'.
    replace (i - k) with (S (i - S k)) by lia. repeat split; [lia | done | done].
Qed.

Lemma find_title_entry (host : string) (entries : list Item) (j : nat) :
  find_title host entries 0 = Some j ->
  exists e, entries !! j = Some e /\ Item_Title e = host.
Proof.
  intros Hfind. apply find_title_Some in Hfind as (e & _ & He & Ht & _).
  rewrite Nat.sub_0_r in He. eauto.
Qed.

(** An iteration for another host leaves what [GetValue] reads from an
    entry unchanged, when no two entries share a field object. *)
Lemma compare_body_preserves (entries : list Item) (k : nat) (r0 : LapsEntry) s
    (j : nat) (entry : Item) (label : string) :
  NoDup (concat (Item_Fields <$> entries)) ->
  entries !! j = Some entry ->
  Item_Title entry <> dnshostname r0 ->
  GetValue_fields (heap (state_of (compare_body entries k r0 s)))
    (Item_Fields entry) label
  = GetValue_fields (heap s) (Item_Fields entry) label.
Proof.
  intros Hnd Hentry Hother. apply GetValue_fields_same. intros p Hp.
  destruct (compare_body_frame entries k r0 s p)
    as [Heq | [(j' & i' & entry' & Hin & Hentry' & Hpos) _]]; [done |].
  exfalso.
  apply compare_body_update_event in Hin as [_ Hfind].
  apply find_title_entry in Hfind as (e & He & Htitle).
  assert (e = entry') as -> by congruence.
  assert (Hp' : p ∈ Item_Fields entry')
    by (destruct Hpos as [Hpos | Hpos]; by eapply list_elem_of_lookup_2).
  assert (j = j') as -> by (by eapply field_owner).
  congruence.
Qed.

Lemma compare_loop_preserves (entries : list Item) (l : list LapsEntry) (k : nat)
    s (j : nat) (entry : Item) (label : string) :
  NoDup (concat (Item_Fields <$> entries)) ->
  entries !! j = Some entry ->
  Item_Title entry ∉ dnshostname <$> l ->
  GetValue_fields (heap (state_of (compare_loop entries l k s)))
    (Item_Fields entry) label
  = GetValue_fields (heap s) (Item_Fields entry) label.
Proof.
  intros Hnd Hentry. revert k s. induction l as [| r l IH]; intros k s Hother;
    [done |].
  rewrite fmap_cons in Hother. apply not_elem_of_cons in Hother as [Hr Hl].
  pose proof (compare_body_preserves entries k r s j entry label Hnd Hentry Hr)
    as Hbody.
  rewrite compare_loop_cons.
  destruct (compare_body entries k r s) as [[[[e |] | p] s1] tr1];
    unfold state_of at 1 in Hbody; unfold state_of at 1; cbn [fst snd] in *;
    [done | | done].
  rewrite IH by done. exact Hbody.
Qed.

(** On an entry whose field at index 1 is the first one labelled
    ["password"], the comparison reads the value of that field. *)
Lemma password_at_1_read (h : gmap loc ItemField) (entry : Item)
    (p1 : loc) (f1 : ItemField) :
  password_at_1 h entry ->
  Item_Fields entry !! 1 = Some p1 -> h !! p1 = Some f1 ->
  GetValue_fields h (Item_Fields entry) "password" = Return (Field_Value f1).
Proof.
  intros (q0 & g0 & q1 & g1 & H0 & Hg0 & Hl0 & H1 & Hg1 & Hl1) Hp1 Hf1.
  destruct (Item_Fields entry) as [| a0 [| a1 rest]]; [done | done |].
  cbn in H0, H1, Hp1. injection H0 as ->. injection H1 as ->. injection Hp1 as ->.
  assert (g1 = f1) as -> by congruence.
  cbn [GetValue_fields]. rewrite Hg0.
  destruct (String.eqb_spec "password" (Field_Label g0)) as [Heq | _];
    [by destruct Hl0 |].
  rewrite Hf1, Hl1. by rewrite String.eqb_refl.
Qed.

(** C2 as the code has it.  Let the records have pairwise distinct host
    names and let no two entries share a field object.  For every record
    that is reached (the pass over the records before it returned nil)
    and whose [dnshostname] is the [Title] of some vault entry, the match
    is the first such entry [j] in input order; when this entry has its
    password slot, the field at index 1, as its first field labelled
    ["password"], exactly one update action, referencing entry [j], is
    performed if the value stored in that slot differs from the record's
    password, and no action if the two are equal. *)
Theorem matched_record_updated (records : list LapsEntry) (entries : list Item)
    s (i j : nat) (r : LapsEntry) (entry : Item) (p1 : loc) (f1 : ItemField) :
  NoDup (dnshostname <$> records) ->
  NoDup (concat (Item_Fields <$> entries)) ->
  records !! i = Some r ->
  entries !! j = Some entry ->
  Item_Title entry = dnshostname r ->
  (forall j' e', j' < j -> entries !! j' = Some e' ->
                 Item_Title e' <> dnshostname r) ->
  outcome_of (CompareLapsToOnepass (take i records) entries s) = Return None ->
  password_at_1 (heap s) entry ->
  Item_Fields entry !! 1 = Some p1 -> heap s !! p1 = Some f1 ->
  (password r <> Field_Value f1 ->
   actions_for i (trace_of (CompareLapsToOnepass records entries s))
   = [CallUpdate j i])
  /\ (password r = Field_Value f1 ->
      actions_for i (trace_of (CompareLapsToOnepass records entries s)) = []).
Proof.
  intros Hhosts Hnd Hr Hentry Htitle Hfirst Hbefore Hlayout Hp1 Hf1.
  apply (matched_record_action records entries s i j r entry (Field_Value f1));
    try done.
  unfold CompareLapsToOnepass.
  rewrite (compare_loop_preserves entries (take i records) 0 s j entry "password");
    [by apply (password_at_1_read _ _ p1) | done | done |].
  (* No earlier record has the host name of [r]. *)
  rewrite Htitle. intros Hin.
  apply list_elem_of_fmap in Hin as (r' & Hsame & Hin).
  apply list_elem_of_lookup in Hin as (i' & Hi').
  apply lookup_take_Some in Hi' as [Hi' Hlt].
  assert (i' = i); [| lia].
  apply (NoDup_lookup (dnshostname <$> records) i' i (dnshostname r)); [done | |].
  - by rewrite list_lookup_fmap, Hi', Hsame.
  - by rewrite list_lookup_fmap, Hr.
Qed.

(** After an update that returns, [GetValue("password")] reads the new
    password, provided the field at index 1 is the first one labelled
    ["password"] and is not also the field at index 0 or 2. *)
Lemma UpdateOnPassEntry_settles (entry : Item) (r : LapsEntry) s :
  NoDup (Item_Fields entry) ->
  password_at_1 (heap s) entry ->
  outcome_of (UpdateOnPassEntry entry r s) = Return None ->
  GetValue_fields (heap (state_of (UpdateOnPassEntry entry r s)))
    (Item_Fields entry) "password" = Return (password r).
Proof.
  intros Hnd (p0 & f0 & p1 & f1 & Hp0 & Hf0 & Hl0 & Hp1 & Hf1 & Hl1).
  rewrite UpdateOnPassEntry_run.
  destruct (NewClientFromEnvironment (world s)); [done |].
  rewrite Hp1, Hf1.
  destruct (String.eqb (Field_Purpose f1) "PASSWORD"); [| done]. cbn zeta.
  destruct (Item_Fields entry !! 2) as [p2 |] eqn:Hp2; [| done].
  destruct (_ !! p2) as [f2 |] eqn:Hf2; [| done].
  destruct (String.eqb (Field_Purpose f2) "NOTES"); [| done].
  intros _. unfold state_of. cbn [fst snd heap].
  destruct (Item_Fields entry) as [| q0 [| q1 [| q2 rest]]]; try done.
  cbn in Hp0, Hp1, Hp2. injection Hp0 as ->. injection Hp1 as ->. injection Hp2 as ->.
  apply NoDup_cons in Hnd as [Hn0 Hnd]. apply NoDup_cons in Hnd as [Hn1 _].
  apply not_elem_of_cons in Hn0 as [H01 Hn0].
  apply not_elem_of_cons in Hn0 as [H02 _].
  apply not_elem_of_cons in Hn1 as [H12 _].
  cbn [GetValue_fields].
  rewrite (lookup_insert_ne _ p2 p0), (lookup_insert_ne _ p1 p0), Hf0 by congruence.
  apply String.eqb_neq in Hl0. rewrite String.eqb_sym, Hl0.
  rewrite (lookup_insert_ne _ p2 p1), lookup_insert_eq by congruence.
  cbn [set_Value Field_Label Field_Value]. by rewrite Hl1.
Qed.

(** After its iteration returns nil, a matched record agrees with what
    [GetValue("password")] reads from its entry. *)
Lemma compare_body_settles (entries : list Item) (k : nat) (r : LapsEntry) s
    (j : nat) (entry : Item) :
  find_title (dnshostname r) entries 0 = Some j ->
  entries !! j = Some entry ->
  NoDup (Item_Fields entry) ->
  (CallUpdate j k ∈ trace_of (compare_body entries k r s) ->
   password_at_1 (heap s) entry) ->
  outcome_of (compare_body entries k r s) = Return None ->
  GetValue_fields (heap (state_of (compare_body entries k r s)))
    (Item_Fields entry) "password" = Return (password r).
Proof.
  intros Hfind Hentry Hnd.
  rewrite (compare_body_matched _ _ _ _ _ _ Hfind Hentry).
  destruct (GetValue_fields (heap s) (Item_Fields entry) "password")
    as [stored | p] eqn:Hstored; [| done].
  destruct (String.eqb_spec (password r) stored) as [-> | Hne]; cbn [negb].
  - intros _ _. exact Hstored.
  - unfold trace_of at 1, outcome_of at 1, state_of at 1. cbn [fst snd].
    intros Hlayout Hout. apply UpdateOnPassEntry_settles; [done | | done].
    apply Hlayout. by left.
Qed.

Lemma password_at_1_changed (L : loc -> Prop) (h h' : gmap loc ItemField)
    (entry : Item) :
  changed_only L h h' -> password_at_1 h entry -> password_at_1 h' entry.
Proof.
  intros Hch (p0 & f0 & p1 & f1 & Hp0 & Hf0 & Hl0 & Hp1 & Hf1 & Hl1).
  assert (Hkeep : forall p f, h !! p = Some f ->
            exists f', h' !! p = Some f' /\ Field_Label f' = Field_Label f).
  { intros p f Hf. destruct (Hch p) as [Heq | (_ & g & g' & Hg & Hg' & Hsame)].
    - exists f. by rewrite Heq.
    - exists g'. assert (g = f) as -> by congruence.
      split; [done | apply Hsame]. }
  destruct (Hkeep p0 f0 Hf0) as (f0' & Hf0' & Hl0').
  destruct (Hkeep p1 f1 Hf1) as (f1' & Hf1' & Hl1').
  exists p0, f0', p1, f1'. repeat split; try done; congruence.
Qed.

(** After a pass that returns nil, every matched record agrees with what
    [GetValue("password")] reads from its entry, when host names are
    pairwise distinct and no two entries share a field object. *)
Lemma compare_loop_settles (entries : list Item) (l : list LapsEntry) (k : nat) s :
  NoDup (dnshostname <$> l) ->
  NoDup (concat (Item_Fields <$> entries)) ->
  outcome_of (compare_loop entries l k s) = Return None ->
  (forall j i entry,
     CallUpdate j i ∈ trace_of (compare_loop entries l k s) ->
     entries !! j = Some entry -> password_at_1 (heap s) entry) ->
  forall r j entry,
    r ∈ l -> find_title (dnshostname r) entries 0 = Some j ->
    entries !! j = Some entry ->
    GetValue_fields (heap (state_of (compare_loop entries l k s)))
      (Item_Fields entry) "password" = Return (password r).
Proof.
  intros Hhosts Hnd. revert k s.
  induction l as [| r0 l IH]; intros k s Hout Hlayout r j entry Hr Hfind Hentry;
    [by inversion Hr |].
  rewrite fmap_cons in Hhosts. apply NoDup_cons in Hhosts as [Hr0 Hhosts].
  pose proof (compare_body_frame entries k r0 s) as Hframe.
  pose proof (fun j entry => compare_body_settles entries k r0 s j entry) as Hsettle.
  rewrite compare_loop_cons in Hout, Hlayout |- *.
  destruct (compare_body entries k r0 s) as [[[[e |] | p] s1] tr1]; try done.
  unfold outcome_of at 1 in Hout. unfold trace_of at 1 in Hlayout.
  unfold state_of at 1.
  unfold outcome_of, state_of, trace_of in Hframe, Hsettle.
  cbn [fst snd] in *.
  apply elem_of_cons in Hr as [-> | Hr].
  - destruct (find_title_entry _ _ _ Hfind) as (e & He & Htitle).
    assert (e = entry) as -> by congruence.
    rewrite (compare_loop_preserves entries l (S k) s1 j entry "password" Hnd Hentry)
      by (by rewrite Htitle).
    apply (Hsettle j entry Hfind Hentry); [by eapply fields_NoDup | | done].
    intros Hin. eapply Hlayout; [| done]. apply elem_of_app. by left.
  - eapply (IH Hhosts (S k) s1 Hout); [| exact Hr | exact Hfind | exact Hentry].
    intros j' i' entry' Hin Hentry'.
    eapply password_at_1_changed; [exact Hframe |].
    eapply Hlayout; [| done]. apply elem_of_app. by right.
Qed.

Lemma created_app (tr1 tr2 : list Event) :
  created (tr1 ++ tr2) = created tr1 ++ created tr2.
Proof. unfold created. apply omap_app. Qed.

(** A create action that returns nil after a vault lookup that found one
    vault has stored its item. *)
Lemma compare_body_created (entries : list Item) (k : nat) (r : LapsEntry) s :
  find_title (dnshostname r) entries 0 = None ->
  outcome_of (compare_body entries k r s) = Return None ->
  Forall lookup_found_one (trace_of (compare_body entries k r s)) ->
  exists item, item ∈ created (trace_of (compare_body entries k r s))
               /\ Data_Title item = dnshostname r.
Proof.
  intros Hfind. rewrite (compare_body_unmatched _ _ _ _ Hfind).
  unfold outcome_of at 1, trace_of at 1. cbn [fst snd].
  rewrite CreateOnPassEntryFromLapsEntry_run.
  destruct (NewClientFromEnvironment (world s)); [done |]. cbn zeta.
  destruct (GetVaultsByTitle _ (world s)) as [[vaults err] w1]. cbn [fst snd].
  destruct err as [e |]; [done |].
  destruct vaults as [| vault [| vault' vaults]].
  - intros _ Hone. unfold trace_of in Hone. cbn [snd] in Hone.
    apply Forall_cons in Hone as [_ Hone]. apply Forall_cons in Hone as [Hone _].
    done.
  - unfold outcome_of, trace_of. cbn [fst snd].
    set (item := new_item _ _ _ _ _ _ _).
    destruct (CreateItem item (Vault_ID vault) _) as [[e |] w2]; cbn [fst snd];
      [done |].
    intros _ _. exists item. split; [| done].
    cbn. apply elem_of_cons. by left.
  - intros _ Hone. unfold trace_of in Hone. cbn [snd] in Hone.
    apply Forall_cons in Hone as [_ Hone]. apply Forall_cons in Hone as [Hone _].
    done.
Qed.

Lemma compare_loop_created (entries : list Item) (l : list LapsEntry) (k : nat) s :
  outcome_of (compare_loop entries l k s) = Return None ->
  Forall lookup_found_one (trace_of (compare_loop entries l k s)) ->
  forall r, r ∈ l -> find_title (dnshostname r) entries 0 = None ->
    exists item, item ∈ created (trace_of (compare_loop entries l k s))
                 /\ Data_Title item = dnshostname r.
Proof.
  revert k s. induction l as [| r0 l IH]; intros k s Hout Hone r Hr Hfind;
    [by inversion Hr |].
  pose proof (compare_body_created entries k r0 s) as Hbody.
  rewrite compare_loop_cons in Hout, Hone |- *.
  destruct (compare_body entries k r0 s) as [[[[e |] | p] s1] tr1]; try done.
  unfold outcome_of at 1 in Hout. unfold trace_of at 1 in Hone.
  unfold trace_of at 1.
  unfold outcome_of, trace_of in Hbody. cbn [fst snd] in *.
  apply Forall_app in Hone as [Hone1 Hone2]. rewrite created_app.
  apply elem_of_cons in Hr as [-> | Hr].
  - destruct (Hbody Hfind eq_refl Hone1) as (item & Hitem & Htitle).
    exists item. split; [apply elem_of_app; by left | done].
  - destruct (IH (S k) s1 Hout Hone2 r Hr Hfind) as (item & Hitem & Htitle).
    exists item. split; [apply elem_of_app; by right | done].
Qed.

(** A record that agrees with what [GetValue("password")] reads from its
    entry gets no update action. *)
Lemma compare_loop_no_update (entries : list Item) (l : list LapsEntry) (k : nat) s :
  NoDup (dnshostname <$> l) ->
  NoDup (concat (Item_Fields <$> entries)) ->
  forall i r j entry,
    k <= i -> l !! (i - k) = Some r ->
    find_title (dnshostname r) entries 0 = Some j ->
    entries !! j = Some entry ->
    GetValue_fields (heap s) (Item_Fields entry) "password" = Return (password r) ->
    forall j', CallUpdate j' i ∉ trace_of (compare_loop entries l k s).
Proof.
  intros Hhosts Hnd. revert k s.
  induction l as [| r0 l IH]; intros k s i r j entry Hk Hr Hfind Hentry Hstored j' Hin;
    [by inversion Hin |].
  rewrite fmap_cons in Hhosts. apply NoDup_cons in Hhosts as [Hr0 Hhosts].
  apply compare_loop_event in Hin as [Hin | [_ Hin]].
  - pose proof Hin as Hin'.
    apply compare_body_update_event in Hin' as [-> _].
    rewrite Nat.sub_diag in Hr. injection Hr as ->.
    rewrite (compare_body_matched _ _ _ _ _ _ Hfind Hentry), Hstored in Hin.
    rewrite String.eqb_refl in Hin. by inversion Hin.
  - pose proof Hin as Hin'.
    apply compare_loop_update_event in Hin' as (r' & Hk' & _ & _).
    replace (i - k) with (S (i - S k)) in Hr by lia. cbn in Hr.
    apply (IH Hhosts (S k) _ i r j entry) in Hin; try done.
    destruct (find_title_entry _ _ _ Hfind) as (e & He & Htitle).
    assert (e = entry) as -> by congruence.
    rewrite (compare_body_preserves entries k r0 s j entry "password" Hnd Hentry);
      [done |].
    rewrite Htitle. intros Heq. apply Hr0. rewrite <- Heq.
    apply list_elem_of_fmap. exists r. split; [done |].
    by eapply list_elem_of_lookup_2.
Qed.

(** The second snapshot, entry by entry. *)
Lemma snapshot_lookup (entries1 entries2 : list Item)
    (h1 h2 : gmap loc ItemField) (rest : list ItemData) (j : nat) (e1 : Item) :
  snapshot h2 <$> entries2 = (snapshot h1 <$> entries1) ++ rest ->
  entries1 !! j = Some e1 ->
  exists e2, entries2 !! j = Some e2 /\ snapshot h2 e2 = snapshot h1 e1.
Proof.
  intros Hsnap He1.
  assert (Hj : (snapshot h2 <$> entries2) !! j = Some (snapshot h1 e1)).
  { rewrite Hsnap. apply lookup_app_l_Some. by rewrite list_lookup_fmap, He1. }
  rewrite list_lookup_fmap in Hj.
  destruct (entries2 !! j) as [e2 |]; cbn in Hj; [| done].
  exists e2. split; [done | congruence].
Qed.

Lemma snapshot_title (h : gmap loc ItemField) (e : Item) :
  Data_Title (snapshot h e) = Item_Title e.
Proof. reflexivity. Qed.

Lemma snapshot_member (entries2 : list Item) (h2 : gmap loc ItemField)
    (vault : list ItemData) (item : ItemData) :
  snapshot h2 <$> entries2 = vault -> item ∈ vault ->
  exists e2, e2 ∈ entries2 /\ Item_Title e2 = Data_Title item.
Proof.
  intros <- Hin. apply list_elem_of_fmap in Hin as (e2 & -> & He2).
  by exists e2.
Qed.

(** The first entry with a title is the same in the second snapshot. *)
Lemma find_title_second (entries1 entries2 : list Item)
    (h1 h2 : gmap loc ItemField) (rest : list ItemData) (host : string) (j : nat) :
  snapshot h2 <$> entries2 = (snapshot h1 <$> entries1) ++ rest ->
  find_title host entries1 0 = Some j ->
  find_title host entries2 0 = Some j.
Proof.
  intros Hsnap Hfind.
  apply find_title_Some in Hfind as (e1 & _ & He1 & Htitle & Hfirst).
  rewrite Nat.sub_0_r in He1, Hfirst.
  destruct (snapshot_lookup _ _ _ _ _ _ _ Hsnap He1) as (e2 & He2 & Hsame).
  apply find_title_Some. exists e2. rewrite Nat.sub_0_r.
  repeat split; [lia | done | |].
  - by rewrite <- (snapshot_title h2), Hsame.
  - intros j' e2' Hj' He2'.
    destruct (lookup_lt_is_Some_2 entries1 j') as [e1' He1'];
      [apply lookup_lt_Some in He1; lia |].
    destruct (snapshot_lookup _ _ _ _ _ _ _ Hsnap He1') as (e2'' & He2'' & Hsame').
    assert (e2'' = e2') as -> by congruence.
    rewrite <- (snapshot_title h2), Hsame'. by apply (Hfirst j' e1').
Qed.

(** What a second run does settle.  Let the first run return nil on
    records with pairwise distinct host names and on entries that share
    no field object, with every vault lookup finding exactly one vault and
    every updated entry laid out so that the field at index 1 is the
    first one labelled ["password"]; and let the second run start from a
    snapshot of the vault after the first run (its entries with the
    values they hold now, followed by the items created, with the fields
    the create path gave them).  Then the second run performs no create
    action, and no update action for any record that matched an entry in
    the first run. *)
Lemma second_run_settled (records : list LapsEntry)
    (entries1 entries2 : list Item) (s1 s2 : State W) :
  NoDup (dnshostname <$> records) ->
  NoDup (concat (Item_Fields <$> entries1)) ->
  NoDup (concat (Item_Fields <$> entries2)) ->
  outcome_of (CompareLapsToOnepass records entries1 s1) = Return None ->
  Forall lookup_found_one (trace_of (CompareLapsToOnepass records entries1 s1)) ->
  (forall j i entry,
     CallUpdate j i ∈ trace_of (CompareLapsToOnepass records entries1 s1) ->
     entries1 !! j = Some entry -> password_at_1 (heap s1) entry) ->
  snapshot (heap s2) <$> entries2
  = vault_after entries1 (heap (state_of (CompareLapsToOnepass records entries1 s1)))
      (trace_of (CompareLapsToOnepass records entries1 s1)) ->
  (forall i, CallCreate i ∉ trace_of (CompareLapsToOnepass records entries2 s2))
  /\ (forall i r j,
        records !! i = Some r ->
        (exists e, e ∈ entries1 /\ Item_Title e = dnshostname r) ->
        CallUpdate j i ∉ trace_of (CompareLapsToOnepass records entries2 s2)).
Proof.
  unfold CompareLapsToOnepass, vault_after.
  intros Hhosts Hnd1 Hnd2 Hout Hone Hlayout Hsnap. split.
  - intros i Hin.
    apply compare_loop_create_event in Hin as (r & _ & Hr & Hnone).
    rewrite Nat.sub_0_r in Hr. apply list_elem_of_lookup_2 in Hr.
    assert (Hitem : exists item,
              item ∈ (snapshot (heap (state_of (compare_loop entries1 records 0 s1)))
                        <$> entries1)
                     ++ created (trace_of (compare_loop entries1 records 0 s1))
              /\ Data_Title item = dnshostname r).
    { destruct (find_title (dnshostname r) entries1 0) as [j |] eqn:Hfind.
      - apply find_title_entry in Hfind as (e1 & He1 & Htitle).
        eexists. split; [| by rewrite snapshot_title].
        apply elem_of_app. left. apply list_elem_of_fmap_2.
        by eapply list_elem_of_lookup_2.
      - destruct (compare_loop_created entries1 records 0 s1 Hout Hone r Hr Hfind)
          as (item & Hitem & Htitle).
        exists item. split; [apply elem_of_app; by right | done]. }
    destruct Hitem as (item & Hitem & Htitle).
    destruct (snapshot_member _ _ _ _ Hsnap Hitem) as (e2 & He2 & Htitle2).
    eapply find_title_None; [exact Hnone | exact He2 | congruence].
  - intros i r j Hr (e & He & Htitle) Hin.
    destruct (find_title (dnshostname r) entries1 0) as [j1 |] eqn:Hfind;
      [| by eapply find_title_None].
    destruct (find_title_lookup _ _ _ Hfind) as [entry1 Hentry1].
    pose proof (compare_loop_settles entries1 records 0 s1 Hhosts Hnd1 Hout Hlayout
                  r j1 entry1 (list_elem_of_lookup_2 _ _ _ Hr) Hfind Hentry1)
      as Hsettled.
    destruct (snapshot_lookup _ _ _ _ _ _ _ Hsnap Hentry1)
      as (entry2 & Hentry2 & Hsame).
    revert Hin. eapply (compare_loop_no_update entries2 records 0 s2 Hhosts Hnd2);
      [lia | by rewrite Nat.sub_0_r | | exact Hentry2 |].
    + by eapply find_title_second.
    + rewrite <- Hsettled. apply GetValue_fields_ext.
      by injection Hsame.
Qed.

End Reconcile.

(** * Concrete runs *)

Section Runs.

(** Proves a decidable statement about concrete data by evaluation. *)
Ltac by_evaluation := refine (bool_decide_unpack _ _); vm_compute; exact I.

(** The instance of the amended C1 with two unmatched records and a
    server that accepts every write. *)
Lemma unmatched_record_created_witness :
  actions_for 1
    (trace_of (CompareLapsToOnepass [pc01; pc02] [] (mkState ∅ healthy)))
  = [CallCreate 1]
  /\ StronglySorted lt
       (action_indices
          (trace_of (CompareLapsToOnepass [pc01; pc02] [] (mkState ∅ healthy)))).
Proof.
  destruct (unmatched_record_created [pc01; pc02] [] (mkState ∅ healthy) 1 pc02)
    as (Hreached & _ & Horder).
  - reflexivity.
  - intros e He. inversion He.
  - split; [apply Hreached; reflexivity | exact Horder].
Defined.

(** C1 as stated fails: when the server refuses the first creation the
    pass returns that error, and the second record, which matches no
    title either, gets no create action. *)
Lemma create_skipped_after_error :
  [pc01; pc02] !! 1 = Some pc02
  /\ find_title (dnshostname pc02) [] 0 = None
  /\ outcome_of (CompareLapsToOnepass [pc01; pc02] [] (mkState ∅ create_fails))
     = Return (Some "503 Service Unavailable")
  /\ actions_for 1
       (trace_of (CompareLapsToOnepass [pc01; pc02] [] (mkState ∅ create_fails)))
     = [].
Proof. repeat split; vm_compute; reflexivity. Qed.

(** The instance of the amended C2: the record of PC02.domain is settled,
    the record of PC01.domain after it has a new password; of the two
    entries titled PC01.domain the first one, at index 1 behind the entry
    of PC02.domain, is the one updated. *)
Lemma matched_record_updated_witness :
  actions_for 1
    (trace_of (CompareLapsToOnepass settled_then_new three_entries
                 (mkState three_entries_heap healthy)))
  = [CallUpdate 1 1].
Proof.
  destruct (matched_record_updated settled_then_new three_entries
              (mkState three_entries_heap healthy) 1 1
              (laps "PC01.domain" "new") (login_item "PC01.domain" 4)
              5 (field "PASSWORD" "password" "old")) as [Hupdate _].
  - by_evaluation.
  - by_evaluation.
  - reflexivity.
  - reflexivity.
  - reflexivity.
  - intros j' e' Hj' He'. destruct j' as [| j']; [| lia].
    injection He' as <-. discriminate.
  - vm_compute. reflexivity.
  - exists 4, (field "USERNAME" "username" "Administrator"),
           5, (field "PASSWORD" "password" "old").
    repeat split; first [discriminate | vm_compute; reflexivity].
  - reflexivity.
  - vm_compute. reflexivity.
  - apply Hupdate. discriminate.
Defined.

(** C2 as stated fails: the second record matches the entry and its
    password differs from the one stored in the password slot of the
    entry, but the pass has already returned with the error of the first
    record's creation, and no update action is performed. *)
Lemma update_skipped_after_error :
  [pc01; pc02] !! 1 = Some pc02
  /\ find_title (dnshostname pc02) [login_item "PC02.domain" 1] 0 = Some 0
  /\ Item_Fields (login_item "PC02.domain" 1) !! 1 = Some 2
  /\ login_fields 1 "old" ∅ !! 2 = Some (field "PASSWORD" "password" "old")
  /\ GetValue_fields (login_fields 1 "old" ∅)
       (Item_Fields (login_item "PC02.domain" 1)) "password" = Return "old"
  /\ password pc02 <> "old"
  /\ actions_for 1
       (trace_of (CompareLapsToOnepass [pc01; pc02] [login_item "PC02.domain" 1]
                    (mkState (login_fields 1 "old" ∅) create_fails)))
     = [].
Proof. repeat split; try discriminate; vm_compute; reflexivity. Qed.

(** C5 on an entry whose field at index 1 is the password and whose field
    at index 2 is not tagged ["NOTES"]: the update panics at the second
    check and sends nothing, but by then it has overwritten the [Value] of
    the field at index 1. *)
Theorem UpdateOnPassEntry_writes_before_notes_check :
  let h := <[3 := field EmptyString "one-time password" "otpauth://totp/pc01"]>
             (login_fields 1 "old" ∅) in
  let res := UpdateOnPassEntry (login_item "PC01.domain" 1)
               (laps "PC01.domain" "new") (mkState h healthy) in
  outcome_of res
  = Panic (LogPanic "UpdateOnPassEntry: Fields[2] purpose is not NOTES on PC01.domain")
  /\ writes (trace_of res) = []
  /\ Field_Value <$> h !! 2 = Some "old"
  /\ Field_Value <$> heap (state_of res) !! 2 = Some "new".
Proof. repeat split; vm_compute; reflexivity. Qed.

(** C6 where the server refuses the item update: [UpdateOnPassEntry]
    drops the answer of [client.UpdateItem], the pass goes on to the next
    record, applies its creation and returns nil. *)
Theorem UpdateItem_error_dropped :
  let res := CompareLapsToOnepass [laps "PC01.domain" "new"; pc02]
               [login_item "PC01.domain" 1]
               (mkState (login_fields 1 "old" ∅) update_fails) in
  outcome_of res = Return None
  /\ actions (trace_of res) = [CallUpdate 0 0; CallCreate 1]
  /\ omap write_answer (trace_of res) = [Some "503 Service Unavailable"; None].
Proof. repeat split; vm_compute; reflexivity. Qed.

(** C7 as stated fails: after a pass with one update action the field
    object at index 1 of the entry holds the new password. *)
Lemma pass_mutates_field_objects :
  let s := mkState (login_fields 1 "old" ∅) healthy in
  let res := CompareLapsToOnepass [laps "PC01.domain" "new"]
               [login_item "PC01.domain" 1] s in
  outcome_of res = Return None
  /\ Item_Fields (login_item "PC01.domain" 1) !! 1 = Some 2
  /\ Field_Value <$> heap s !! 2 = Some "old"
  /\ Field_Value <$> heap (state_of res) !! 2 = Some "new".
Proof. repeat split; vm_compute; reflexivity. Qed.

(** C8 on the create path: when the vault lookup finds no vault, or two,
    [CreateOnPassEntryFromLapsEntry] creates nothing but returns nil, and
    the pass counts the record as created and goes on; the read path
    returns an error on the same lookups. *)
Theorem create_path_returns_nil_without_vault :
  outcome_of (CreateOnPassEntryFromLapsEntry pc01 (mkState ∅ no_vault)) = Return None
  /\ outcome_of (CreateOnPassEntryFromLapsEntry pc01 (mkState ∅ two_vaults))
     = Return None
  /\ writes (trace_of (CreateOnPassEntryFromLapsEntry pc01 (mkState ∅ no_vault))) = []
  /\ outcome_of (CompareLapsToOnepass [pc01; pc02] [] (mkState ∅ no_vault))
     = Return None
  /\ actions (trace_of (CompareLapsToOnepass [pc01; pc02] [] (mkState ∅ no_vault)))
     = [CallCreate 0; CallCreate 1]
  /\ outcome_of (GetOnePassEntries (mkState ∅ no_vault))
     = Return ([], Some "vault LAPS not found")
  /\ outcome_of (GetOnePassEntries (mkState ∅ two_vaults))
     = Return ([], Some "fault LAPS found more than once").
Proof. repeat split; vm_compute; reflexivity. Qed.

(** The instance of the amended C9 on an entry with two fields, the
    second one the password. *)
Lemma UpdateOnPassEntry_bounds_witness :
  outcome_of
    (UpdateOnPassEntry
       {| Item_ID := "item-PC01.domain"; Item_Title := "PC01.domain";
          Item_Category := "LOGIN"; Item_Vault_ID := "v1"; Item_Fields := [1; 2] |}
       (laps "PC01.domain" "new")
       (mkState (login_fields 1 "old" ∅) healthy))
  = Panic (IndexOutOfRange 2 2).
Proof.
  destruct (UpdateOnPassEntry_bounds
              {| Item_ID := "item-PC01.domain"; Item_Title := "PC01.domain";
                 Item_Category := "LOGIN"; Item_Vault_ID := "v1";
                 Item_Fields := [1; 2] |}
              (laps "PC01.domain" "new")
              (mkState (login_fields 1 "old" ∅) healthy))
    as (_ & Htwo & _).
  - reflexivity.
  - intros p Hp. cbn [Item_Fields] in Hp.
    apply elem_of_cons in Hp as [-> | Hp]; [by eexists |].
    apply elem_of_cons in Hp as [-> | Hp]; [by eexists |].
    inversion Hp.
  - destruct (Htwo eq_refl 2 (field "PASSWORD" "password" "old") eq_refl eq_refl)
      as [Hpassword _].
    exact (Hpassword eq_refl).
Defined.

(** C9 as stated fails: on an entry with two fields whose field at index
    1 is not the password, the update ends in the explicit [log.Panicf],
    not in an access out of range. *)
Lemma short_entry_takes_panicf_path :
  let entry := {| Item_ID := "item-PC01.domain"; Item_Title := "PC01.domain";
                  Item_Category := "LOGIN"; Item_Vault_ID := "v1";
                  Item_Fields := [1; 2] |} in
  let h := <[2 := field "USERNAME" "password" "old"]> (login_fields 1 "old" ∅) in
  length (Item_Fields entry) < 3
  /\ outcome_of (UpdateOnPassEntry entry (laps "PC01.domain" "new")
                   (mkState h healthy))
     = Panic (LogPanic "UpdateOnPassEntry: Fields[1] purpose is not PASSWORD on PC01.domain")
  /\ outcome_of (CompareLapsToOnepass [laps "PC01.domain" "new"] [entry]
                   (mkState h healthy))
     = Panic (LogPanic "UpdateOnPassEntry: Fields[1] purpose is not PASSWORD on PC01.domain").
Proof. repeat split; try (cbn; lia); vm_compute; reflexivity. Qed.

(** The first run updates the item of PC01.domain and creates one for
    PC02.domain; the second run, on the vault the first one left, creates
    nothing and does not update the item of PC01.domain. *)
Lemma second_run_settled_witness :
  (forall i, CallCreate i ∉ trace_of (pass_on two_hosts (vault_left two_hosts one_item)))
  /\ (forall j, CallUpdate j 0
                ∉ trace_of (pass_on two_hosts (vault_left two_hosts one_item))).
Proof.
  destruct (second_run_settled two_hosts
              (entries_read one_item)
              (entries_read (vault_left two_hosts one_item))
              (state_of (read_vault one_item))
              (state_of (read_vault (vault_left two_hosts one_item))))
    as [Hcreate Hupdate].
  - by_evaluation.
  - by_evaluation.
  - by_evaluation.
  - vm_compute. reflexivity.
  - let tr := eval vm_compute in
        (trace_of (CompareLapsToOnepass two_hosts (entries_read one_item)
                     (state_of (read_vault one_item)))) in
    change (Forall lookup_found_one tr).
    repeat (apply Forall_cons; split; [first [exact I | reflexivity] |]).
    apply Forall_nil. exact I.
  - intros j i entry _ Hentry.
    destruct j as [| j]; vm_compute in Hentry; [| discriminate].
    injection Hentry as <-.
    exists 1, (field "USERNAME" "username" "Administrator"),
           2, (field "PASSWORD" "password" "old").
    repeat split; first [discriminate | vm_compute; reflexivity].
  - vm_compute. reflexivity.
  - split; [exact Hcreate |].
    intros j. apply (Hupdate 0 (laps "PC01.domain" "new") j); [reflexivity |].
    exists (login_item "PC01.domain" 1). split; [| reflexivity].
    vm_compute. left.
Defined.

(** With the same host twice in the records, under two passwords, the
    first run creates two items with one title; the second run, on the
    vault the first one left, resolves both records to the first of them
    and performs an update for the second record. *)
Lemma second_run_updates_again :
  outcome_of (pass_on same_host_twice (vault_with [])) = Return None
  /\ actions (trace_of (pass_on same_host_twice (vault_with [])))
     = [CallCreate 0; CallCreate 1]
  /\ snapshot (heap (state_of (read_vault (vault_left same_host_twice (vault_with [])))))
       <$> entries_read (vault_left same_host_twice (vault_with []))
     = vault_after (entries_read (vault_with []))
         (heap (state_of (pass_on same_host_twice (vault_with []))))
         (trace_of (pass_on same_host_twice (vault_with [])))
  /\ actions_for 1
       (trace_of (pass_on same_host_twice
                    (vault_left same_host_twice (vault_with []))))
     = [CallUpdate 0 1].
Proof. repeat split; vm_compute; reflexivity. Qed.

(** C4 on one record and an empty vault.  The first run returns nil
    after one create; the vault it leaves holds the item as the create
    path built it, with the record's password in the field at index 1,
    purpose PASSWORD, label ["Password"].  The second run reads exactly
    that vault, and performs an update for the record all the same: the
    comparison looks the password up under the label ["password"], finds
    no such field and reads the empty string.  A third run does it
    again. *)
Theorem second_run_updates_created_item :
  let first := pass_on [pc01] (vault_with []) in
  let vault1 := vault_left [pc01] (vault_with []) in
  let second := pass_on [pc01] vault1 in
  outcome_of first = Return None
  /\ actions (trace_of first) = [CallCreate 0]
  /\ snapshot (heap (state_of (read_vault vault1))) <$> entries_read vault1
     = vault_after (entries_read (vault_with [])) (heap (state_of first))
         (trace_of first)
  /\ omap (fun d => match Data_Fields d !! 1 with
                    | Some (Some f) =>
                        Some (Field_Purpose f, Field_Label f, Field_Value f)
                    | _ => None
                    end) (sw_items vault1)
     = [("PASSWORD", "Password", password pc01)]
  /\ (fun e => GetValue_fields (heap (state_of (read_vault vault1)))
                 (Item_Fields e) "password") <$> entries_read vault1
     = [Return EmptyString]
  /\ outcome_of second = Return None
  /\ actions (trace_of second) = [CallUpdate 0 0]
  /\ actions (trace_of (pass_on [pc01] (vault_left [pc01] vault1)))
     = [CallUpdate 0 0].
Proof. repeat split; vm_compute; reflexivity. Qed.

End Runs.

(** * Further properties *)

(** ** [getTimeFromFiletime] is strictly increasing *)

Section FiletimeOrder.

Local Open Scope Z_scope.

(** X1.  On the tick counts [0 <= n < m] representable as [int64],
    [getTimeFromFiletime] is strictly increasing, also across the chunks of
    the loop: a larger tick count gives a later instant, so two different
    tick counts never give the same time. *)
Theorem getTimeFromFiletime_strictly_increasing (n m : Z) :
  0 <= n -> n < m -> m <= MaxInt64 ->
  Before (getTimeFromFiletime n) (getTimeFromFiletime m) = true
  /\ getTimeFromFiletime n <> getTimeFromFiletime m.
Proof.
  intros Hn Hnm Hm.
  destruct (getTimeFromFiletime_ns n ltac:(lia)) as [Hns Hnorm].
  destruct (getTimeFromFiletime_ns m ltac:(lia)) as [Hms Hmorm].
  split.
  - apply Before_lt; [exact Hnorm | exact Hmorm | lia].
  - intros Heq. rewrite Heq in Hns. lia.
Qed.

(** The instance of X1 at the last tick count of the first chunk and the
    first one of the second. *)
Lemma getTimeFromFiletime_strictly_increasing_witness :
  Before (getTimeFromFiletime 92233720368547758)
         (getTimeFromFiletime 92233720368547759) = true
  /\ getTimeFromFiletime 92233720368547758
     <> getTimeFromFiletime 92233720368547759.
Proof.
  apply (getTimeFromFiletime_strictly_increasing
           92233720368547758 92233720368547759); unfold MaxInt64; lia.
Defined.

End FiletimeOrder.

(** ** More on the reconciliation pass and its appliers *)

Section PassProperties.

Context {W : Type} `{Connect W}.

Implicit Types (s : State W) (tr : list Event).

(** X2.  On a vault that already agrees with the records, the pass does
    nothing at all: when every record has an entry with its host name as
    title, and every such entry stores the record's password, the pass
    returns nil, sends no request (not even a vault lookup) and leaves the
    state as it was. *)
Theorem settled_pass_is_silent (records : list LapsEntry) (entries : list Item) s :
  (forall r, r ∈ records ->
     (exists e, e ∈ entries /\ Item_Title e = dnshostname r)
     /\ (forall e, e ∈ entries -> Item_Title e = dnshostname r ->
           GetValue_fields (heap s) (Item_Fields e) "password"
           = Return (password r))) ->
  CompareLapsToOnepass records entries s = (Return None, s, []).
Proof.
  unfold CompareLapsToOnepass. generalize 0 as k.
  induction records as [| r l IH]; intros k Hsettled; [reflexivity |].
  destruct (Hsettled r) as [(e & He & Htitle) Hstored]; [by left |].
  destruct (find_title (dnshostname r) entries 0) as [j |] eqn:Hfind;
    [| exfalso; eapply find_title_None; eauto].
  destruct (find_title_entry _ _ _ Hfind) as (entry & Hentry & Htitle').
  rewrite compare_loop_cons, (compare_body_matched _ _ _ _ _ _ Hfind Hentry).
  rewrite (Hstored entry (list_elem_of_lookup_2 _ _ _ Hentry) Htitle').
  rewrite String.eqb_refl. cbn [negb].
  rewrite IH; [reflexivity |].
  intros r' Hr'. apply Hsettled. by right.
Qed.

Lemma quiet_actions tr : quiet tr -> actions tr = [].
Proof.
  unfold actions. induction 1 as [| ev tr Hev Htr IH]; [done |].
  rewrite filter_cons_False; [done |]. rewrite Hev. by intros [x Hx].
Qed.

Lemma Update_writes (entry : Item) (r : LapsEntry) s :
  length (writes (trace_of (UpdateOnPassEntry entry r s))) <= 1.
Proof.
  rewrite UpdateOnPassEntry_run.
  repeat first [ progress cbn zeta | case_match ]; cbn;
    repeat case_decide; cbn; try lia; done.
Qed.

Lemma Create_writes (r : LapsEntry) s :
  length (writes (trace_of (CreateOnPassEntryFromLapsEntry r s))) <= 1.
Proof.
  rewrite CreateOnPassEntryFromLapsEntry_run.
  repeat first [ progress cbn zeta | case_match ]; cbn;
    repeat case_decide; cbn; try lia; done.
Qed.

(** At most one write request per iteration, and only after an action. *)
Lemma compare_body_writes (entries : list Item) (k : nat) (r : LapsEntry) s :
  length (writes (trace_of (compare_body entries k r s)))
  <= length (actions (trace_of (compare_body entries k r s)))
  /\ length (actions (trace_of (compare_body entries k r s))) <= 1.
Proof.
  destruct (find_title (dnshostname r) entries 0) as [j |] eqn:Hfind.
  - destruct (find_title_lookup _ _ _ Hfind) as [entry Hentry].
    rewrite (compare_body_matched _ _ _ _ _ _ Hfind Hentry).
    destruct (GetValue_fields _ _ _) as [stored | p]; [| cbn; lia].
    destruct (negb _); [| cbn; lia].
    change (trace_of (?a, ?b, ?c)) with c.
    change (actions (CallUpdate j k :: ?tr)) with (CallUpdate j k :: actions tr).
    change (writes (CallUpdate j k :: ?tr)) with (writes tr).
    rewrite (quiet_actions _ (Update_quiet entry r s)).
    pose proof (Update_writes entry r s). unfold trace_of in *. cbn [length]. lia.
  - rewrite (compare_body_unmatched _ _ _ _ Hfind).
    change (trace_of (?a, ?b, ?c)) with c.
    change (actions (CallCreate k :: ?tr)) with (CallCreate k :: actions tr).
    change (writes (CallCreate k :: ?tr)) with (writes tr).
    rewrite (quiet_actions _ (Create_quiet r s)).
    pose proof (Create_writes r s). unfold trace_of in *. cbn [length]. lia.
Qed.

(** X3.  The pass sends at most one write request per action and
    performs at most one action per record: the number of item creations
    and item updates requested from the server never exceeds the number
    of records. *)
Theorem pass_writes_bounded (records : list LapsEntry) (entries : list Item) s :
  length (writes (trace_of (CompareLapsToOnepass records entries s)))
  <= length (actions (trace_of (CompareLapsToOnepass records entries s)))
  /\ length (actions (trace_of (CompareLapsToOnepass records entries s)))
     <= length records.
Proof.
  unfold CompareLapsToOnepass. generalize 0 as k. revert s.
  induction records as [| r l IH]; intros s k; [cbn; lia |].
  rewrite compare_loop_cons.
  pose proof (compare_body_writes entries k r s) as Hbody.
  destruct (compare_body entries k r s) as [[[[e |] | p] s1] tr1];
    change (trace_of (?a, ?b, ?c)) with c in *; cbn [length]; [lia | | lia].
  specialize (IH s1 (S k)). unfold writes, actions in *.
  rewrite !filter_app, !length_app. lia.
Qed.


Lemma compare_body_error_origin (entries : list Item) (k : nat) (r : LapsEntry) s
    (e : string) :
  outcome_of (compare_body entries k r s) = Return (Some e) ->
  error_origin e (state_of (compare_body entries k r s))
    (trace_of (compare_body entries k r s)).
Proof.
  destruct (find_title (dnshostname r) entries 0) as [j |] eqn:Hfind.
  - destruct (find_title_lookup _ _ _ Hfind) as [entry Hentry].
    rewrite (compare_body_matched _ _ _ _ _ _ Hfind Hentry).
    destruct (GetValue_fields _ _ _) as [stored | p]; [| discriminate].
    destruct (negb _); [| discriminate].
    unfold outcome_of at 1, state_of at 1, trace_of at 1. cbn [fst snd].
    intros Hout. left.
    pose proof (UpdateOnPassEntry_drops_answer _ _ _ _ Hout) as Hclient.
    rewrite UpdateOnPassEntry_run, Hclient. exact Hclient.
  - rewrite (compare_body_unmatched _ _ _ _ Hfind).
    unfold outcome_of at 1, state_of at 1, trace_of at 1. cbn [fst snd].
    rewrite CreateOnPassEntryFromLapsEntry_run.
    destruct (NewClientFromEnvironment (world s)) as [e0 |] eqn:Hclient.
    { intros [= ->]. by left. }
    cbn zeta.
    destruct (GetVaultsByTitle _ _) as [[vaults err] w1]. cbn [fst snd].
    destruct err as [e1 |].
    { intros [= ->]. right. left. by eexists _, _. }
    destruct vaults as [| vault [| vault' vaults]]; [discriminate | | discriminate].
    unfold outcome_of, state_of, trace_of. cbn [fst snd].
    intros [= Hans]. right. right. eexists _, _. cbn. by rewrite Hans.
Qed.

(** X4.  An error the pass returns has one of three origins: the Connect
    client could not be built from the environment, the vault lookup of a
    create failed, or the server refused an item creation; in the last two
    cases the failed request is the last one the pass sent.  A refused
    item update is never the reason. *)
Theorem pass_error_origin (records : list LapsEntry) (entries : list Item) s
    (e : string) :
  outcome_of (CompareLapsToOnepass records entries s) = Return (Some e) ->
  NewClientFromEnvironment
    (world (state_of (CompareLapsToOnepass records entries s))) = Some e
  \/ (exists title vaults,
        last (trace_of (CompareLapsToOnepass records entries s))
        = Some (ReqGetVaultsByTitle title vaults (Some e)))
  \/ (exists item vault,
        last (trace_of (CompareLapsToOnepass records entries s))
        = Some (ReqCreateItem item vault (Some e))).
Proof.
  unfold CompareLapsToOnepass. generalize 0 as k. revert s.
  induction records as [| r l IH]; intros s k; [discriminate |].
  rewrite compare_loop_cons.
  pose proof (compare_body_error_origin entries k r s) as Hbody.
  destruct (compare_body entries k r s) as [[[[e1 |] | p] s1] tr1];
    [| | discriminate].
  - intros [= ->]. exact (Hbody e eq_refl).
  - change (outcome_of (?a, ?b, ?c)) with a.
    change (state_of (?a, ?b, ?c)) with b.
    change (trace_of (?a, ?b, ?c)) with c.
    intros Hrest. specialize (IH s1 (S k) Hrest).
    destruct IH as [Hclient | [(title & vaults & Hlast) | (item & vault & Hlast)]].
    + by left.
    + right. left. exists title, vaults. by rewrite last_app, Hlast.
    + right. right. exists item, vault. by rewrite last_app, Hlast.
Qed.

(** X5.  The pass stops at the first record whose iteration does not
    return nil: what it did for a prefix of the records is a prefix of
    what it does for all of them, and once the prefix has failed or
    panicked the remaining records change nothing. *)
Theorem pass_stops_at_first_failure (l1 l2 : list LapsEntry) (entries : list Item) s :
  trace_of (CompareLapsToOnepass l1 entries s)
    `prefix_of` trace_of (CompareLapsToOnepass (l1 ++ l2) entries s)
  /\ (outcome_of (CompareLapsToOnepass l1 entries s) <> Return None ->
      CompareLapsToOnepass (l1 ++ l2) entries s = CompareLapsToOnepass l1 entries s).
Proof.
  unfold CompareLapsToOnepass. rewrite compare_loop_app.
  destruct (outcome_of (compare_loop entries l1 0 s)) as [[e |] | p]; split;
    try done; try (intros _; reflexivity).
  change (trace_of (?a, ?b, ?c)) with c. by apply prefix_app_r.
Qed.

(** X6.  Every action of the pass is justified by the entries it was
    given: an update of the entry at index [j] for the record at index
    [i] means that this entry is the first one whose title is the host
    name of the record, and a create for a record means that no entry has
    the host name of the record as its title. *)
Theorem pass_actions_justified (records : list LapsEntry) (entries : list Item) s :
  (forall j i, CallUpdate j i ∈ trace_of (CompareLapsToOnepass records entries s) ->
     exists r entry,
       records !! i = Some r /\ entries !! j = Some entry
       /\ Item_Title entry = dnshostname r
       /\ forall j' e', j' < j -> entries !! j' = Some e' ->
                        Item_Title e' <> dnshostname r)
  /\ (forall i, CallCreate i ∈ trace_of (CompareLapsToOnepass records entries s) ->
        exists r, records !! i = Some r
                  /\ forall e', e' ∈ entries -> Item_Title e' <> dnshostname r).
Proof.
  unfold CompareLapsToOnepass. split.
  - intros j i Hev.
    destruct (compare_loop_update_event _ _ _ _ _ _ Hev) as (r & _ & Hr & Hfind).
    rewrite Nat.sub_0_r in Hr.
    apply find_title_Some in Hfind as (entry & _ & Hentry & Htitle & Hfirst).
    rewrite Nat.sub_0_r in Hentry, Hfirst. by exists r, entry.
  - intros i Hev.
    destruct (compare_loop_create_event _ _ _ _ _ Hev) as (r & _ & Hr & Hfind).
    rewrite Nat.sub_0_r in Hr. exists r. split; [done |].
    exact (proj1 (find_title_None _ _ _) Hfind).
Qed.


Lemma compare_body_creates (entries : list Item) (k : nat) (r : LapsEntry) s :
  find_title (dnshostname r) entries 0 = None ->
  outcome_of (compare_body entries k r s) = Return None ->
  Forall lookup_found_one (trace_of (compare_body entries k r s)) ->
  exists item,
    actions (trace_of (compare_body entries k r s)) = [CallCreate k]
    /\ created (trace_of (compare_body entries k r s)) = [item]
    /\ item_for r item
    /\ heap (state_of (compare_body entries k r s)) = heap s.
Proof.
  intros Hfind. rewrite (compare_body_unmatched _ _ _ _ Hfind).
  change (outcome_of (?a, ?b, ?c)) with a.
  change (state_of (?a, ?b, ?c)) with b.
  change (trace_of (?a, ?b, ?c)) with c.
  change (actions (CallCreate k :: ?tr)) with (CallCreate k :: actions tr).
  rewrite (quiet_actions _ (Create_quiet r s)).
  rewrite CreateOnPassEntryFromLapsEntry_run.
  destruct (NewClientFromEnvironment (world s)) as [e0 |]; [discriminate |].
  cbn zeta.
  destruct (GetVaultsByTitle _ _) as [[vaults err] w1]. cbn [fst snd].
  destruct err as [e1 |]; [discriminate |].
  destruct vaults as [| vault [| vault' vaults]].
  - intros _ Hall. exfalso.
    apply Forall_cons in Hall as [_ Hall]. apply Forall_cons in Hall as [Hone _].
    discriminate Hone.
  - unfold outcome_of, state_of, trace_of. cbn [fst snd].
    intros [= Hans] _. eexists. split; [reflexivity |].
    split; [cbn; rewrite Hans; reflexivity |].
    split; [| reflexivity].
    repeat split. by eexists.
  - intros _ Hall. exfalso.
    apply Forall_cons in Hall as [_ Hall]. apply Forall_cons in Hall as [Hone _].
    discriminate Hone.
Qed.

(** X7.  Onto a vault that has none of the hosts, a pass that returns
    nil and whose vault lookups each found one vault creates exactly one
    item per record, in the order of the records: the item has the host
    name as title, the category LOGIN and three fields, the second of
    which carries the record's password with purpose PASSWORD.  No field
    object of the entries is written. *)
Theorem first_pass_creates_all (records : list LapsEntry) (entries : list Item) s :
  (forall r e, r ∈ records -> e ∈ entries -> Item_Title e <> dnshostname r) ->
  outcome_of (CompareLapsToOnepass records entries s) = Return None ->
  Forall lookup_found_one (trace_of (CompareLapsToOnepass records entries s)) ->
  actions (trace_of (CompareLapsToOnepass records entries s))
  = CallCreate <$> seq 0 (length records)
  /\ Forall2 item_for records
       (created (trace_of (CompareLapsToOnepass records entries s)))
  /\ heap (state_of (CompareLapsToOnepass records entries s)) = heap s.
Proof.
  unfold CompareLapsToOnepass. generalize 0 as k. revert s.
  induction records as [| r l IH]; intros s k Hnone Hout Hall.
  { repeat split. constructor. }
  assert (Hfind : find_title (dnshostname r) entries 0 = None).
  { apply find_title_None. intros e He. apply Hnone; [by left | done]. }
  revert Hout Hall. rewrite compare_loop_cons.
  pose proof (compare_body_creates entries k r s Hfind) as Hbody.
  destruct (compare_body entries k r s) as [[[[e1 |] | p] s1] tr1];
    [discriminate | | discriminate].
  change (outcome_of (?a, ?b, ?c)) with a.
  change (state_of (?a, ?b, ?c)) with b.
  change (trace_of (?a, ?b, ?c)) with c.
  change (outcome_of (?a, ?b, ?c)) with a in Hbody.
  change (state_of (?a, ?b, ?c)) with b in Hbody.
  change (trace_of (?a, ?b, ?c)) with c in Hbody.
  intros Hout Hall. apply Forall_app in Hall as [Hall1 Hall2].
  destruct (Hbody eq_refl Hall1) as (item & Hact & Hcreated & Hitem & Hheap).
  destruct (IH s1 (S k)) as (IHact & IHcreated & IHheap); [| done | done |].
  { intros r' e Hr' He. apply Hnone; [by right | done]. }
  unfold actions in *. rewrite filter_app, created_app, Hact, Hcreated, IHact.
  repeat split; [| by rewrite IHheap].
  by constructor.
Qed.

(** X8.  An update that returns nil sent exactly one update request,
    to the vault of the entry and for the entry as the heap holds it
    after the two writes.  In that request the field at index 1 is the old
    one with the record's password as value, and every field held in
    another object than those at index 1 and 2 is as it was before the
    call; the fields at index 1 and 2 are two different objects. *)
Theorem UpdateOnPassEntry_request (entry : Item) (r : LapsEntry) s :
  outcome_of (UpdateOnPassEntry entry r s) = Return None ->
  exists p1 f1 p2 answer,
    Item_Fields entry !! 1 = Some p1 /\ heap s !! p1 = Some f1
    /\ Item_Fields entry !! 2 = Some p2 /\ p1 <> p2
    /\ trace_of (UpdateOnPassEntry entry r s)
       = [ReqUpdateItem
            (snapshot (heap (state_of (UpdateOnPassEntry entry r s))) entry)
            (Item_Vault_ID entry) answer]
    /\ heap (state_of (UpdateOnPassEntry entry r s)) !! p1
       = Some (set_Value f1 (password r))
    /\ forall p, p <> p1 -> p <> p2 ->
         heap (state_of (UpdateOnPassEntry entry r s)) !! p = heap s !! p.
Proof.
  rewrite UpdateOnPassEntry_run.
  destruct (NewClientFromEnvironment (world s)); [discriminate |].
  destruct (Item_Fields entry !! 1) as [p1 |]; [| discriminate].
  destruct (heap s !! p1) as [f1 |] eqn:Hf1; [| discriminate].
  destruct (String.eqb (Field_Purpose f1) "PASSWORD") eqn:Hpurpose1;
    [| discriminate].
  cbn zeta.
  destruct (Item_Fields entry !! 2) as [p2 |]; [| discriminate].
  destruct (_ !! p2) as [f2 |] eqn:Hf2; [| discriminate].
  destruct (String.eqb (Field_Purpose f2) "NOTES") eqn:Hpurpose2; [| discriminate].
  intros _.
  assert (Hne : p1 <> p2).
  { intros <-. rewrite lookup_insert_eq in Hf2. injection Hf2 as <-.
    cbn in Hpurpose2. apply String.eqb_eq in Hpurpose1, Hpurpose2. congruence. }
  exists p1, f1, p2. eexists.
  unfold state_of, trace_of. cbn [fst snd heap].
  repeat split; [done | done | |].
  - by rewrite (lookup_insert_ne _ p2 p1), lookup_insert_eq by congruence.
  - intros p Hp1 Hp2.
    by rewrite (lookup_insert_ne _ p2 p), (lookup_insert_ne _ p1 p) by congruence.
Qed.

(** X22.  Of a record the pass uses the host name and the password
    and nothing else: two lists of records that agree on these two members,
    record by record, give the same run, whatever their names and
    expiration times are. *)
Theorem pass_ignores_name_and_expiration (records records' : list LapsEntry)
    (entries : list Item) s :
  Forall2 (fun r r' => dnshostname r = dnshostname r' /\ password r = password r')
    records records' ->
  CompareLapsToOnepass records entries s = CompareLapsToOnepass records' entries s.
Proof.
  unfold CompareLapsToOnepass. generalize 0 as k. intros k Hsame. revert k s.
  induction Hsame as [| r r' l l' [Hhost Hpw] _ IH]; intros k s; [reflexivity |].
  rewrite !compare_loop_cons.
  assert (Hbody : compare_body entries k r s = compare_body entries k r' s).
  { destruct r as [n h pw t], r' as [n' h' pw' t']. cbn in Hhost, Hpw. subst h' pw'.
    reflexivity. }
  rewrite Hbody.
  destruct (compare_body entries k r' s) as [[[[e |] | p] s1] tr1]; [done | | done].
  by rewrite IH.
Qed.

Lemma compare_body_without_client (entries : list Item) (k : nat) (r : LapsEntry) s
    (e : string) :
  NewClientFromEnvironment (world s) = Some e ->
  compare_body entries k r s = (Return None, s, [])
  \/ (exists ev, compare_body entries k r s = (Return (Some e), s, [ev])
                 /\ is_Some (action_record ev))
  \/ exists p, compare_body entries k r s = (Panic p, s, []).
Proof.
  intros Hclient.
  destruct (find_title (dnshostname r) entries 0) as [j |] eqn:Hfind.
  - destruct (find_title_lookup _ _ _ Hfind) as [entry Hentry].
    rewrite (compare_body_matched _ _ _ _ _ _ Hfind Hentry).
    destruct (GetValue_fields _ _ _) as [stored | p]; [| right; right; by eexists].
    destruct (negb _); [| by left].
    rewrite UpdateOnPassEntry_run, Hclient. right. left.
    eexists. split; [reflexivity | by eexists].
  - rewrite (compare_body_unmatched _ _ _ _ Hfind).
    rewrite CreateOnPassEntryFromLapsEntry_run, Hclient. right. left.
    eexists. split; [reflexivity | by eexists].
Qed.

(** X23.  When the Connect client cannot be built from the
    environment, the pass changes nothing and sends nothing: it leaves
    the state as it was, and its trace holds at most the one action at
    which it gave up, returning the client's error. *)
Theorem pass_without_client (records : list LapsEntry) (entries : list Item) s
    (e : string) :
  NewClientFromEnvironment (world s) = Some e ->
  state_of (CompareLapsToOnepass records entries s) = s
  /\ (trace_of (CompareLapsToOnepass records entries s) = []
      \/ exists ev, trace_of (CompareLapsToOnepass records entries s) = [ev]
                    /\ is_Some (action_record ev)
                    /\ outcome_of (CompareLapsToOnepass records entries s)
                       = Return (Some e)).
Proof.
  intros Hclient. unfold CompareLapsToOnepass. generalize 0 as k.
  induction records as [| r l IH]; intros k; [split; [reflexivity | by left] |].
  rewrite compare_loop_cons.
  destruct (compare_body_without_client entries k r s e Hclient)
    as [-> | [(ev & -> & Hev) | (p & ->)]].
  - unfold outcome_of at 1, state_of at 1, trace_of at 1 2. cbn [fst snd app].
    apply IH.
  - split; [reflexivity |]. right. by exists ev.
  - split; [reflexivity | by left].
Qed.

(** X24.  A create request is only ever sent after a vault lookup,
    under the configured title, that found exactly one vault.  It goes to
    that vault, for an item that holds the record, and its answer is what
    [CreateOnPassEntryFromLapsEntry] returns; the heap is not touched. *)
Theorem CreateOnPassEntryFromLapsEntry_request (r : LapsEntry) s
    (item : ItemData) (vaultID : string) (answer : error) :
  ReqCreateItem item vaultID answer
    ∈ trace_of (CreateOnPassEntryFromLapsEntry r s) ->
  exists vault,
    trace_of (CreateOnPassEntryFromLapsEntry r s)
    = [ReqGetVaultsByTitle (Getenv "OP_VAULT_TITLE" (world s)) [vault] None;
       ReqCreateItem item vaultID answer]
    /\ vaultID = Vault_ID vault /\ Data_Vault_ID item = vaultID
    /\ item_for r item
    /\ outcome_of (CreateOnPassEntryFromLapsEntry r s) = Return answer
    /\ heap (state_of (CreateOnPassEntryFromLapsEntry r s)) = heap s.
Proof.
  rewrite CreateOnPassEntryFromLapsEntry_run.
  destruct (NewClientFromEnvironment (world s)) as [e0 |].
  { intros Hin. by apply elem_of_nil in Hin. }
  cbn zeta. destruct (GetVaultsByTitle _ _) as [[vaults err] w1]. cbn [fst snd].
  destruct err as [e1 |].
  { intros Hin. by apply list_elem_of_singleton in Hin. }
  destruct vaults as [| vault [| vault' vaults]].
  - intros Hin. by apply list_elem_of_singleton in Hin.
  - unfold outcome_of, state_of, trace_of. cbn [fst snd heap].
    intros Hin. apply elem_of_cons in Hin as [Hin | Hin]; [discriminate |].
    apply list_elem_of_singleton in Hin. injection Hin as -> -> ->.
    exists vault. repeat split. by eexists.
  - intros Hin. by apply list_elem_of_singleton in Hin.
Qed.

End PassProperties.

(** ** Reading the vault *)

Section ReadVault.

Context {W : Type} `{Connect W}.

Implicit Types (s : State W) (h : gmap loc ItemField).






Lemma objects_app (ps qs : list loc) :
  objects (ps ++ qs) = objects ps ++ objects qs.
Proof. apply filter_app. Qed.

Lemma points_to_weaken h h' (ps : list loc) (fs : list (option ItemField)) :
  h ⊆ h' -> Forall2 (points_to h) ps fs -> Forall2 (points_to h') ps fs.
Proof.
  intros Hsub. induction 1 as [| p o ps fs Hp _ IH]; constructor; [| done].
  destruct o as [f |]; [| done]. destruct Hp as [Hnil Hf].
  split; [done |]. by eapply lookup_weaken.
Qed.

Lemma points_to_snapshot h (ps : list loc) (fs : list (option ItemField)) :
  h !! nil_loc = None -> Forall2 (points_to h) ps fs ->
  (fun p => h !! p) <$> ps = fs.
Proof.
  intros Hnil. induction 1 as [| p o ps fs Hp _ IH]; [done |].
  cbn. f_equal; [| done].
  destruct o as [f |]; [by destruct Hp | by rewrite Hp].
Qed.

Lemma holds_weaken h h' (it : Item) (d : ItemData) :
  h ⊆ h' -> holds h it d -> holds h' it d.
Proof.
  intros Hsub (? & ? & ? & ? & Hfields). repeat split; try done.
  by eapply points_to_weaken.
Qed.

Lemma holds_snapshot h (it : Item) (d : ItemData) :
  h !! nil_loc = None -> holds h it d -> snapshot h it = d.
Proof.
  intros Hnil (Hid & Htitle & Hcat & Hvault & Hfields).
  destruct d as [id title cat vault fs]. unfold snapshot. cbn in *.
  rewrite Hid, Htitle, Hcat, Hvault. f_equal. by apply points_to_snapshot.
Qed.

(** Decoding never fails and is silent; it allocates the field objects at
    addresses that were free and that differ from each other. *)
Lemma decode_fields_run (fs : list (option ItemField)) s :
  exists ps h',
    decode_fields fs s = (Return ps, mkState h' (world s), [])
    /\ heap s ⊆ h'
    /\ h' !! nil_loc = heap s !! nil_loc
    /\ Forall2 (points_to h') ps fs
    /\ Forall (fun p => heap s !! p = None) (objects ps)
    /\ NoDup (objects ps).
Proof.
  revert s. induction fs as [| [f |] rest IH]; intros s.
  - exists [], (heap s). destruct s as [h w]. cbn.
    repeat split; try done; constructor.
  - set (p := fresh ({[nil_loc]} ∪ dom (heap s))).
    assert (Hfresh : p ∉ ({[nil_loc]} ∪ dom (heap s) : gset loc)) by apply is_fresh.
    assert (Hnil : p <> nil_loc) by set_solver.
    assert (Hfree : heap s !! p = None) by (apply not_elem_of_dom; set_solver).
    destruct (IH (mkState (<[p := f]> (heap s)) (world s)))
      as (ps & h' & Hrun & Hsub & Hnil' & Hpoints & Hnew & Hdup).
    cbn [heap world] in *.
    assert (Hsub0 : heap s ⊆ <[p := f]> (heap s)) by by apply insert_subseteq.
    exists (p :: ps), h'. split.
    { cbn [decode_fields]. unfold bind at 1. fold p. cbn beta iota zeta.
      unfold bind at 1. rewrite Hrun. reflexivity. }
    split; [by etrans |].
    split; [by rewrite Hnil', lookup_insert_ne |].
    split.
    { constructor; [| done]. split; [done |].
      eapply lookup_weaken; [| exact Hsub]. by rewrite lookup_insert_eq. }
    unfold objects in *. rewrite filter_cons_True by done.
    split.
    + constructor; [done |].
      eapply Forall_impl; [exact Hnew |]. intros q Hq. cbn beta in Hq.
      exact (lookup_weaken_None _ _ _ Hq Hsub0).
    + constructor; [| done]. intros Hin.
      pose proof (proj1 (Forall_forall _ _) Hnew p Hin) as Hp. cbn beta in Hp.
      by rewrite lookup_insert_eq in Hp.
  - destruct (IH s) as (ps & h' & Hrun & Hsub & Hnil' & Hpoints & Hnew & Hdup).
    exists (nil_loc :: ps), h'. split.
    { cbn [decode_fields]. unfold bind at 1. rewrite Hrun. reflexivity. }
    repeat split; try done. by constructor.
Qed.

Lemma decode_item_run (d : ItemData) s :
  exists it h',
    decode_item d s = (Return it, mkState h' (world s), [])
    /\ heap s ⊆ h'
    /\ h' !! nil_loc = heap s !! nil_loc
    /\ holds h' it d
    /\ Forall (fun p => heap s !! p = None) (objects (Item_Fields it))
    /\ NoDup (objects (Item_Fields it)).
Proof.
  destruct (decode_fields_run (Data_Fields d) s)
    as (ps & h' & Hrun & Hsub & Hnil & Hpoints & Hnew & Hdup).
  eexists _, h'. split.
  { unfold decode_item, bind. rewrite Hrun. reflexivity. }
  repeat split; done.
Qed.

Lemma points_to_allocated h (ps : list loc) (fs : list (option ItemField)) :
  Forall2 (points_to h) ps fs -> Forall (fun p => is_Some (h !! p)) (objects ps).
Proof.
  unfold objects. induction 1 as [| p o ps fs Hp _ IH]; [constructor |].
  destruct o as [f |].
  - destruct Hp as [Hnil Hf]. rewrite filter_cons_True by done.
    constructor; [by rewrite Hf | done].
  - rewrite Hp. by rewrite filter_cons_False by (intros Hne; by apply Hne).
Qed.

Lemma get_full_items_cons (d : ItemData) (rest : list ItemData) (acc : list Item) s :
  get_full_items (d :: rest) acc s
  = let answer := GetItem (Data_ID d) (Data_Vault_ID d) (world s) in
    match answer.1.2 with
    | Some e => (Return ([], Some e), mkState (heap s) answer.2, [request_for d])
    | None =>
        let dec := decode_item answer.1.1 (mkState (heap s) answer.2) in
        match outcome_of dec with
        | Return it =>
            let r := get_full_items rest (acc ++ [it]) (state_of dec) in
            (outcome_of r, state_of r, request_for d :: trace_of r)
        | Panic p => (Panic p, state_of dec, [request_for d])
        end
    end.
Proof.
  cbn [get_full_items]. unfold bind at 1, emit. unfold bind at 1, ask.
  destruct (GetItem _ _ _) as [[full err] w1]. cbn [fst snd].
  destruct err as [e |]; [reflexivity |].
  destruct (decode_item_run full (mkState (heap s) w1)) as (it & h' & Hdec & _).
  unfold bind. rewrite Hdec. cbn.
  by destruct (get_full_items rest (acc ++ [it]) _) as [[o s3] tr3].
Qed.

(** The loop never panics; it asks for the listed items in order and
    stops at the first error, which it returns with the empty list. *)
Lemma get_full_items_any (l : list ItemData) (acc : list Item) s :
  exists items err s' n,
    get_full_items l acc s = (Return (items, err), s', request_for <$> take n l)
    /\ (err <> None -> items = [])
    /\ heap s ⊆ heap s'.
Proof.
  revert acc s. induction l as [| d rest IH]; intros acc s.
  { exists acc, None, s, 0. by repeat split. }
  rewrite get_full_items_cons. cbn zeta.
  destruct (GetItem _ _ _) as [[full err] w1]. cbn [fst snd].
  destruct err as [e |].
  { exists [], (Some e), (mkState (heap s) w1), 1. by repeat split. }
  destruct (decode_item_run full (mkState (heap s) w1))
    as (it & h1 & Hdec & Hsub1 & _).
  rewrite Hdec.
  change (outcome_of (?a, ?b, ?c)) with a. change (state_of (?a, ?b, ?c)) with b.
  cbn iota zeta. cbn [world].
  destruct (IH (acc ++ [it]) (mkState h1 w1))
    as (items & err & s' & n & Hrest & Herr & Hsub).
  rewrite Hrest.
  exists items, err, s', (S n). repeat split; [done |].
  cbn [heap] in *. by etrans.
Qed.

(** A run of the loop without error: what it appends to the accumulator
    holds the fetched items, in field objects that were free before and
    that are shared neither within an item nor between items. *)
Lemma get_full_items_ok (l : list ItemData) (acc : list Item) s
    (items : list Item) (s' : State W) (tr : list Event) :
  get_full_items l acc s = (Return (items, None), s', tr) ->
  exists new,
    items = acc ++ new
    /\ tr = request_for <$> l
    /\ heap s ⊆ heap s'
    /\ heap s' !! nil_loc = heap s !! nil_loc
    /\ Forall2 (holds (heap s')) new (fetched l (world s))
    /\ length new = length l
    /\ Forall (fun p => heap s !! p = None) (objects (concat (Item_Fields <$> new)))
    /\ NoDup (objects (concat (Item_Fields <$> new))).
Proof.
  revert acc s items s' tr. induction l as [| d rest IH]; intros acc s items s' tr.
  { intros [= <- <- <-]. exists []. rewrite app_nil_r.
    repeat split; try done; constructor. }
  rewrite get_full_items_cons. cbn [fetched]. cbn zeta.
  destruct (GetItem _ _ _) as [[full err] w1]. cbn [fst snd].
  destruct err as [e |]; [discriminate |].
  destruct (decode_item_run full (mkState (heap s) w1))
    as (it & h1 & Hdec & Hsub1 & Hnil1 & Hholds & Hfree1 & Hdup1).
  rewrite Hdec.
  change (outcome_of (?a, ?b, ?c)) with a. change (state_of (?a, ?b, ?c)) with b.
  cbn iota zeta. cbn [heap world] in *.
  destruct (get_full_items rest (acc ++ [it]) (mkState h1 w1))
    as [[o s3] tr3] eqn:Hrest.
  change (outcome_of (?a, ?b, ?c)) with a. change (state_of (?a, ?b, ?c)) with b.
  change (trace_of (?a, ?b, ?c)) with c.
  intros [= -> -> <-].
  destruct (IH _ _ _ _ _ Hrest)
    as (new & -> & -> & Hsub & Hnil & Hall & Hlen & Hfree & Hdup).
  cbn [heap world] in *.
  exists (it :: new). rewrite <- app_assoc.
  repeat split; try done.
  - by etrans.
  - by rewrite Hnil.
  - constructor; [| done]. by eapply holds_weaken.
  - cbn. by rewrite Hlen.
  - cbn [fmap list_fmap concat]. rewrite objects_app. apply Forall_app. split; [done |].
    eapply Forall_impl; [exact Hfree |]. intros q Hq. cbn beta in Hq.
    exact (lookup_weaken_None _ _ _ Hq Hsub1).
  - cbn [fmap list_fmap concat]. rewrite objects_app. apply NoDup_app.
    split; [done |]. split; [| done].
    intros q Hq Hq'.
    destruct Hholds as (_ & _ & _ & _ & Hpoints).
    pose proof (proj1 (Forall_forall _ _) (points_to_allocated _ _ _ Hpoints) q Hq)
      as [f Hf].
    pose proof (proj1 (Forall_forall _ _) Hfree q Hq') as Hnone. cbn beta in Hnone.
    congruence.
Qed.

Lemma GetOnePassEntries_run s :
  GetOnePassEntries s
  = match NewClientFromEnvironment (world s) with
    | Some e => (Return ([], Some e), s, [])
    | None =>
      let title := Getenv "OP_VAULT_TITLE" (world s) in
      let lookup := GetVaultsByTitle title (world s) in
      let looked := ReqGetVaultsByTitle title lookup.1.1 lookup.1.2 in
      match lookup.1.2 with
      | Some e => (Return ([], Some e), mkState (heap s) lookup.2, [looked])
      | None =>
        match lookup.1.1 with
        | [] =>
            (Return ([], Some (String.append "vault "
                                 (String.append (Getenv "OP_VAULT_TITLE" lookup.2)
                                    " not found"))),
             mkState (heap s) lookup.2, [looked])
        | [vault] =>
            let listed := GetItems (Vault_ID vault) lookup.2 in
            match listed.1.2 with
            | Some e =>
                (Return ([], Some e), mkState (heap s) listed.2,
                 [looked; ReqGetItems (Vault_ID vault)])
            | None =>
                let r := get_full_items listed.1.1 [] (mkState (heap s) listed.2) in
                (outcome_of r, state_of r,
                 looked :: ReqGetItems (Vault_ID vault) :: trace_of r)
            end
        | _ =>
            (Return ([], Some (String.append "fault "
                                 (String.append (Getenv "OP_VAULT_TITLE" lookup.2)
                                    " found more than once"))),
             mkState (heap s) lookup.2, [looked])
        end
      end
    end.
Proof.
  unfold GetOnePassEntries. unfold bind at 1, peek at 1.
  destruct (NewClientFromEnvironment (world s)) as [e |]; [reflexivity |].
  cbn zeta. unfold bind at 1, peek at 1. unfold bind at 1, ask at 1.
  destruct (GetVaultsByTitle _ _) as [[vaults err] w1]. cbn [fst snd].
  unfold bind at 1, emit at 1.
  destruct err as [e |]; [reflexivity |].
  destruct vaults as [| vault [| vault' vaults]]; [reflexivity | | reflexivity].
  cbn [length Nat.eqb Nat.ltb Nat.leb]. unfold index. cbn [lookup list_lookup].
  unfold bind at 1, ret at 1. unfold bind at 1, emit at 1.
  unfold bind at 1, ask at 1. cbn [world heap].
  destruct (GetItems _ _) as [[listed err] w2]. cbn [fst snd].
  destruct err as [e |]; [reflexivity |].
  by destruct (get_full_items listed [] _) as [[o s3] tr3].
Qed.

(** X9.  Reading the vault never panics, and whenever it reports an
    error it returns the empty list of entries: a failed request for one
    item discards the items fetched before it. *)
Theorem GetOnePassEntries_error_empty s :
  exists items err,
    outcome_of (GetOnePassEntries s) = Return (items, err)
    /\ (err <> None -> items = []).
Proof.
  rewrite GetOnePassEntries_run.
  destruct (NewClientFromEnvironment (world s)) as [e |]; [by eexists _, _ |].
  cbn zeta. destruct (GetVaultsByTitle _ _) as [[vaults err] w1]. cbn [fst snd].
  destruct err as [e |]; [by eexists _, _ |].
  destruct vaults as [| vault [| vault' vaults]];
    [by eexists _, _ | | by eexists _, _].
  destruct (GetItems _ _) as [[listed err] w2]. cbn [fst snd].
  destruct err as [e |]; [by eexists _, _ |].
  destruct (get_full_items_any listed [] (mkState (heap s) w2))
    as (items & err & s' & n & Hrun & Herr & _).
  rewrite Hrun. by exists items, err.
Qed.

(** X10.  Reading the vault only reads: it sends no write request and
    calls no applier, and every field object that was on the heap before
    is still there, unchanged. *)
Theorem GetOnePassEntries_reads_only s :
  writes (trace_of (GetOnePassEntries s)) = []
  /\ actions (trace_of (GetOnePassEntries s)) = []
  /\ heap s ⊆ heap (state_of (GetOnePassEntries s)).
Proof.
  assert (Hreq : forall l : list ItemData,
            writes (request_for <$> l) = [] /\ actions (request_for <$> l) = []).
  { induction l as [| d l [IHw IHa]]; [done |]. split; [exact IHw | exact IHa]. }
  rewrite GetOnePassEntries_run.
  destruct (NewClientFromEnvironment (world s)) as [e |]; [done |].
  cbn zeta. destruct (GetVaultsByTitle _ _) as [[vaults err] w1]. cbn [fst snd].
  destruct err as [e |]; [done |].
  destruct vaults as [| vault [| vault' vaults]]; [done | | done].
  destruct (GetItems _ _) as [[listed err] w2]. cbn [fst snd].
  destruct err as [e |]; [done |].
  destruct (get_full_items_any listed [] (mkState (heap s) w2))
    as (items & err & s' & n & Hrun & _ & Hsub).
  rewrite Hrun.
  change (state_of (?a, ?b, ?c)) with b. change (trace_of (?a, ?b, ?c)) with c.
  destruct (Hreq (take n listed)) as [Hw Ha].
  repeat split; [exact Hw | exact Ha | exact Hsub].
Qed.

(** X11.  When the vault is read without error, the entries returned
    share no field object, neither within an entry nor between two
    entries, and each of their field objects is newly allocated: its
    address was free on the heap before the call. *)
Theorem GetOnePassEntries_fresh_objects s (items : list Item) :
  outcome_of (GetOnePassEntries s) = Return (items, None) ->
  NoDup (objects (concat (Item_Fields <$> items)))
  /\ Forall (fun p => heap s !! p = None
                      /\ is_Some (heap (state_of (GetOnePassEntries s)) !! p))
       (objects (concat (Item_Fields <$> items))).
Proof.
  rewrite GetOnePassEntries_run.
  destruct (NewClientFromEnvironment (world s)) as [e |]; [discriminate |].
  cbn zeta. destruct (GetVaultsByTitle _ _) as [[vaults err] w1]. cbn [fst snd].
  destruct err as [e |]; [discriminate |].
  destruct vaults as [| vault [| vault' vaults]]; [discriminate | | discriminate].
  destruct (GetItems _ _) as [[listed err] w2]. cbn [fst snd].
  destruct err as [e |]; [discriminate |].
  destruct (get_full_items listed [] (mkState (heap s) w2)) as [[o s'] tr] eqn:Hrun.
  unfold outcome_of, state_of. cbn [fst snd].
  intros ->.
  destruct (get_full_items_ok _ _ _ _ _ _ Hrun)
    as (new & -> & _ & _ & _ & Hholds & _ & Hfree & Hdup).
  cbn [app heap] in *. split; [done |].
  apply Forall_and. split; [done |].
  clear - Hholds. induction Hholds as [| it d new ds Hit _ IH]; [constructor |].
  cbn [fmap list_fmap concat]. rewrite objects_app. apply Forall_app. split; [| done].
  destruct Hit as (_ & _ & _ & _ & Hpoints). by eapply points_to_allocated.
Qed.

(** X12.  When the vault is read without error on a heap that has
    nothing at the nil address, the program sent the vault lookup, the
    list request and then one request per listed item, in the order of
    the list; the entries returned, read through their field objects,
    are the full items the server answered these requests with. *)
Theorem GetOnePassEntries_returns_fetched s (items : list Item) :
  heap s !! nil_loc = None ->
  outcome_of (GetOnePassEntries s) = Return (items, None) ->
  exists title vault w1 listed w2,
    GetVaultsByTitle title (world s) = (([vault], None), w1)
    /\ GetItems (Vault_ID vault) w1 = ((listed, None), w2)
    /\ trace_of (GetOnePassEntries s)
       = ReqGetVaultsByTitle title [vault] None
         :: ReqGetItems (Vault_ID vault) :: (request_for <$> listed)
    /\ snapshot (heap (state_of (GetOnePassEntries s))) <$> items
       = fetched listed w2.
Proof.
  intros Hnil0. rewrite GetOnePassEntries_run.
  destruct (NewClientFromEnvironment (world s)) as [e |]; [discriminate |].
  cbn zeta.
  destruct (GetVaultsByTitle _ _) as [[vaults err] w1] eqn:Hlookup. cbn [fst snd].
  destruct err as [e |]; [discriminate |].
  destruct vaults as [| vault [| vault' vaults]]; [discriminate | | discriminate].
  destruct (GetItems _ _) as [[listed err] w2] eqn:Hlist. cbn [fst snd].
  destruct err as [e |]; [discriminate |].
  destruct (get_full_items listed [] (mkState (heap s) w2)) as [[o s'] tr] eqn:Hrun.
  unfold outcome_of, state_of, trace_of. cbn [fst snd].
  intros ->.
  destruct (get_full_items_ok _ _ _ _ _ _ Hrun)
    as (new & -> & -> & _ & Hnil & Hholds & _).
  cbn [app heap world] in *.
  eexists _, vault, w1, listed, w2. repeat split; [exact Hlookup | exact Hlist |].
  rewrite Hnil0 in Hnil. clear - Hnil Hholds.
  induction Hholds as [| it d new ds Hit _ IH]; [done |].
  cbn [fmap list_fmap]. f_equal; [| done]. by apply holds_snapshot.
Qed.

(** An item the create path built, as it comes back from the server:
    three field objects at different addresses, none of them nil. *)
Lemma decode_new_item (r : LapsEntry) (vaultID id id0 username id1 now : string) s :
  exists p0 p1 p2 h',
    decode_item (new_item r vaultID id id0 username id1 now) s
    = (Return (mkItem id (dnshostname r) "LOGIN" vaultID [p0; p1; p2]),
       mkState h' (world s), [])
    /\ h' !! p0 = Data_Fields (new_item r vaultID id id0 username id1 now) !!! 0
    /\ h' !! p1 = Data_Fields (new_item r vaultID id id0 username id1 now) !!! 1
    /\ h' !! p2 = Data_Fields (new_item r vaultID id id0 username id1 now) !!! 2
    /\ p1 <> p2.
Proof.
  destruct (decode_item_run (new_item r vaultID id id0 username id1 now) s)
    as (it & h' & Hdec & _ & _ & Hholds & _ & Hdup).
  destruct it as [iid ititle icat ivault ifields].
  destruct Hholds as (Hid & Htitle & Hcat & Hvault & Hpoints). cbn in *. subst.
  apply Forall2_cons_inv_r in Hpoints as (p0 & l0 & [Hn0 Hp0] & Hpoints & ->).
  apply Forall2_cons_inv_r in Hpoints as (p1 & l1 & [Hn1 Hp1] & Hpoints & ->).
  apply Forall2_cons_inv_r in Hpoints as (p2 & l2 & [Hn2 Hp2] & Hpoints & ->).
  apply Forall2_nil_inv_r in Hpoints as ->.
  exists p0, p1, p2, h'. repeat split; try done.
  unfold objects in Hdup. rewrite !filter_cons_True in Hdup by done.
  apply NoDup_cons in Hdup as [_ Hdup]. apply NoDup_cons in Hdup as [Hnot _].
  intros ->. apply Hnot. by left.
Qed.

(** X13.  An item the program created is one it can update: read back
    as it was sent, it passes both purpose checks of [UpdateOnPassEntry],
    which returns nil after one update request to the vault the item was
    created in, for the same item id and with the new password in the
    field at index 1. *)
Theorem created_item_accepts_update (r r' : LapsEntry)
    (vaultID id id0 username id1 now : string) s :
  NewClientFromEnvironment (world s) = None ->
  exists it s1,
    decode_item (new_item r vaultID id id0 username id1 now) s = (Return it, s1, [])
    /\ outcome_of (UpdateOnPassEntry it r' s1) = Return None
    /\ exists sent answer f,
         trace_of (UpdateOnPassEntry it r' s1) = [ReqUpdateItem sent vaultID answer]
         /\ Data_ID sent = id
         /\ Data_Fields sent !! 1 = Some (Some f)
         /\ Field_ID f = id1 /\ Field_Value f = password r'.
Proof.
  intros Hclient.
  destruct (decode_new_item r vaultID id id0 username id1 now s)
    as (p0 & p1 & p2 & h' & Hdec & Hp0 & Hp1 & Hp2 & Hne).
  eexists _, _. split; [exact Hdec |].
  rewrite UpdateOnPassEntry_run. cbn [world heap Item_Fields lookup list_lookup].
  rewrite Hclient, Hp1. cbn [new_item Data_Fields lookup_total list_lookup_total].
  cbn [Field_Purpose]. rewrite String.eqb_refl. cbn zeta.
  rewrite (lookup_insert_ne _ p1 p2), Hp2 by done.
  cbn [new_item Data_Fields lookup_total list_lookup_total Field_Purpose].
  rewrite String.eqb_refl.
  split; [reflexivity |].
  eexists _, _, _. unfold trace_of. cbn [snd Item_Vault_ID].
  split; [reflexivity |]. split; [reflexivity |].
  unfold snapshot. cbn [Data_Fields Item_Fields fmap list_fmap lookup list_lookup].
  rewrite (lookup_insert_ne _ p2 p1), lookup_insert_eq by done.
  by repeat split.
Qed.

(** X14.  An item the program created is never seen as up to date.  Its
    password field is labelled [Password], and [GetValue("password")] of the
    Connect SDK compares labels exactly, so it reads the empty string: in
    a pass over the item as it was sent, a record for the same host calls
    for an update whenever its password is not empty, also when that
    password is the one the item already holds. *)
Theorem created_item_updated_in_next_pass (r r' : LapsEntry)
    (vaultID id id0 username id1 now : string) s :
  dnshostname r' = dnshostname r ->
  password r' <> EmptyString ->
  exists it s1,
    decode_item (new_item r vaultID id id0 username id1 now) s = (Return it, s1, [])
    /\ GetValue_fields (heap s1) (Item_Fields it) "password" = Return EmptyString
    /\ actions (trace_of (CompareLapsToOnepass [r'] [it] s1)) = [CallUpdate 0 0].
Proof.
  intros Hhost Hpw.
  destruct (decode_new_item r vaultID id id0 username id1 now s)
    as (p0 & p1 & p2 & h' & Hdec & Hp0 & Hp1 & Hp2 & Hne).
  eexists _, _. split; [exact Hdec |].
  assert (Hread : GetValue_fields h' [p0; p1; p2] "password" = Return EmptyString).
  { cbn [GetValue_fields]. rewrite Hp0, Hp1, Hp2. reflexivity. }
  split; [exact Hread |].
  unfold CompareLapsToOnepass. rewrite compare_loop_cons.
  assert (Hfind : find_title (dnshostname r')
                    [mkItem id (dnshostname r) "LOGIN" vaultID [p0; p1; p2]] 0
                  = Some 0).
  { cbn. by rewrite Hhost, String.eqb_refl. }
  rewrite (compare_body_matched _ _ _ _ _ _ Hfind eq_refl).
  cbn [heap Item_Fields]. rewrite Hread.
  destruct (String.eqb_spec (password r') EmptyString) as [Heq | _]; [done |].
  cbn [negb].
  pose proof (Update_quiet (mkItem id (dnshostname r) "LOGIN" vaultID [p0; p1; p2])
                r' (mkState h' (world s))) as Hquiet.
  destruct (UpdateOnPassEntry _ r' _) as [[[[e |] | p] s2] tr2];
    unfold outcome_of, state_of, trace_of in *;
    cbn [fst snd compare_loop ret app] in *; rewrite ?app_nil_r;
    change (actions (CallUpdate 0 0 :: tr2)) with (CallUpdate 0 0 :: actions tr2);
    by rewrite (quiet_actions _ Hquiet).
Qed.

End ReadVault.

(** ** The directory read, the environment check and [main] *)

Section Parse.

Local Open Scope Z_scope.


Lemma digit_cases (d : Z) :
  is_digit d ->
  d = 0 \/ d = 1 \/ d = 2 \/ d = 3 \/ d = 4 \/ d = 5 \/ d = 6 \/ d = 7 \/ d = 8 \/ d = 9.
Proof. unfold is_digit. lia. Qed.

Lemma digit_of_char (d : Z) : is_digit d -> digit_of (digit_char d) = Some d.
Proof.
  intros Hd. destruct (digit_cases d Hd) as [-> | [-> | [-> | [-> | [-> | [-> |
    [-> | [-> | [-> | ->]]]]]]]]]; reflexivity.
Qed.

Lemma digit_char_no_sign (d : Z) :
  is_digit d ->
  Ascii.eqb (digit_char d) "+"%char = false
  /\ Ascii.eqb (digit_char d) "-"%char = false.
Proof.
  intros Hd. destruct (digit_cases d Hd) as [-> | [-> | [-> | [-> | [-> | [-> |
    [-> | [-> | [-> | ->]]]]]]]]]; split; reflexivity.
Qed.

Lemma value_from_ge (ds : list Z) (n : Z) :
  Forall is_digit ds -> 0 <= n -> n <= value_from n ds.
Proof.
  unfold value_from. intros Hds. revert n.
  induction Hds as [| d ds Hd _ IH]; intros n Hn; cbn [fold_left]; [lia |].
  unfold is_digit in Hd. specialize (IH (n * 10 + d) ltac:(lia)). lia.
Qed.

Lemma ParseUint_loop_decimal (ds : list Z) (n : Z) :
  Forall is_digit ds -> 0 <= n -> value_from n ds <= maxUint64 ->
  ParseUint_loop (decimal ds) n = (value_from n ds, None).
Proof.
  intros Hds. revert n.
  induction Hds as [| d ds Hd Hds IH]; intros n Hn Hmax; [reflexivity |].
  cbn [decimal ParseUint_loop]. rewrite (digit_of_char d Hd).
  change (value_from n (d :: ds)) with (value_from (n * 10 + d) ds) in *.
  pose proof (value_from_ge ds (n * 10 + d) Hds) as Hge.
  unfold is_digit in Hd. specialize (Hge ltac:(lia)).
  unfold maxUint64 in *.
  change (2 ^ 64 - 1) with 18446744073709551615 in *.
  change ((18446744073709551615 / 10 + 1)) with 1844674407370955162.
  destruct (Z.leb_spec 1844674407370955162 n) as [Hcut | _]; [lia |].
  cbn zeta. change (2 ^ 64) with 18446744073709551616.
  rewrite Z.mod_small by lia.
  destruct (Z.ltb_spec (n * 10 + d) (n * 10)) as [Hlt | _]; [lia |].
  destruct (Z.ltb_spec 18446744073709551615 (n * 10 + d)) as [Hlt | _]; [lia |].
  cbn [orb]. apply IH; lia.
Qed.

Lemma ParseInt_decimal (ds : list Z) :
  ds <> [] -> Forall is_digit ds -> value_from 0 ds <= MaxInt64 ->
  ParseInt (decimal ds) = (value_from 0 ds, None).
Proof.
  intros Hne Hds Hmax. destruct ds as [| d ds]; [done |].
  pose proof (Forall_inv Hds) as Hd.
  destruct (digit_char_no_sign d Hd) as [Hplus Hminus].
  pose proof (value_from_ge (d :: ds) 0 Hds ltac:(lia)) as Hge.
  unfold ParseInt. cbn [decimal]. rewrite Hplus, Hminus.
  change (ParseUint (String (digit_char d) (decimal ds)))
    with (ParseUint_loop (decimal (d :: ds)) 0).
  rewrite ParseUint_loop_decimal; [| done | lia | unfold maxUint64, MaxInt64 in *; lia].
  unfold MaxInt64 in Hmax. cbn [negb andb].
  change (2 ^ 63) with 9223372036854775808.
  destruct (Z.leb_spec 9223372036854775808 (value_from 0 (d :: ds))) as [Hcut | _];
    [lia |].
  cbn [andb]. rewrite wrap64_small by (unfold in_int64, MinInt64, MaxInt64; lia).
  reflexivity.
Qed.

Lemma ParseInt_range (s : string) : in_int64 (ParseInt s).1.
Proof.
  assert (Hzero : in_int64 0) by (unfold in_int64, MinInt64, MaxInt64; lia).
  unfold ParseInt. destruct s as [| c rest]; [exact Hzero |].
  destruct (if Ascii.eqb c "+"%char then (false, rest)
            else if Ascii.eqb c "-"%char then (true, rest)
            else (false, String c rest)) as [neg body].
  destruct (ParseUint body) as [un [[|] |]]; [exact Hzero | |].
  - destruct (negb neg && (2 ^ 63 <=? un));
      [unfold in_int64, MinInt64, MaxInt64; cbn; lia |].
    destruct (neg && (2 ^ 63 <? un));
      [unfold in_int64, MinInt64, MaxInt64; cbn; lia |].
    destruct neg; apply wrap64_range.
  - destruct (negb neg && (2 ^ 63 <=? un));
      [unfold in_int64, MinInt64, MaxInt64; cbn; lia |].
    destruct (neg && (2 ^ 63 <? un));
      [unfold in_int64, MinInt64, MaxInt64; cbn; lia |].
    destruct neg; apply wrap64_range.
Qed.

Lemma getTimeFromFiletime_zero : getTimeFromFiletime 0 = epoch1601.
Proof.
  unfold getTimeFromFiletime.
  rewrite chunk_loop_skip by (rewrite maxdUnits_val; lia). reflexivity.
Qed.

End Parse.

Section ProcessProperties.

Context {W : Type} `{Connect W} `{Directory W}.

Implicit Types (s : State W) (w : W).

Lemma collect_entries_fmap (entries : list ldap_Entry) (lapsentries : list LapsEntry) :
  collect_entries entries lapsentries = lapsentries ++ (laps_of_entry <$> entries).
Proof.
  revert lapsentries. induction entries as [| entry rest IH]; intros lapsentries.
  - by rewrite app_nil_r.
  - cbn [collect_entries fmap list_fmap]. rewrite IH. by rewrite <- app_assoc.
Qed.

Lemma GetLapsEntries_run s :
  GetLapsEntries s
  = let dial := ldap_DialURL (Getenv "LDAP_URL" (world s)) (world s) in
    match dial.1.2 with
    | Some e => (Return ([], Some e), mkState (heap s) dial.2, [])
    | None =>
      let bound := ldap_Bind dial.1.1 (Getenv "LDAP_AUTH_CN" dial.2)
                     (Getenv "LDAP_AUTH_PW" dial.2) dial.2 in
      match bound.1 with
      | Some e =>
          (Return ([], Some e), mkState (heap s) (ldap_Close dial.1.1 bound.2), [])
      | None =>
        let searchReq :=
          {| BaseDN := Getenv "LDAP_SEARCH_BASEDN" bound.2;
             Scope := ScopeWholeSubtree; DerefAliases := 0;
             SizeLimit := 0; TimeLimit := 0; TypesOnly := false;
             Filter := Getenv "LDAP_SEARCH_FILTER" bound.2;
             Attributes := ["name"; "ms-Mcs-AdmPwd";
                            "ms-Mcs-AdmPwdExpirationTime"; "dNSHostName"] |} in
        let found := ldap_Search dial.1.1 searchReq bound.2 in
        match found.1.2 with
        | Some e =>
            (Return ([], Some e), mkState (heap s) (ldap_Close dial.1.1 found.2), [])
        | None =>
            (Return (laps_of_entry <$> found.1.1, None),
             mkState (heap s) (ldap_Close dial.1.1 found.2), [])
        end
      end
    end.
Proof.
  unfold GetLapsEntries, bind, peek, ask, close, ret. cbn [world heap].
  destruct (ldap_DialURL _ _) as [[conn err] w1]. cbn [fst snd world heap].
  destruct err as [e |]; [reflexivity |].
  destruct (ldap_Bind _ _ _ _) as [err w2]. cbn [fst snd world heap].
  destruct err as [e |]; [reflexivity |].
  destruct (ldap_Search _ _ _) as [[result err] w3]. cbn [fst snd world heap].
  destruct err as [e |]; [reflexivity |].
  by rewrite collect_entries_fmap.
Qed.

(** X15.  Reading the directory never panics, sends nothing to the
    Connect server and leaves the heap alone; whenever it reports an
    error (dial, bind or search), the list of records it returns is
    empty. *)
Theorem GetLapsEntries_error_empty s :
  exists lapsentries err,
    outcome_of (GetLapsEntries s) = Return (lapsentries, err)
    /\ (err <> None -> lapsentries = [])
    /\ trace_of (GetLapsEntries s) = []
    /\ heap (state_of (GetLapsEntries s)) = heap s.
Proof.
  rewrite GetLapsEntries_run. cbn zeta.
  destruct (ldap_DialURL _ _) as [[conn err] w1]. cbn [fst snd].
  destruct err as [e |]; [by eexists _, _ |].
  destruct (ldap_Bind _ _ _ _) as [err w2]. cbn [fst snd].
  destruct err as [e |]; [by eexists _, _ |].
  destruct (ldap_Search _ _ _) as [[result err] w3]. cbn [fst snd].
  destruct err as [e |]; by eexists _, _.
Qed.


Lemma laps_of_entry_record (entry : ldap_Entry) : record_of entry (laps_of_entry entry).
Proof.
  unfold record_of, laps_of_entry.
  pose proof (ParseInt_range (GetAttributeValue entry "ms-Mcs-AdmPwdExpirationTime"))
    as Hrange.
  destruct (ParseInt _) as [n err] eqn:Hparse. cbn [fst] in Hrange.
  cbn [name dnshostname password expiration].
  repeat split.
  - destruct err as [e |]; [| by exists n].
    exists 0%Z. split; [| done]. unfold in_int64, MinInt64, MaxInt64. lia.
  - intros Hempty. rewrite Hempty in Hparse. injection Hparse as <- <-.
    apply getTimeFromFiletime_zero.
Qed.

(** X16.  When dial, bind and search succeed, the directory read
    returns nil as error and one record per entry of the search result,
    in the same order: name, host name and password are the values of
    the attributes [name], [dNSHostName] and [ms-Mcs-AdmPwd], and the
    expiration is the decoding of some [int64].  An expiration attribute
    that cannot be parsed is not reported; an empty one gives the
    epoch, 1601-01-01. *)
Theorem GetLapsEntries_records s (lapsentries : list LapsEntry) :
  outcome_of (GetLapsEntries s) = Return (lapsentries, None) ->
  exists conn w1 w2 req entries w3,
    ldap_DialURL (Getenv "LDAP_URL" (world s)) (world s) = ((conn, None), w1)
    /\ ldap_Bind conn (Getenv "LDAP_AUTH_CN" w1) (Getenv "LDAP_AUTH_PW" w1) w1
       = (None, w2)
    /\ ldap_Search conn req w2 = ((entries, None), w3)
    /\ Filter req = Getenv "LDAP_SEARCH_FILTER" w2
    /\ BaseDN req = Getenv "LDAP_SEARCH_BASEDN" w2
    /\ Forall2 record_of entries lapsentries
    /\ world (state_of (GetLapsEntries s)) = ldap_Close conn w3.
Proof.
  rewrite GetLapsEntries_run. cbn zeta.
  destruct (ldap_DialURL _ _) as [[conn err] w1]. cbn [fst snd].
  destruct err as [e |]; [discriminate |].
  destruct (ldap_Bind _ _ _ _) as [err w2] eqn:Hbind. cbn [fst snd].
  destruct err as [e |]; [discriminate |].
  destruct (ldap_Search _ _ _) as [[result err] w3] eqn:Hsearch. cbn [fst snd].
  destruct err as [e |]; [discriminate |].
  unfold outcome_of, state_of. cbn [fst snd world].
  intros [= <-].
  eexists conn, w1, w2, _, result, w3.
  repeat split; [exact Hbind | exact Hsearch | ..]; try reflexivity.
  apply Forall2_fmap_r, Forall_Forall2_diag, Forall_forall.
  intros entry _. apply laps_of_entry_record.
Qed.

(** X17.  An expiration attribute that is a string of decimal digits
    denoting a value up to [MaxInt64] is decoded exactly: the record's
    expiration is the instant that many 100-nanosecond ticks after
    1601-01-01, with its nanoseconds normalized. *)
Theorem laps_of_entry_expiration (entry : ldap_Entry) (ds : list Z) :
  GetAttributeValue entry "ms-Mcs-AdmPwdExpirationTime" = decimal ds ->
  ds <> [] -> Forall is_digit ds -> (value_from 0 ds <= MaxInt64)%Z ->
  instant_ns (expiration (laps_of_entry entry))
  = (instant_ns epoch1601 + value_from 0 ds * 100)%Z
  /\ normalized (expiration (laps_of_entry entry)).
Proof.
  intros Hattr Hne Hds Hmax. unfold laps_of_entry.
  rewrite Hattr, (ParseInt_decimal ds Hne Hds Hmax). cbn [expiration].
  apply getTimeFromFiletime_ns. split; [| done].
  by apply (value_from_ge ds 0%Z Hds).
Qed.

(** X18.  The environment check returns nil exactly when the [.env]
    file was loaded and the three variables are usable: the Connect host
    and the vault title set and not empty, the Connect token set and at
    least nine bytes long. *)
Theorem GetAndCheckEnvironment_nil w :
  (GetAndCheckEnvironment w).1 = CheckReturn None <->
  (godotenv_Load w).1 = None
  /\ (exists v, LookupEnv "OP_CONNECT_HOST" (godotenv_Load w).2 = Some v
                /\ v <> EmptyString)
  /\ (exists v, LookupEnv "OP_CONNECT_TOKEN" (godotenv_Load w).2 = Some v
                /\ 9 <= String.length v)
  /\ (exists v, LookupEnv "OP_VAULT_TITLE" (godotenv_Load w).2 = Some v
                /\ v <> EmptyString).
Proof.
  unfold GetAndCheckEnvironment.
  destruct (godotenv_Load w) as [err w1]. cbn [fst snd].
  destruct err as [e |]; [split; [discriminate | by intros [? _]] |].
  destruct (LookupEnv "OP_CONNECT_HOST" w1) as [host |];
    destruct (LookupEnv "OP_CONNECT_TOKEN" w1) as [token |];
    destruct (LookupEnv "OP_VAULT_TITLE" w1) as [title |];
    cbn zeta;
    repeat match goal with
           | |- context [String.eqb ?a ?b] => destruct (String.eqb_spec a b)
           | |- context [Nat.leb ?a ?b] => destruct (Nat.leb_spec a b)
           end;
    cbn [Nat.eqb fst];
    (split;
     [ try discriminate; intros _; repeat split; eauto
     | intros (_ & (? & Hhost & ?) & (? & Htoken & ?) & (? & Htitle & ?));
       try discriminate; try reflexivity;
       try (injection Hhost as <-); try (injection Htoken as <-);
       try (injection Htitle as <-); subst; cbn in *; try done; try lia ]).
Qed.

(** X19.  The environment check panics, with "slice bounds out of
    range [:9]", exactly when the [.env] file was loaded and the Connect
    token is set, not empty and shorter than nine bytes, whatever the
    other variables are: such a token is not reported as an error. *)
Theorem GetAndCheckEnvironment_short_token w (high len : nat) :
  (GetAndCheckEnvironment w).1 = CheckSliceBounds high len <->
  high = 9
  /\ (godotenv_Load w).1 = None
  /\ exists v, LookupEnv "OP_CONNECT_TOKEN" (godotenv_Load w).2 = Some v
               /\ String.length v = len /\ 0 < len < 9.
Proof.
  unfold GetAndCheckEnvironment.
  destruct (godotenv_Load w) as [err w1]. cbn [fst snd].
  destruct err as [e |]; [split; [discriminate | by intros (_ & ? & _)] |].
  destruct (LookupEnv "OP_CONNECT_HOST" w1) as [host |];
    destruct (LookupEnv "OP_CONNECT_TOKEN" w1) as [token |];
    destruct (LookupEnv "OP_VAULT_TITLE" w1) as [title |];
    cbn zeta;
    repeat match goal with
           | |- context [String.eqb ?a ?b] => destruct (String.eqb_spec a b)
           | |- context [Nat.leb ?a ?b] => destruct (Nat.leb_spec a b)
           end;
    cbn [Nat.eqb fst default];
    (split;
     [ try discriminate;
       try (intros [= <- <-]; repeat split; try done;
            eexists; repeat split; try done;
            destruct token; [done | cbn; lia])
     | intros (-> & _ & (? & Htoken & <- & ?));
       try discriminate; try (injection Htoken as <-); subst; cbn in *;
       try done; try lia ]).
Qed.

Lemma GetLapsEntries_returns s :
  exists lapsentries err s',
    GetLapsEntries s = (Return (lapsentries, err), s', []).
Proof.
  rewrite GetLapsEntries_run. cbn zeta.
  destruct (ldap_DialURL _ _) as [[conn err] w1]. cbn [fst snd].
  destruct err as [e |]; [by eexists _, _, _ |].
  destruct (ldap_Bind _ _ _ _) as [err w2]. cbn [fst snd].
  destruct err as [e |]; [by eexists _, _, _ |].
  destruct (ldap_Search _ _ _) as [[result err] w3]. cbn [fst snd].
  destruct err as [e |]; by eexists _, _, _.
Qed.


Lemma GetOnePassEntries_trace s :
  writes (trace_of (GetOnePassEntries s)) = []
  /\ (forall items, outcome_of (GetOnePassEntries s) = Return (items, None) ->
        Forall not_failed (trace_of (GetOnePassEntries s))).
Proof.
  assert (Hreq : forall l : list ItemData,
            writes (request_for <$> l) = [] /\ Forall not_failed (request_for <$> l)).
  { induction l as [| d l [IHw IHa]]; [by split |].
    split; [exact IHw | by constructor]. }
  rewrite GetOnePassEntries_run.
  destruct (NewClientFromEnvironment (world s)) as [e |]; [by split |].
  cbn zeta. destruct (GetVaultsByTitle _ _) as [[vaults err] w1]. cbn [fst snd].
  destruct err as [e |]; [by split |].
  destruct vaults as [| vault [| vault' vaults]]; [by split | | by split].
  destruct (GetItems _ _) as [[listed err] w2]. cbn [fst snd].
  destruct err as [e |]; [by split |].
  destruct (get_full_items_any listed [] (mkState (heap s) w2))
    as (items & err & s' & n & Hrun & _ & _).
  rewrite Hrun. unfold outcome_of, trace_of. cbn [fst snd].
  destruct (Hreq (take n listed)) as [Hw Hn].
  split; [exact Hw |].
  intros _ _. by repeat constructor.
Qed.

Lemma compare_body_not_failed (entries : list Item) (k : nat) (r : LapsEntry) s :
  outcome_of (compare_body entries k r s) = Return None ->
  Forall not_failed (trace_of (compare_body entries k r s)).
Proof.
  destruct (find_title (dnshostname r) entries 0) as [j |] eqn:Hfind.
  - destruct (find_title_lookup _ _ _ Hfind) as [entry Hentry].
    rewrite (compare_body_matched _ _ _ _ _ _ Hfind Hentry).
    destruct (GetValue_fields _ _ _) as [stored | p]; [| discriminate].
    destruct (negb _); [| by constructor].
    unfold outcome_of at 1, trace_of at 1. cbn [fst snd]. intros _.
    constructor; [done |]. rewrite UpdateOnPassEntry_run.
    repeat first [ progress cbn zeta | case_match ]; by repeat constructor.
  - rewrite (compare_body_unmatched _ _ _ _ Hfind).
    unfold outcome_of at 1, trace_of at 1. cbn [fst snd].
    rewrite CreateOnPassEntryFromLapsEntry_run.
    destruct (NewClientFromEnvironment (world s)) as [e0 |]; [discriminate |].
    cbn zeta. destruct (GetVaultsByTitle _ _) as [[vaults err] w1]. cbn [fst snd].
    destruct err as [e1 |]; [discriminate |].
    destruct vaults as [| vault [| vault' vaults]];
      unfold outcome_of, trace_of; cbn [fst snd];
      [by repeat constructor | | by repeat constructor].
    intros [= ->]. by repeat constructor.
Qed.

Lemma compare_loop_not_failed (entries : list Item) (l : list LapsEntry) (k : nat) s :
  outcome_of (compare_loop entries l k s) = Return None ->
  Forall not_failed (trace_of (compare_loop entries l k s)).
Proof.
  revert k s. induction l as [| r l IH]; intros k s; [by constructor |].
  rewrite compare_loop_cons.
  pose proof (compare_body_not_failed entries k r s) as Hbody.
  destruct (compare_body entries k r s) as [[[[e |] | p] s1] tr1];
    [discriminate | | discriminate].
  unfold outcome_of, state_of, trace_of in *. cbn [fst snd] in *.
  intros Hrest. apply Forall_app. split; [by apply Hbody | by apply IH].
Qed.

(** X20.  [main] sends nothing to the Connect server before the
    environment check has returned nil and the directory has returned at
    least one record without error; and it sends no write request unless
    the vault was read without error as well. *)
Theorem main_checks_before_requests w :
  (main w).2 <> [] ->
  exists w1 lapsentries s1,
    GetAndCheckEnvironment w = (CheckReturn None, w1)
    /\ GetLapsEntries (mkState ∅ w1) = (Return (lapsentries, None), s1, [])
    /\ lapsentries <> []
    /\ (writes (main w).2 <> [] ->
        exists onepassentries,
          outcome_of (GetOnePassEntries s1) = Return (onepassentries, None)).
Proof.
  unfold main.
  destruct (GetAndCheckEnvironment w) as [[[e |] | high len] w1]; [done | | done].
  destruct (GetLapsEntries_returns (mkState ∅ w1)) as (l & err & s1 & Hldap).
  rewrite Hldap. destruct err as [e |]; [done |].
  destruct l as [| r l]; [done |]. cbn [length Nat.ltb Nat.leb].
  intros _. exists w1, (r :: l), s1. repeat split; [done | done |].
  destruct (GetOnePassEntries_trace s1) as [Hw _].
  destruct (GetOnePassEntries s1) as [[[[entries [e |]] | p] s2] tr1];
    unfold trace_of in Hw; cbn [fst snd app] in *;
    [by rewrite Hw | | by rewrite Hw].
  intros _. by exists entries.
Qed.

(** X21.  When [main] ends with exit code 0, no vault lookup and no
    item creation of the run was refused: every such request in the trace
    was answered without error.  (Item updates are not covered: their
    answers are dropped.) *)
Theorem main_exit_0_nothing_refused w :
  (main w).1.1 = Exited 0 -> Forall not_failed (main w).2.
Proof.
  unfold main.
  destruct (GetAndCheckEnvironment w) as [[[e |] | high len] w1];
    [discriminate | | discriminate].
  destruct (GetLapsEntries_returns (mkState ∅ w1)) as (l & err & s1 & Hldap).
  rewrite Hldap. destruct err as [e |]; [discriminate |].
  destruct (Nat.ltb (length l) 1); [discriminate |].
  destruct (GetOnePassEntries_trace s1) as [_ Hread].
  destruct (GetOnePassEntries s1) as [[[[entries [e |]] | p] s2] tr1];
    [discriminate | | discriminate].
  specialize (Hread entries eq_refl). unfold trace_of in Hread. cbn [snd] in Hread.
  pose proof (compare_loop_not_failed entries l 0 s2) as Hpass.
  unfold CompareLapsToOnepass.
  destruct (compare_loop entries l 0 s2) as [[[[e |] | p] s3] tr2];
    [discriminate | | discriminate].
  intros _. cbn [fst snd app]. apply Forall_app. split; [done |].
  by apply Hpass.
Qed.

End ProcessProperties.

(** ** Concrete runs *)

Section MoreRuns.

(** A vault that agrees with the directory. *)
Lemma settled_pass_is_silent_witness :
  CompareLapsToOnepass [laps "PC01.domain" "old"] [login_item "PC01.domain" 1]
    (mkState (login_fields 1 "old" ∅) healthy)
  = (Return None, mkState (login_fields 1 "old" ∅) healthy, []).
Proof.
  apply settled_pass_is_silent. intros r Hr.
  apply list_elem_of_singleton in Hr as ->. split.
  - exists (login_item "PC01.domain" 1). split; [by left | reflexivity].
  - intros e He _. apply list_elem_of_singleton in He as ->. reflexivity.
Defined.

(** The server refuses the first item creation. *)
Lemma pass_error_origin_witness :
  NewClientFromEnvironment
    (world (state_of (CompareLapsToOnepass [pc01; pc02] [] (mkState ∅ create_fails))))
  = Some "503 Service Unavailable"
  \/ (exists title vaults,
        last (trace_of (CompareLapsToOnepass [pc01; pc02] [] (mkState ∅ create_fails)))
        = Some (ReqGetVaultsByTitle title vaults (Some "503 Service Unavailable")))
  \/ (exists item vault,
        last (trace_of (CompareLapsToOnepass [pc01; pc02] [] (mkState ∅ create_fails)))
        = Some (ReqCreateItem item vault (Some "503 Service Unavailable"))).
Proof.
  apply (pass_error_origin [pc01; pc02] [] (mkState ∅ create_fails)).
  vm_compute. reflexivity.
Defined.

(** Two hosts and an empty vault. *)
Lemma first_pass_creates_all_witness :
  actions (trace_of (CompareLapsToOnepass [pc01; pc02] [] (mkState ∅ healthy)))
  = CallCreate <$> seq 0 (length [pc01; pc02])
  /\ Forall2 item_for [pc01; pc02]
       (created (trace_of (CompareLapsToOnepass [pc01; pc02] [] (mkState ∅ healthy))))
  /\ heap (state_of (CompareLapsToOnepass [pc01; pc02] [] (mkState ∅ healthy)))
     = heap (mkState ∅ healthy).
Proof.
  apply (first_pass_creates_all [pc01; pc02] [] (mkState ∅ healthy)).
  - intros r e _ He. by apply elem_of_nil in He.
  - vm_compute. reflexivity.
  - vm_compute. repeat constructor.
Defined.

(** An update of a login item with the usual three fields. *)
Lemma UpdateOnPassEntry_request_witness :
  exists p1 f1 p2 answer,
    Item_Fields (login_item "PC01.domain" 1) !! 1 = Some p1
    /\ heap (mkState (login_fields 1 "old" ∅) healthy) !! p1 = Some f1
    /\ Item_Fields (login_item "PC01.domain" 1) !! 2 = Some p2 /\ p1 <> p2
    /\ trace_of (UpdateOnPassEntry (login_item "PC01.domain" 1)
                   (laps "PC01.domain" "new")
                   (mkState (login_fields 1 "old" ∅) healthy))
       = [ReqUpdateItem
            (snapshot
               (heap (state_of (UpdateOnPassEntry (login_item "PC01.domain" 1)
                                  (laps "PC01.domain" "new")
                                  (mkState (login_fields 1 "old" ∅) healthy))))
               (login_item "PC01.domain" 1))
            (Item_Vault_ID (login_item "PC01.domain" 1)) answer]
    /\ heap (state_of (UpdateOnPassEntry (login_item "PC01.domain" 1)
                         (laps "PC01.domain" "new")
                         (mkState (login_fields 1 "old" ∅) healthy))) !! p1
       = Some (set_Value f1 (password (laps "PC01.domain" "new")))
    /\ forall p, p <> p1 -> p <> p2 ->
         heap (state_of (UpdateOnPassEntry (login_item "PC01.domain" 1)
                           (laps "PC01.domain" "new")
                           (mkState (login_fields 1 "old" ∅) healthy))) !! p
         = heap (mkState (login_fields 1 "old" ∅) healthy) !! p.
Proof.
  apply (UpdateOnPassEntry_request (login_item "PC01.domain" 1)
           (laps "PC01.domain" "new") (mkState (login_fields 1 "old" ∅) healthy)).
  vm_compute. reflexivity.
Defined.


Lemma GetOnePassEntries_fresh_objects_witness :
  NoDup (objects (concat (Item_Fields <$> entries_read two_items)))
  /\ Forall (fun p => heap (mkState ∅ two_items) !! p = None
                      /\ is_Some (heap (state_of (GetOnePassEntries
                                                    (mkState ∅ two_items))) !! p))
       (objects (concat (Item_Fields <$> entries_read two_items))).
Proof.
  apply (GetOnePassEntries_fresh_objects (mkState ∅ two_items)
           (entries_read two_items)).
  vm_compute. reflexivity.
Defined.

Lemma GetOnePassEntries_returns_fetched_witness :
  exists title vault w1 listed w2,
    GetVaultsByTitle title (world (mkState ∅ two_items)) = (([vault], None), w1)
    /\ GetItems (Vault_ID vault) w1 = ((listed, None), w2)
    /\ trace_of (GetOnePassEntries (mkState ∅ two_items))
       = ReqGetVaultsByTitle title [vault] None
         :: ReqGetItems (Vault_ID vault) :: (request_for <$> listed)
    /\ snapshot (heap (state_of (GetOnePassEntries (mkState ∅ two_items))))
         <$> entries_read two_items
       = fetched listed w2.
Proof.
  apply (GetOnePassEntries_returns_fetched (mkState ∅ two_items)
           (entries_read two_items)).
  - reflexivity.
  - vm_compute. reflexivity.
Defined.

(** An item created for [pc01], read back and updated. *)
Lemma created_item_accepts_update_witness :
  exists it s1,
    decode_item (new_item pc01 "v1" "id" "id0" "Administrator" "id1" "now")
      (mkState ∅ healthy) = (Return it, s1, [])
    /\ outcome_of (UpdateOnPassEntry it (laps "PC01.domain" "new") s1) = Return None
    /\ exists sent answer f,
         trace_of (UpdateOnPassEntry it (laps "PC01.domain" "new") s1)
         = [ReqUpdateItem sent "v1" answer]
         /\ Data_ID sent = "id"
         /\ Data_Fields sent !! 1 = Some (Some f)
         /\ Field_ID f = "id1"
         /\ Field_Value f = password (laps "PC01.domain" "new").
Proof.
  apply (created_item_accepts_update pc01 (laps "PC01.domain" "new")
           "v1" "id" "id0" "Administrator" "id1" "now" (mkState ∅ healthy)).
  reflexivity.
Defined.

Lemma created_item_updated_in_next_pass_witness :
  exists it s1,
    decode_item (new_item pc01 "v1" "id" "id0" "Administrator" "id1" "now")
      (mkState ∅ healthy) = (Return it, s1, [])
    /\ GetValue_fields (heap s1) (Item_Fields it) "password" = Return EmptyString
    /\ actions (trace_of (CompareLapsToOnepass [pc01] [it] s1)) = [CallUpdate 0 0].
Proof.
  apply (created_item_updated_in_next_pass pc01 pc01
           "v1" "id" "id0" "Administrator" "id1" "now" (mkState ∅ healthy)).
  - reflexivity.
  - discriminate.
Defined.


Lemma GetLapsEntries_records_witness :
  exists conn w1 w2 req entries w3,
    ldap_DialURL (Getenv "LDAP_URL" (world (mkState ∅ one_computer)))
      (world (mkState ∅ one_computer)) = ((conn, None), w1)
    /\ ldap_Bind conn (Getenv "LDAP_AUTH_CN" w1) (Getenv "LDAP_AUTH_PW" w1) w1
       = (None, w2)
    /\ ldap_Search conn req w2 = ((entries, None), w3)
    /\ Filter req = Getenv "LDAP_SEARCH_FILTER" w2
    /\ BaseDN req = Getenv "LDAP_SEARCH_BASEDN" w2
    /\ Forall2 record_of entries
         [laps_of_entry pc01_entry]
    /\ world (state_of (GetLapsEntries (mkState ∅ one_computer))) = ldap_Close conn w3.
Proof.
  apply (GetLapsEntries_records (mkState ∅ one_computer)
           [laps_of_entry pc01_entry]).
  reflexivity.
Defined.

Lemma laps_of_entry_expiration_witness :
  instant_ns (expiration (laps_of_entry pc01_entry))
  = (instant_ns epoch1601
     + value_from 0 [1; 3; 3; 6; 0; 4; 7; 1; 3; 5; 4; 0; 0; 0; 0; 0; 0; 0]%Z * 100)%Z
  /\ normalized (expiration (laps_of_entry pc01_entry)).
Proof.
  apply (laps_of_entry_expiration pc01_entry
           [1; 3; 3; 6; 0; 4; 7; 1; 3; 5; 4; 0; 0; 0; 0; 0; 0; 0]%Z).
  - reflexivity.
  - discriminate.
  - repeat constructor; unfold is_digit; lia.
  - vm_compute. discriminate.
Defined.

Lemma main_checks_before_requests_witness :
  exists w1 lapsentries s1,
    GetAndCheckEnvironment one_computer = (CheckReturn None, w1)
    /\ GetLapsEntries (mkState ∅ w1) = (Return (lapsentries, None), s1, [])
    /\ lapsentries <> []
    /\ (writes (main one_computer).2 <> [] ->
        exists onepassentries,
          outcome_of (GetOnePassEntries s1) = Return (onepassentries, None)).
Proof.
  apply (main_checks_before_requests one_computer).
  lazy. discriminate.
Defined.

Lemma main_exit_0_nothing_refused_witness :
  Forall not_failed (main one_computer).2.
Proof.
  apply (main_exit_0_nothing_refused one_computer).
  lazy. reflexivity.
Defined.

Lemma pass_ignores_name_and_expiration_witness :
  CompareLapsToOnepass [pc01] [] (mkState ∅ healthy)
  = CompareLapsToOnepass [pc01_renamed] [] (mkState ∅ healthy).
Proof.
  apply (pass_ignores_name_and_expiration [pc01] [pc01_renamed] [] (mkState ∅ healthy)).
  repeat constructor.
Defined.

Lemma pass_without_client_witness :
  state_of (CompareLapsToOnepass [pc01; pc02] [] (mkState ∅ no_client))
  = mkState ∅ no_client
  /\ (trace_of (CompareLapsToOnepass [pc01; pc02] [] (mkState ∅ no_client)) = []
      \/ exists ev,
           trace_of (CompareLapsToOnepass [pc01; pc02] [] (mkState ∅ no_client)) = [ev]
           /\ is_Some (action_record ev)
           /\ outcome_of (CompareLapsToOnepass [pc01; pc02] [] (mkState ∅ no_client))
              = Return (Some "OP_CONNECT_HOST, OP_CONNECT_TOKEN must be set")).
Proof.
  apply (pass_without_client [pc01; pc02] [] (mkState ∅ no_client)).
  reflexivity.
Defined.

Lemma CreateOnPassEntryFromLapsEntry_request_witness :
  exists vault,
    trace_of (CreateOnPassEntryFromLapsEntry pc01 (mkState ∅ healthy))
    = [ReqGetVaultsByTitle (Getenv "OP_VAULT_TITLE" (world (mkState ∅ healthy)))
         [vault] None;
       ReqCreateItem
         (new_item pc01 "v1" "6ba7b810-9dad-41d1-80b4-00c04fd430c8"
            "6ba7b810-9dad-41d1-80b4-00c04fd430c8" "Administrator"
            "6ba7b810-9dad-41d1-80b4-00c04fd430c8" "2024-05-01 10:00:00 +0000 UTC")
         "v1" None]
    /\ "v1" = Vault_ID vault
    /\ Data_Vault_ID
         (new_item pc01 "v1" "6ba7b810-9dad-41d1-80b4-00c04fd430c8"
            "6ba7b810-9dad-41d1-80b4-00c04fd430c8" "Administrator"
            "6ba7b810-9dad-41d1-80b4-00c04fd430c8" "2024-05-01 10:00:00 +0000 UTC")
       = "v1"
    /\ item_for pc01
         (new_item pc01 "v1" "6ba7b810-9dad-41d1-80b4-00c04fd430c8"
            "6ba7b810-9dad-41d1-80b4-00c04fd430c8" "Administrator"
            "6ba7b810-9dad-41d1-80b4-00c04fd430c8" "2024-05-01 10:00:00 +0000 UTC")
    /\ outcome_of (CreateOnPassEntryFromLapsEntry pc01 (mkState ∅ healthy))
       = Return None
    /\ heap (state_of (CreateOnPassEntryFromLapsEntry pc01 (mkState ∅ healthy)))
       = heap (mkState ∅ healthy).
Proof.
  apply (CreateOnPassEntryFromLapsEntry_request pc01 (mkState ∅ healthy)).
  vm_compute. right. left.
Defined.

End MoreRuns.
